(** * Realtime voice chat: session engine, VAD, playback, PCM16 codec, relay

    A shallow embedding of the TypeScript/JavaScript sources

    - [services/audioProcessor.ts]  (class [AudioProcessor]),
    - [services/realtimeService.ts] (class [RealtimeService]),
    - [App.tsx]                     (the turn-taking coordinator),
    - [server/proxy.js]             (the WebSocket relay),

    the properties of the specification, stated and settled on them, and
    further properties of the code.

    Modelling conventions.

    - A JavaScript number is a [number]: a rational, one of the two
      infinities, or NaN; the sign of a zero is not kept.  The quotient
      the decoder computes is rounded as the code rounds it, to a double by
      the division and to a single by the [Float32Array] store
      ([IEEE754]).  Sums and products are exact; the product of a Float32
      sample and a 16-bit scale is exact in doubles too.
    - Millisecond timestamps ([Date.now()]) are integers; the audio clock
      ([AudioContext.currentTime], in seconds) is a rational.
    - A class is a record of its mutable fields, a method a function from
      the record to the updated record and to whatever the method hands to
      the platform (messages sent, timers armed, sources started, callbacks
      invoked).
    - A callback the platform runs (socket event, timer, audio frame,
      button) is a constructor of an event type; a run is a list of events.
      Handlers run to completion, one after the other.

    The first part of the file holds the embedding, the second part the
    lemmas; the properties of the specification and the further properties
    of the code come last. *)

From stdpp Require Import gmap strings list.
From Stdlib Require Import ZArith QArith Qpower Qround Qabs Qminmax Lqa Lia.
From Stdlib Require Import List String Ascii Bool.
From coqutil Require Import Byte.
Import ListNotations.

Local Open Scope Z_scope.

(* ===================================================================== *)
(** * Part I: the embedding *)
(* ===================================================================== *)

(** ** JavaScript numbers *)

Inductive number : Type :=
| Num (q : Q)
| PosInfinity
| NegInfinity
| NaN.

(** ** IEEE 754 binary formats

    A finite value of a binary format is [m * 2 ^ e] for an integer
    significand [m] of at most [precision] bits and an exponent [e] the
    format has; a rational is converted to the nearest such value, a tie
    going to the even significand. *)

Module IEEE754.
Local Open Scope Q_scope.

(** The nearest integer, a tie going to the even one. *)
Definition roundTiesToEven (x : Q) : Z :=
  let f := Qfloor x in
  match Qcompare (x - inject_Z f) (1 # 2) with
  | Lt => f
  | Gt => (f + 1)%Z
  | Eq => if Z.even f then f else (f + 1)%Z
  end.

(** The integer [e] with [2 ^ e <= |q| < 2 ^ (e + 1)], for [q] other than
    zero. *)
Definition exponent (q : Q) : Z :=
  let k := (Z.log2 (Z.abs (Qnum q)) - Z.log2 (Z.pos (Qden q)))%Z in
  if Qle_bool (2 ^ k) (Qabs q) then k else (k - 1)%Z.

(** The exponent of the unit in the last place at [q]: values below
    [2 ^ emin] are subnormal and share the unit of [2 ^ emin]. *)
Definition ulp (precision emin : Z) (q : Q) : Z :=
  (Z.max (exponent q) emin - (precision - 1))%Z.

(** The value of the format nearest to [q], an exponent of any size being
    allowed. *)
Definition nearest (precision emin : Z) (q : Q) : Q :=
  let u := ulp precision emin q in
  Qred (inject_Z (roundTiesToEven (q * 2 ^ (- u))) * 2 ^ u).

(** Conversion to the format: a value that rounds beyond the largest
    exponent [emax] becomes an infinity. *)
Definition convert (precision emin emax : Z) (q : Q) : number :=
  let r := nearest precision emin q in
  if (exponent r <=? emax)%Z then Num r
  else if Qle_bool 0 r then PosInfinity else NegInfinity.

Definition binary32 : Q -> number := convert 24 (-126) 127.
Definition binary64 : Q -> number := convert 53 (-1022) 1023.

End IEEE754.

Module Number.

(** [a < b]; every comparison with NaN is false. *)
Definition lt (a b : number) : bool :=
  match a, b with
  | NaN, _ | _, NaN => false
  | Num x, Num y => if Qlt_le_dec x y then true else false
  | NegInfinity, NegInfinity => false
  | NegInfinity, _ => true
  | _, NegInfinity => false
  | PosInfinity, _ => false
  | Num _, PosInfinity => true
  end.

(** [a * b], with the IEEE rules for the special values. *)
Definition mul (a b : number) : number :=
  let sign_inf (pos : bool) (q : Q) :=
    match Qcompare q 0 with
    | Eq => NaN
    | Gt => if pos then PosInfinity else NegInfinity
    | Lt => if pos then NegInfinity else PosInfinity
    end in
  match a, b with
  | NaN, _ | _, NaN => NaN
  | Num x, Num y => Num (x * y)
  | PosInfinity, Num y => sign_inf true y
  | NegInfinity, Num y => sign_inf false y
  | Num x, PosInfinity => sign_inf true x
  | Num x, NegInfinity => sign_inf false x
  | PosInfinity, PosInfinity | NegInfinity, NegInfinity => PosInfinity
  | PosInfinity, NegInfinity | NegInfinity, PosInfinity => NegInfinity
  end.

(** [a + b]; opposite infinities give NaN. *)
Definition add (a b : number) : number :=
  match a, b with
  | NaN, _ | _, NaN => NaN
  | Num x, Num y => Num (x + y)
  | PosInfinity, NegInfinity | NegInfinity, PosInfinity => NaN
  | PosInfinity, _ | _, PosInfinity => PosInfinity
  | NegInfinity, _ | _, NegInfinity => NegInfinity
  end.

(** [a / b]: the quotient of two doubles, rounded to a double. *)
Definition div (a b : number) : number :=
  match a, b with
  | NaN, _ | _, NaN => NaN
  | Num x, Num y =>
      if Qeq_bool y 0 then
        match Qcompare x 0 with
        | Eq => NaN
        | Gt => PosInfinity
        | Lt => NegInfinity
        end
      else IEEE754.binary64 (x / y)
  | Num _, _ => Num 0
  | PosInfinity, Num y => if Qle_bool 0 y then PosInfinity else NegInfinity
  | NegInfinity, Num y => if Qle_bool 0 y then NegInfinity else PosInfinity
  | _, _ => NaN
  end.

(** Truncation toward zero. *)
Definition truncate (q : Q) : Z := Z.quot (Qnum q) (Z.pos (Qden q)).

(** ECMAScript [ToInt16]: NaN and the infinities give 0; a finite value is
    truncated and reduced modulo 2^16 into the signed range. *)
Definition ToInt16 (v : number) : Z :=
  match v with
  | Num q =>
      let int16bit := truncate q mod 2 ^ 16 in
      if 2 ^ 15 <=? int16bit then int16bit - 2 ^ 16 else int16bit
  | _ => 0
  end.

End Number.

Module Math.

(** [Math.min(a, b)] and [Math.max(a, b)]: NaN as soon as an argument is. *)
Definition min (a b : number) : number :=
  match a, b with
  | NaN, _ | _, NaN => NaN
  | _, _ => if Number.lt b a then b else a
  end.

Definition max (a b : number) : number :=
  match a, b with
  | NaN, _ | _, NaN => NaN
  | _, _ => if Number.lt a b then b else a
  end.

(** [Math.floor(x)] and [Math.round(x)] of a finite value: the nearest
    integer, a half rounded up. *)
Definition floor (x : Q) : Z := Qfloor x.
Definition round (x : Q) : Z := Qfloor (x + (1 # 2)).

(** [Math.fround(x)]: the single nearest to [x].  It is the conversion a
    store into a [Float32Array] applies. *)
Definition fround (x : number) : number :=
  match x with
  | Num q => IEEE754.binary32 q
  | _ => x
  end.

End Math.

(** ** The platform's base64 functions

    [btoa] and [atob] belong to the browser.  A binary string (every
    character a byte) is a [string]; [atob] throws on text that is not
    base64, which is [None].  The program relies on one fact: [atob] undoes
    [btoa]. *)

Class Base64 : Type := {
  btoa : string -> string;
  atob : string -> option string;
  atob_btoa : forall binary, atob (btoa binary) = Some binary
}.

(** The functions as the HTML standard defines them: [btoa] is RFC 4648
    base64 with padding, [atob] the "forgiving-base64 decode" (ASCII
    whitespace is dropped, padding is optional). *)
Module ForgivingBase64.

Definition charCode (c : ascii) : Z := Z.of_N (N_of_ascii c).
Definition fromCharCode (n : Z) : ascii := ascii_of_N (Z.to_N n).

(** The alphabet of RFC 4648, table 1. *)
Definition alphabet (n : Z) : ascii :=
  if n <? 26 then fromCharCode (65 + n)
  else if n <? 52 then fromCharCode (97 + (n - 26))
  else if n <? 62 then fromCharCode (48 + (n - 52))
  else if n =? 62 then "+"%char
  else "/"%char.

Definition index (c : ascii) : option Z :=
  let k := charCode c in
  if (65 <=? k) && (k <=? 90) then Some (k - 65)
  else if (97 <=? k) && (k <=? 122) then Some (k - 71)
  else if (48 <=? k) && (k <=? 57) then Some (k + 4)
  else if k =? 43 then Some 62
  else if k =? 47 then Some 63
  else None.

Definition pad : ascii := "="%char.

Definition is_whitespace (c : ascii) : bool :=
  let k := charCode c in
  (k =? 9) || (k =? 10) || (k =? 12) || (k =? 13) || (k =? 32).

Fixpoint encode (bytes : list Z) : list ascii :=
  match bytes with
  | [] => []
  | [a] => [alphabet (a / 4); alphabet (a mod 4 * 16); pad; pad]
  | [a; b] =>
      [alphabet (a / 4); alphabet (a mod 4 * 16 + b / 16);
       alphabet (b mod 16 * 4); pad]
  | a :: b :: c :: rest =>
      alphabet (a / 4) :: alphabet (a mod 4 * 16 + b / 16)
      :: alphabet (b mod 16 * 4 + c / 64) :: alphabet (c mod 64)
      :: encode rest
  end.

Definition decode1 (c1 c2 : ascii) : option (list Z) :=
  match index c1, index c2 with
  | Some i1, Some i2 => Some [i1 * 4 + i2 / 16]
  | _, _ => None
  end.

Definition decode2 (c1 c2 c3 : ascii) : option (list Z) :=
  match index c1, index c2, index c3 with
  | Some i1, Some i2, Some i3 =>
      Some [i1 * 4 + i2 / 16; i2 mod 16 * 16 + i3 / 4]
  | _, _, _ => None
  end.

Definition decode3 (c1 c2 c3 c4 : ascii) : option (list Z) :=
  match index c1, index c2, index c3, index c4 with
  | Some i1, Some i2, Some i3, Some i4 =>
      Some [i1 * 4 + i2 / 16; i2 mod 16 * 16 + i3 / 4; i3 mod 4 * 64 + i4]
  | _, _, _, _ => None
  end.

(** Four characters give three bytes; a last group of two or three
    characters, padded or not, gives one or two. *)
Fixpoint decode (data : list ascii) : option (list Z) :=
  match data with
  | [] => Some []
  | [_] => None
  | [c1; c2] => decode1 c1 c2
  | [c1; c2; c3] => decode2 c1 c2 c3
  | c1 :: c2 :: c3 :: c4 :: rest =>
      match rest with
      | [] =>
          if Ascii.eqb c4 pad then
            if Ascii.eqb c3 pad then decode1 c1 c2 else decode2 c1 c2 c3
          else decode3 c1 c2 c3 c4
      | _ =>
          match decode3 c1 c2 c3 c4, decode rest with
          | Some group, Some bytes => Some (group ++ bytes)
          | _, _ => None
          end
      end
  end.

Definition btoa (binary : string) : string :=
  string_of_list_ascii
    (encode (map byte.unsigned (list_byte_of_string binary))).

Definition atob (base64 : string) : option string :=
  let data :=
    List.filter (fun c => negb (is_whitespace c)) (list_ascii_of_string base64) in
  match decode data with
  | Some bytes => Some (string_of_list_byte (map byte.of_Z bytes))
  | None => None
  end.

(** Used to check the alphabet: the character of a sextet is read back as
    the sextet, and is neither padding nor whitespace. *)
Definition sextet_ok (n : Z) : bool :=
  match index (alphabet n) with Some m => m =? n | None => false end
  && negb (Ascii.eqb (alphabet n) pad)
  && negb (is_whitespace (alphabet n)).

Definition is_byte (b : Z) : Prop := 0 <= b < 256.

End ForgivingBase64.

(* ===================================================================== *)
(** ** [AudioProcessor]: voice activity detection, playback, PCM16 codec *)
(* ===================================================================== *)

Module AudioProcessor.

(** A [Float32Array], by its elements.  What the code stores in one is
    rounded to a single ([Math.fround]); the decoder's store is written out
    in [int16ToSample]. *)
Definition Float32Array : Type := list number.

(** What the class tells its owner and the audio device. *)
Inductive VADSignal : Type :=
| onSpeechStart
| onSpeechEnd
| onVolumeChange (volume : number).

(** [source.start(startTime)] for a buffer of [duration] seconds, issued
    when the output clock read [currentTime]. *)
Record Scheduled : Type := {
  currentTime : Q;
  startTime : Q;
  duration : Q
}.

(** The mutable fields.  [audioContext], [mediaStream] hold whether the
    object exists; [silenceTimer] holds the time before which the pending
    timeout cannot fire; [currentSource] the source last started. *)
Record t : Type := {
  audioContext : bool;
  mediaStream : bool;
  playbackQueue : list Float32Array;
  isPlaying : bool;
  nextPlayTime : Q;
  currentSource : option Scheduled;
  isSpeaking : bool;
  silenceStartTime : Z;
  silenceTimer : option Z
}.

Definition SILENCE_THRESHOLD : Q := 0.01.
Definition SILENCE_DURATION : Z := 1500.
Definition SPEECH_THRESHOLD : Q := 0.02.
Definition SAMPLE_RATE : Q := 24000.

Definition new : t := {|
  audioContext := false;
  mediaStream := false;
  playbackQueue := [];
  isPlaying := false;
  nextPlayTime := 0;
  currentSource := None;
  isSpeaking := false;
  silenceStartTime := 0;
  silenceTimer := None
|}.

Definition setVAD (speaking : bool) (start : Z) (timer : option Z) (this : t) : t := {|
  audioContext := this.(audioContext);
  mediaStream := this.(mediaStream);
  playbackQueue := this.(playbackQueue);
  isPlaying := this.(isPlaying);
  nextPlayTime := this.(nextPlayTime);
  currentSource := this.(currentSource);
  isSpeaking := speaking;
  silenceStartTime := start;
  silenceTimer := timer
|}.

Definition setPlayback (queue : list Float32Array) (playing : bool) (next : Q)
    (source : option Scheduled) (this : t) : t := {|
  audioContext := this.(audioContext);
  mediaStream := this.(mediaStream);
  playbackQueue := queue;
  isPlaying := playing;
  nextPlayTime := next;
  currentSource := source;
  isSpeaking := this.(isSpeaking);
  silenceStartTime := this.(silenceStartTime);
  silenceTimer := this.(silenceTimer)
|}.

Definition setDevices (context stream : bool) (this : t) : t := {|
  audioContext := context;
  mediaStream := stream;
  playbackQueue := this.(playbackQueue);
  isPlaying := this.(isPlaying);
  nextPlayTime := this.(nextPlayTime);
  currentSource := this.(currentSource);
  isSpeaking := this.(isSpeaking);
  silenceStartTime := this.(silenceStartTime);
  silenceTimer := this.(silenceTimer)
|}.

(** *** Voice activity detection *)

(** [processVAD(audioData)] after the loop that computes [rms]: the frame
    enters as its root mean square (a square root is not rational), [now] is
    [Date.now()].  Arming the timer is [setTimeout(..., SILENCE_DURATION)]. *)
Definition processVAD (rms : number) (now : Z) (this : t) : t * list VADSignal :=
  let volume := onVolumeChange (Math.min (Number.mul rms (Num 10)) (Num 1)) in
  if Number.lt (Num SPEECH_THRESHOLD) rms then
    let started := if this.(isSpeaking) then [] else [onSpeechStart] in
    (setVAD true 0 None this, volume :: started)
  else if Number.lt rms (Num SILENCE_THRESHOLD) then
    if this.(isSpeaking) then
      let start :=
        if this.(silenceStartTime) =? 0 then now else this.(silenceStartTime) in
      let timer :=
        match this.(silenceTimer) with
        | None => Some (now + SILENCE_DURATION)
        | Some due => Some due
        end in
      (setVAD true start timer this, [volume])
    else (this, [volume])
  else (this, [volume]).

(** The callback given to [setTimeout] in [processVAD], run at [now]. *)
Definition silenceTimeout (now : Z) (this : t) : t * list VADSignal :=
  if this.(isSpeaking) && (0 <? this.(silenceStartTime)) then
    let silenceDuration := now - this.(silenceStartTime) in
    if SILENCE_DURATION <=? silenceDuration then
      (setVAD false 0 None this, [onSpeechEnd])
    else (setVAD this.(isSpeaking) this.(silenceStartTime) None this, [])
  else (setVAD this.(isSpeaking) this.(silenceStartTime) None this, []).

Definition resetVADState (this : t) : t := setVAD false 0 None this.

(** What the platform and the owner do to the detector: an audio frame, the
    pending timeout firing (a cleared timeout never fires), a reset. *)
Inductive VADEvent : Type :=
| Frame (rms : number) (now : Z)
| SilenceTimer (now : Z)
| Reset.

Definition vadStep (e : VADEvent) (this : t) : t * list VADSignal :=
  match e with
  | Frame rms now => processVAD rms now this
  | SilenceTimer now =>
      match this.(silenceTimer) with
      | Some _ => silenceTimeout now this
      | None => (this, [])
      end
  | Reset => (resetVADState this, [])
  end.


(** *** Playback *)

(** [playNextChunk()], run when the output clock reads [clock].
    [createBuffer] throws for a buffer of no frames: the method is then left
    with the chunk taken off the queue and [isPlaying] set. *)
Definition playNextChunk (clock : Q) (this : t) : t * list Scheduled :=
  match this.(audioContext), this.(playbackQueue) with
  | false, _ | _, [] =>
      (setPlayback this.(playbackQueue) false this.(nextPlayTime)
         this.(currentSource) this, [])
  | true, float32Data :: queue =>
      if (List.length float32Data =? 0)%nat then
        (setPlayback queue true this.(nextPlayTime) this.(currentSource) this, [])
      else
        let audioBuffer_duration :=
          (inject_Z (Z.of_nat (List.length float32Data)) / SAMPLE_RATE)%Q in
        let startTime := Qmax clock this.(nextPlayTime) in
        let source := {|
          currentTime := clock;
          startTime := startTime;
          duration := audioBuffer_duration
        |} in
        (setPlayback queue true (startTime + audioBuffer_duration)%Q (Some source) this,
         [source])
  end.

(** [source.onended]. *)
Definition onended (clock : Q) (this : t) : t * list Scheduled :=
  playNextChunk clock
    (setPlayback this.(playbackQueue) this.(isPlaying) this.(nextPlayTime) None this).

Definition stopPlayback (this : t) : t := setPlayback [] false 0 None this.

Definition isCurrentlyPlaying (this : t) : bool := this.(isPlaying).

(** *** Capture *)

(** [getUserMedia] grants the microphone or rejects with a message. *)
Inductive MediaOutcome : Type :=
| Granted
| Rejected (message : string).

(** [startCapture]: [inr] is the thrown [Error]'s message. *)
Definition startCapture (outcome : MediaOutcome) (this : t) : t * (unit + string) :=
  match outcome with
  | Granted => (setDevices true true this, inl tt)
  | Rejected message =>
      (this, inr (String.append "无法访问麦克风: " message))
  end.

Definition stopCapture (this : t) : t :=
  resetVADState (setDevices this.(audioContext) false this).

Definition destroy (this : t) : t :=
  setDevices false false (stopPlayback (stopCapture this)).

(** *** Format conversion *)

Section Codec.
Context {platform : Base64}.

(** [Math.max(-1, Math.min(1, float32Array[i]))]. *)
Definition clamp (x : number) : number :=
  Math.max (Num (-1)) (Math.min (Num 1) x).

(** [s < 0 ? s * 0x8000 : s * 0x7fff]. *)
Definition scale (s : number) : number :=
  if Number.lt s (Num 0) then Number.mul s (Num 0x8000)
  else Number.mul s (Num 0x7fff).

(** [view.setInt16(i * 2, val, true)]: the two bytes, low byte first. *)
Definition setInt16 (val : number) : list byte :=
  let n := Number.ToInt16 val in [byte.of_Z n; byte.of_Z (n / 256)].

(** The loop that turns [bytes] into a binary string, [chunkSize] bytes at
    a time; [fuel] bounds the number of rounds. *)
Fixpoint fromCharCodeChunks (fuel : nat) (chunkSize : nat) (bytes : list byte) : string :=
  match fuel, bytes with
  | O, _ | _, [] => EmptyString
  | S fuel', _ =>
      String.append (string_of_list_byte (take chunkSize bytes))
        (fromCharCodeChunks fuel' chunkSize (drop chunkSize bytes))
  end.

Definition float32ToBase64PCM16 (float32Array : Float32Array) : string :=
  let bytes := flat_map (fun x => setInt16 (scale (clamp x))) float32Array in
  let chunkSize := Z.to_nat 0x8000 in
  let binary := fromCharCodeChunks (List.length bytes) chunkSize bytes in
  btoa binary.

(** One element of [new Int16Array(bytes.buffer)] (little-endian host). *)
Definition getInt16 (lo hi : byte) : Z :=
  let u := byte.unsigned lo + 256 * byte.unsigned hi in
  if 2 ^ 15 <=? u then u - 2 ^ 16 else u.

(** [new Int16Array(buffer)] throws a [RangeError] for a buffer of odd
    length. *)
Fixpoint Int16Array (buffer : list byte) : option (list Z) :=
  match buffer with
  | [] => Some []
  | [_] => None
  | lo :: hi :: rest =>
      match Int16Array rest with
      | Some pcm16 => Some (getInt16 lo hi :: pcm16)
      | None => None
      end
  end.

(** [float32[i] = pcm16[i] / 0x7fff]: the double quotient, stored as a
    single. *)
Definition int16ToSample (n : Z) : number :=
  Math.fround (Number.div (Num (inject_Z n)) (Num 0x7fff)).

(** [None]: [atob] or [Int16Array] threw. *)
Definition base64PCM16ToFloat32 (base64 : string) : option Float32Array :=
  match atob base64 with
  | None => None
  | Some binary =>
      let bytes := list_byte_of_string binary in
      match Int16Array bytes with
      | None => None
      | Some pcm16 => Some (map int16ToSample pcm16)
      end
  end.

(** The 16-bit integer written for one sample. *)
Definition sampleToInt16 (x : number) : Z := Number.ToInt16 (scale (clamp x)).

(** [playAudioChunk(base64)], run when the output clock reads [clock]; a
    decoding error leaves the method before anything is queued. *)
Definition playAudioChunk (base64 : string) (clock : Q) (this : t) : t * list Scheduled :=
  let this := setDevices true this.(mediaStream) this in
  match base64PCM16ToFloat32 base64 with
  | None => (this, [])
  | Some float32Data =>
      let this :=
        setPlayback (this.(playbackQueue) ++ [float32Data]) this.(isPlaying)
          this.(nextPlayTime) this.(currentSource) this in
      if this.(isPlaying) then (this, []) else playNextChunk clock this
  end.

(** The two callbacks that schedule audio. *)
Inductive PlaybackEvent : Type :=
| Enqueue (base64 : string) (clock : Q)
| Ended (clock : Q).

Definition playbackStep (e : PlaybackEvent) (this : t) : t * list Scheduled :=
  match e with
  | Enqueue base64 clock => playAudioChunk base64 clock this
  | Ended clock => onended clock this
  end.

(** The state after a run and every source started on the way, in order. *)
Fixpoint playbackRun (events : list PlaybackEvent) (this : t) : t * list Scheduled :=
  match events with
  | [] => (this, [])
  | e :: rest =>
      let (this', started) := playbackStep e this in
      let (final, later) := playbackRun rest this' in
      (final, started ++ later)
  end.

End Codec.

(** *** Resampling *)

(** [a[i]]: [undefined] outside the array, which arithmetic turns into
    NaN. *)
Definition get (a : Float32Array) (i : Z) : number :=
  if i <? 0 then NaN else nth (Z.to_nat i) a NaN.

(** [resample(inputData, inputSampleRate, outputSampleRate)]; the sample
    rates are positive.  The arithmetic here is exact: the ratio, the
    output length and the weights are rationals.  The code computes them
    in doubles, and agrees with this definition where the double results
    are exact, as they are when the ratio is a whole number. *)
Definition resample (inputData : Float32Array) (inputSampleRate outputSampleRate : Q)
    : Float32Array :=
  let ratio := (inputSampleRate / outputSampleRate)%Q in
  let inputData_length := Z.of_nat (List.length inputData) in
  let outputLength := Math.round (inject_Z inputData_length / ratio) in
  map (fun i : Z =>
         let srcIndex := (inject_Z i * ratio)%Q in
         let srcIndexFloor := Math.floor srcIndex in
         let srcIndexCeil := Z.min (srcIndexFloor + 1) (inputData_length - 1) in
         let fraction := (srcIndex - inject_Z srcIndexFloor)%Q in
         Number.add
           (Number.mul (get inputData srcIndexFloor) (Num (1 - fraction)))
           (Number.mul (get inputData srcIndexCeil) (Num fraction)))
    (seqZ 0 outputLength).

End AudioProcessor.

(* ===================================================================== *)
(** ** [RealtimeService]: the transport session *)
(* ===================================================================== *)

Module RealtimeService.

Inductive ReadyState : Type := CONNECTING | OPEN | CLOSING | CLOSED.

(** Events sent to the endpoint, by their [type] (the keep-alive by its
    [event]); payloads the properties do not look at are left out. *)
Inductive ClientEvent : Type :=
| session_update
| input_audio_buffer_append (audio : string)
| input_audio_buffer_commit
| input_audio_buffer_clear
| response_create (input_text : option string)
| conversation_item_delete (item_id : string)
| task_continue.

(** Events received, by their [type].  [conversation_item_created] carries
    the transcripts of the [input_audio] contents of a user item, the empty
    string for a content that has none. *)
Inductive ServerEvent : Type :=
| proxy_connected
| session_created
| session_updated
| conversation_created
| conversation_item_created (transcripts : list string)
| conversation_item_deleted
| input_audio_buffer_committed
| input_audio_buffer_cleared
| response_created
| response_output_item_added
| response_output_item_done
| response_text_delta (delta : string)
| response_text_done (text : string)
| response_audio_delta (delta : string)
| response_audio_done
| response_audio_transcript_delta (delta : string)
| response_audio_transcript_done (transcript : string)
| response_done
| error (message : string)
| unhandled.

(** The members of [RealtimeCallbacks]. *)
Inductive Callback : Type :=
| onConnected
| onDisconnected
| onUserTranscript (transcript : string)
| onResponseStart
| onTextDelta (delta : string)
| onTextDone (text : string)
| onAudioDelta (audioBase64 : string)
| onAudioDone
| onAudioTranscriptDelta (delta : string)
| onAudioTranscriptDone (transcript : string)
| onResponseDone
| onError (message : string).

(** Who called [connect()]: the owner, which awaits the promise, or the
    reconnect timeout, which drops it. *)
Inductive Caller : Type := Owner | Timeout.

(** What a method hands to the platform or to its owner: an event put on
    the socket, a callback invoked, a socket created or closed, a reconnect
    timeout armed, the promise of [connect()] settled. *)
Inductive Effect : Type :=
| Send (event : ClientEvent)
| Invoke (callback : Callback)
| NewWebSocket
| CloseWebSocket
| SetTimeoutConnect (delay : Z)
| Resolve (caller : Caller)
| Reject (caller : Caller) (message : string).

(** The mutable fields and [config.useProxy].  [ws] holds the ready state
    of the current socket, [heartbeatInterval] the period of the registered
    interval, [connectPending] the caller whose promise
    [connectResolve]/[connectReject] settle, [reconnectTimers] the number
    of timeouts armed by [onclose] that have not fired yet. *)
Record t : Type := {
  useProxy : bool;
  ws : option ReadyState;
  isConnected : bool;
  reconnectAttempts : Z;
  connectPending : option Caller;
  manualDisconnect : bool;
  heartbeatInterval : option Z;
  reconnectTimers : nat
}.

Definition maxReconnectAttempts : Z := 3.
Definition HEARTBEAT_INTERVAL : Z := 60000.
Definition RECONNECT_DELAY : Z := 2000.

(** [new RealtimeService(config)]; [useProxy] defaults to [true]. *)
Definition new (config_useProxy : option bool) : t := {|
  useProxy := match config_useProxy with Some b => b | None => true end;
  ws := None;
  isConnected := false;
  reconnectAttempts := 0;
  connectPending := None;
  manualDisconnect := false;
  heartbeatInterval := None;
  reconnectTimers := O
|}.

Definition setSocket (socket : option ReadyState) (this : t) : t := {|
  useProxy := this.(useProxy);
  ws := socket;
  isConnected := this.(isConnected);
  reconnectAttempts := this.(reconnectAttempts);
  connectPending := this.(connectPending);
  manualDisconnect := this.(manualDisconnect);
  heartbeatInterval := this.(heartbeatInterval);
  reconnectTimers := this.(reconnectTimers)
|}.

Definition setConnection (connected : bool) (attempts : Z) (this : t) : t := {|
  useProxy := this.(useProxy);
  ws := this.(ws);
  isConnected := connected;
  reconnectAttempts := attempts;
  connectPending := this.(connectPending);
  manualDisconnect := this.(manualDisconnect);
  heartbeatInterval := this.(heartbeatInterval);
  reconnectTimers := this.(reconnectTimers)
|}.

Definition setPending (pending : option Caller) (this : t) : t := {|
  useProxy := this.(useProxy);
  ws := this.(ws);
  isConnected := this.(isConnected);
  reconnectAttempts := this.(reconnectAttempts);
  connectPending := pending;
  manualDisconnect := this.(manualDisconnect);
  heartbeatInterval := this.(heartbeatInterval);
  reconnectTimers := this.(reconnectTimers)
|}.

Definition setManualDisconnect (manual : bool) (this : t) : t := {|
  useProxy := this.(useProxy);
  ws := this.(ws);
  isConnected := this.(isConnected);
  reconnectAttempts := this.(reconnectAttempts);
  connectPending := this.(connectPending);
  manualDisconnect := manual;
  heartbeatInterval := this.(heartbeatInterval);
  reconnectTimers := this.(reconnectTimers)
|}.

Definition setHeartbeat (interval : option Z) (this : t) : t := {|
  useProxy := this.(useProxy);
  ws := this.(ws);
  isConnected := this.(isConnected);
  reconnectAttempts := this.(reconnectAttempts);
  connectPending := this.(connectPending);
  manualDisconnect := this.(manualDisconnect);
  heartbeatInterval := interval;
  reconnectTimers := this.(reconnectTimers)
|}.

Definition setReconnectTimers (timers : nat) (this : t) : t := {|
  useProxy := this.(useProxy);
  ws := this.(ws);
  isConnected := this.(isConnected);
  reconnectAttempts := this.(reconnectAttempts);
  connectPending := this.(connectPending);
  manualDisconnect := this.(manualDisconnect);
  heartbeatInterval := this.(heartbeatInterval);
  reconnectTimers := timers
|}.

(** [send(event)]: dropped unless the socket is open. *)
Definition send (event : ClientEvent) (this : t) : list Effect :=
  match this.(ws) with
  | Some OPEN => [Send event]
  | _ => []
  end.

Definition initSession (this : t) : list Effect := send session_update this.

Definition stopHeartbeat (this : t) : t := setHeartbeat None this.

(** [setInterval(..., HEARTBEAT_INTERVAL)] after [stopHeartbeat()]. *)
Definition startHeartbeat (this : t) : t :=
  setHeartbeat (Some HEARTBEAT_INTERVAL) (stopHeartbeat this).

(** The callback given to [setInterval]. *)
Definition heartbeat (this : t) : list Effect :=
  if this.(isConnected) then send task_continue this else [].

(** [connectResolve?.()] / [connectReject?.()], then both are cleared. *)
Definition settle (outcome : Caller -> Effect) (this : t) : t * list Effect :=
  (setPending None this,
   match this.(connectPending) with
   | Some caller => [outcome caller]
   | None => []
   end).

(** What [new WebSocket(url)] does: it returns the socket, or throws for
    a URL the platform refuses. *)
Inductive Construction : Type :=
| Constructed
| Thrown (message : string).

(** [connect()].  When the constructor throws, the promise is rejected
    with what was thrown; no socket is stored and the callbacks of an
    earlier call are left as they are. *)
Definition connect (caller : Caller) (socket : Construction) (this : t)
    : t * list Effect :=
  if this.(isConnected) then (this, [Resolve caller])
  else
    match socket with
    | Thrown message => (this, [Reject caller message])
    | Constructed =>
        (setPending (Some caller) (setSocket (Some CONNECTING) this), [NewWebSocket])
    end.

(** [ws.onopen], the socket now being open. *)
Definition onopen (this : t) : t * list Effect :=
  let this := setSocket (Some OPEN) this in
  if this.(useProxy) then (this, [])
  else
    let this := setConnection true 0 this in
    let sent := initSession this in
    let (this, settled) := settle Resolve this in
    (this, sent ++ [Invoke onConnected] ++ settled).

(** [handleItemCreated(event)] for a user item: a content whose transcript
    is missing or empty is passed over. *)
Definition handleItemCreated (transcripts : list string) : list Effect :=
  map (fun transcript => Invoke (onUserTranscript transcript))
    (List.filter (fun transcript => negb (String.eqb transcript EmptyString)) transcripts).

Definition handleServerEvent (event : ServerEvent) (this : t) : t * list Effect :=
  match event with
  | proxy_connected =>
      let this := setConnection true 0 this in
      let sent := initSession this in
      let this := startHeartbeat this in
      let (this, settled) := settle Resolve this in
      (this, sent ++ [Invoke onConnected] ++ settled)
  | conversation_item_created transcripts => (this, handleItemCreated transcripts)
  | response_created => (this, [Invoke onResponseStart])
  | response_text_delta delta => (this, [Invoke (onTextDelta delta)])
  | response_text_done text => (this, [Invoke (onTextDone text)])
  | response_audio_delta delta => (this, [Invoke (onAudioDelta delta)])
  | response_audio_done => (this, [Invoke onAudioDone])
  | response_audio_transcript_delta delta =>
      (this, [Invoke (onAudioTranscriptDelta delta)])
  | response_audio_transcript_done transcript =>
      (this, [Invoke (onAudioTranscriptDone transcript)])
  | response_done => (this, [Invoke onResponseDone])
  | error message => (this, [Invoke (onError message)])
  | session_created | session_updated | conversation_created
  | conversation_item_deleted | input_audio_buffer_committed
  | input_audio_buffer_cleared | response_output_item_added
  | response_output_item_done | unhandled => (this, [])
  end.

(** [ws.onmessage]: a frame that does not parse is logged and dropped. *)
Definition onmessage (data : option ServerEvent) (this : t) : t * list Effect :=
  match data with
  | Some event => handleServerEvent event this
  | None => (this, [])
  end.

Definition onerror (this : t) : t * list Effect :=
  let errorMsg :=
    if this.(useProxy)
    then "WebSocket 连接失败，请确保代理服务器已启动 (node server/proxy.js)"
    else "WebSocket 连接失败" in
  settle (fun caller => Reject caller errorMsg) this.

(** [ws.onclose], the socket now being closed. *)
Definition onclose (this : t) : t * list Effect :=
  let this :=
    match this.(ws) with
    | Some _ => setSocket (Some CLOSED) this
    | None => this
    end in
  let this := setConnection false this.(reconnectAttempts) this in
  if this.(manualDisconnect) then
    (setManualDisconnect false this, [Invoke onDisconnected])
  else if this.(reconnectAttempts) <? maxReconnectAttempts then
    (setReconnectTimers (S this.(reconnectTimers))
       (setConnection false (this.(reconnectAttempts) + 1) this),
     [Invoke onDisconnected; SetTimeoutConnect RECONNECT_DELAY])
  else (this, [Invoke onDisconnected]).

Definition disconnect (this : t) : t * list Effect :=
  let this := setManualDisconnect true this in
  let this := stopHeartbeat this in
  let (this, closed) :=
    match this.(ws) with
    | Some _ => (setSocket None this, [CloseWebSocket])
    | None => (this, [])
    end in
  (setConnection false this.(reconnectAttempts) this, closed).

Definition appendAudio (audioBase64 : string) (this : t) : list Effect :=
  send (input_audio_buffer_append audioBase64) this.
Definition commitAudio (this : t) : list Effect := send input_audio_buffer_commit this.
Definition clearAudioBuffer (this : t) : list Effect := send input_audio_buffer_clear this.
Definition sendText (text : string) (this : t) : list Effect :=
  send (response_create (Some text)) this.
Definition createResponse (this : t) : list Effect := send (response_create None) this.
Definition updateSession (this : t) : list Effect := send session_update this.
Definition deleteConversationItem (itemId : string) (this : t) : list Effect :=
  send (conversation_item_delete itemId) this.

(** [interrupt()] has an empty body: the endpoint has no cancel command. *)
Definition interrupt (this : t) : list Effect := [].

(** The public methods that only send. *)
Inductive Method : Type :=
| AppendAudio (audioBase64 : string)
| CommitAudio
| ClearAudioBuffer
| SendText (text : string)
| CreateResponse
| UpdateSession
| DeleteConversationItem (itemId : string)
| Interrupt.

Definition invoke (m : Method) (this : t) : list Effect :=
  match m with
  | AppendAudio audioBase64 => appendAudio audioBase64 this
  | CommitAudio => commitAudio this
  | ClearAudioBuffer => clearAudioBuffer this
  | SendText text => sendText text this
  | CreateResponse => createResponse this
  | UpdateSession => updateSession this
  | DeleteConversationItem itemId => deleteConversationItem itemId this
  | Interrupt => interrupt this
  end.

Definition isConnectedState (this : t) : bool := this.(isConnected).

(** What happens to a session: the owner's calls, the socket's events and
    the two timers.  [CallConnect] is a call of [connect()] in which the
    socket is constructed, [CallConnectThrown] one in which the constructor
    throws.  A timer that is not registered does not fire; the reconnect
    timeout is armed by the close of a socket, so the URL is one the
    platform accepts. *)
Inductive Event : Type :=
| CallConnect
| CallDisconnect
| Call (m : Method)
| SocketOpen
| SocketMessage (data : option ServerEvent)
| SocketError
| SocketClose
| ReconnectTimer
| HeartbeatTimer
| CallConnectThrown (message : string).

Definition step (e : Event) (this : t) : t * list Effect :=
  match e with
  | CallConnect => connect Owner Constructed this
  | CallConnectThrown message => connect Owner (Thrown message) this
  | ReconnectTimer =>
      match this.(reconnectTimers) with
      | S timers => connect Timeout Constructed (setReconnectTimers timers this)
      | O => (this, [])
      end
  | CallDisconnect => disconnect this
  | Call m => (this, invoke m this)
  | SocketOpen => onopen this
  | SocketMessage data => onmessage data this
  | SocketError => onerror this
  | SocketClose => onclose this
  | HeartbeatTimer =>
      match this.(heartbeatInterval) with
      | Some _ => (this, heartbeat this)
      | None => (this, [])
      end
  end.

Fixpoint run (events : list Event) (this : t) : t * list Effect :=
  match events with
  | [] => (this, [])
  | e :: rest =>
      let (this', effects) := step e this in
      let (final, later) := run rest this' in
      (final, effects ++ later)
  end.

End RealtimeService.

(* ===================================================================== *)
(** ** [server/proxy.js]: the relay's connection handler *)
(* ===================================================================== *)

Module Proxy.

(** A value of [url.parse(req.url, true).query]: a string, or an array when
    the parameter is repeated. *)
Inductive QueryValue : Type :=
| QString (value : string)
| QArray (values : list string).

Definition MINIMAX_WS_URL : string := "wss://api.minimaxi.com/ws/v1/realtime".

(** What the handler does to the two sockets. *)
Inductive Action : Type :=
| ClientClose (code : Z) (reason : string)
| NewUpstreamWebSocket (url : string) (authorization : string).

(** Truthiness of [query.x]: a missing parameter and the empty string are
    falsy. *)
Definition truthy (v : option QueryValue) : bool :=
  match v with
  | None => false
  | Some (QString value) => negb (String.eqb value "")
  | Some (QArray _) => true
  end.

(** The string a template literal makes of the value. *)
Definition toString (v : option QueryValue) : string :=
  match v with
  | None => "undefined"
  | Some (QString value) => value
  | Some (QArray values) => String.concat "," values
  end.

(** [wss.on('connection', (clientWs, req) => ...)] up to the creation of
    the upstream socket. *)
Definition onConnection (query : gmap string QueryValue) : list Action :=
  let apiKey := query !! "apiKey" in
  let model :=
    if truthy (query !! "model") then query !! "model"
    else Some (QString "abab6.5s-chat") in
  if negb (truthy apiKey) then [ClientClose 4001 "Missing API Key"]
  else
    let minimaxUrl :=
      String.append MINIMAX_WS_URL (String.append "?model=" (toString model)) in
    [NewUpstreamWebSocket minimaxUrl (String.append "Bearer " (toString apiKey))].

End Proxy.

(* ===================================================================== *)
(** ** [server/proxy.js]: the handlers that forward *)
(* ===================================================================== *)

Module Relay.

Inductive ReadyState : Type := CONNECTING | OPEN | CLOSING | CLOSED.

(** What the relay writes to the client: a message of the endpoint passed
    on, or one of its own two notices ([JSON.stringify] of an object with
    the given [type]). *)
Inductive ClientFrame : Type :=
| Relayed (data : string)
| proxy_connected
| proxy_error (message : string).

(** What a handler does to the two sockets.  [Throw] is an exception that
    leaves the handler: nothing catches it, and the relay process ends
    with it. *)
Inductive Forward : Type :=
| ClientSend (frame : ClientFrame)
| UpstreamSend (data : string)
| CloseClient (code : Z) (reason : string)
| CloseUpstream
| Throw (message : string).

(** The status codes that [close(code, reason)] of the [ws] library takes;
    it throws a [TypeError] for any other.  1005 and 1006, which a close
    event reports for a socket closed with no status or cut off, are not
    among them. *)
Definition isValidStatusCode (code : Z) : bool :=
  ((1000 <=? code) && (code <=? 1014)
   && negb (code =? 1004) && negb (code =? 1005) && negb (code =? 1006))
  || ((3000 <=? code) && (code <=? 4999)).

Definition isOPEN (readyState : ReadyState) : bool :=
  match readyState with OPEN => true | _ => false end.

(** The handlers registered on the upstream socket ([minimaxWs]) and on
    the client socket ([clientWs]); each takes the [readyState] it reads
    from the other socket.  Messages are text. *)
Definition onUpstreamOpen : list Forward := [ClientSend proxy_connected].

Definition onUpstreamMessage (clientWs : ReadyState) (data : string) : list Forward :=
  if isOPEN clientWs then [ClientSend (Relayed data)] else [].

Definition onUpstreamError (clientWs : ReadyState) (message : string) : list Forward :=
  if isOPEN clientWs
  then [ClientSend (proxy_error (String.append "MiniMax connection error: " message))]
  else [].

Definition onUpstreamClose (clientWs : ReadyState) (code : Z) (reason : string)
    : list Forward :=
  if isOPEN clientWs then
    if isValidStatusCode code then [CloseClient code reason]
    else [Throw "First argument must be a valid error code number"]
  else [].

Definition onClientMessage (minimaxWs : ReadyState) (data : string) : list Forward :=
  if isOPEN minimaxWs then [UpstreamSend data] else [].

Definition onClientClose (minimaxWs : ReadyState) : list Forward :=
  if isOPEN minimaxWs then [CloseUpstream] else [].

Definition onClientError (minimaxWs : ReadyState) : list Forward :=
  if isOPEN minimaxWs then [CloseUpstream] else [].

(** The events of one relayed connection, each with the ready state the
    handler finds on the other socket. *)
Inductive Event : Type :=
| UpstreamOpen
| UpstreamMessage (clientWs : ReadyState) (data : string)
| UpstreamError (clientWs : ReadyState) (message : string)
| UpstreamClose (clientWs : ReadyState) (code : Z) (reason : string)
| ClientMessage (minimaxWs : ReadyState) (data : string)
| ClientClose (minimaxWs : ReadyState)
| ClientError (minimaxWs : ReadyState).

Definition handle (e : Event) : list Forward :=
  match e with
  | UpstreamOpen => onUpstreamOpen
  | UpstreamMessage clientWs data => onUpstreamMessage clientWs data
  | UpstreamError clientWs message => onUpstreamError clientWs message
  | UpstreamClose clientWs code reason => onUpstreamClose clientWs code reason
  | ClientMessage minimaxWs data => onClientMessage minimaxWs data
  | ClientClose minimaxWs => onClientClose minimaxWs
  | ClientError minimaxWs => onClientError minimaxWs
  end.

Definition run (events : list Event) : list Forward := flat_map handle events.

End Relay.

(* ===================================================================== *)
(** ** [App.tsx]: the turn-taking coordinator *)
(* ===================================================================== *)

Module App.

Import RealtimeService.

Inductive ConnectionStatus : Type := disconnected | connecting | connected | error_status.

Inductive Role : Type := user | assistant.

Record Message : Type := {
  role : Role;
  content : string;
  isAudio : bool
}.

(** The component's state ([useState]), its refs ([useRef]) and what it has
    handed to the platform.  [isRespondingRef] and [isListeningRef] are
    assigned from the state at every render, and the handlers of a render
    close over its state: with a render between two events, a handler reads
    the state the event finds.  [sent] are the events put on the socket,
    [started] the audio sources started, [playbackChecks] the armed
    [checkPlaybackDone] timeouts, [voiceInputWaits] the calls of
    [handleVoiceInput] waiting for their connection, each with the
    [isConversationMode] and [isResponding] its closure holds.  [apiKey] is
    the trimmed key. *)
Record t : Type := {
  connectionStatus : ConnectionStatus;
  isConversationMode : bool;
  isListening : bool;
  isResponding : bool;
  streamingText : string;
  error : option string;
  messages : list Message;
  volume : number;
  apiKey : string;
  streamingTextRef : string;
  isInterruptedRef : bool;
  isConversationModeRef : bool;
  hasSpeechRef : bool;
  realtimeRef : option RealtimeService.t;
  audioProcessorRef : AudioProcessor.t;
  sent : list ClientEvent;
  started : list AudioProcessor.Scheduled;
  playbackChecks : nat;
  voiceInputWaits : list (bool * bool)
}.

(** One setter per field, as [useState] gives them and as assignments to
    [ref.current] are. *)
Definition setConnectionStatus (v : ConnectionStatus) (s : t) : t :=
  let 'Build_t _ x2 x3 x4 x5 x6 x7 x8 x9 x10 x11 x12 x13 x14 x15 x16 x17 x18 x19 := s in
  Build_t v x2 x3 x4 x5 x6 x7 x8 x9 x10 x11 x12 x13 x14 x15 x16 x17 x18 x19.
Definition setIsConversationMode (v : bool) (s : t) : t :=
  let 'Build_t x1 _ x3 x4 x5 x6 x7 x8 x9 x10 x11 x12 x13 x14 x15 x16 x17 x18 x19 := s in
  Build_t x1 v x3 x4 x5 x6 x7 x8 x9 x10 x11 x12 x13 x14 x15 x16 x17 x18 x19.
Definition setIsListening (v : bool) (s : t) : t :=
  let 'Build_t x1 x2 _ x4 x5 x6 x7 x8 x9 x10 x11 x12 x13 x14 x15 x16 x17 x18 x19 := s in
  Build_t x1 x2 v x4 x5 x6 x7 x8 x9 x10 x11 x12 x13 x14 x15 x16 x17 x18 x19.
Definition setIsResponding (v : bool) (s : t) : t :=
  let 'Build_t x1 x2 x3 _ x5 x6 x7 x8 x9 x10 x11 x12 x13 x14 x15 x16 x17 x18 x19 := s in
  Build_t x1 x2 x3 v x5 x6 x7 x8 x9 x10 x11 x12 x13 x14 x15 x16 x17 x18 x19.
Definition setStreamingText (v : string) (s : t) : t :=
  let 'Build_t x1 x2 x3 x4 _ x6 x7 x8 x9 x10 x11 x12 x13 x14 x15 x16 x17 x18 x19 := s in
  Build_t x1 x2 x3 x4 v x6 x7 x8 x9 x10 x11 x12 x13 x14 x15 x16 x17 x18 x19.
Definition setError (v : option string) (s : t) : t :=
  let 'Build_t x1 x2 x3 x4 x5 _ x7 x8 x9 x10 x11 x12 x13 x14 x15 x16 x17 x18 x19 := s in
  Build_t x1 x2 x3 x4 x5 v x7 x8 x9 x10 x11 x12 x13 x14 x15 x16 x17 x18 x19.
Definition setMessages (v : list Message) (s : t) : t :=
  let 'Build_t x1 x2 x3 x4 x5 x6 _ x8 x9 x10 x11 x12 x13 x14 x15 x16 x17 x18 x19 := s in
  Build_t x1 x2 x3 x4 x5 x6 v x8 x9 x10 x11 x12 x13 x14 x15 x16 x17 x18 x19.
Definition setVolume (v : number) (s : t) : t :=
  let 'Build_t x1 x2 x3 x4 x5 x6 x7 _ x9 x10 x11 x12 x13 x14 x15 x16 x17 x18 x19 := s in
  Build_t x1 x2 x3 x4 x5 x6 x7 v x9 x10 x11 x12 x13 x14 x15 x16 x17 x18 x19.
Definition setStreamingTextRef (v : string) (s : t) : t :=
  let 'Build_t x1 x2 x3 x4 x5 x6 x7 x8 x9 _ x11 x12 x13 x14 x15 x16 x17 x18 x19 := s in
  Build_t x1 x2 x3 x4 x5 x6 x7 x8 x9 v x11 x12 x13 x14 x15 x16 x17 x18 x19.
Definition setIsInterruptedRef (v : bool) (s : t) : t :=
  let 'Build_t x1 x2 x3 x4 x5 x6 x7 x8 x9 x10 _ x12 x13 x14 x15 x16 x17 x18 x19 := s in
  Build_t x1 x2 x3 x4 x5 x6 x7 x8 x9 x10 v x12 x13 x14 x15 x16 x17 x18 x19.
Definition setIsConversationModeRef (v : bool) (s : t) : t :=
  let 'Build_t x1 x2 x3 x4 x5 x6 x7 x8 x9 x10 x11 _ x13 x14 x15 x16 x17 x18 x19 := s in
  Build_t x1 x2 x3 x4 x5 x6 x7 x8 x9 x10 x11 v x13 x14 x15 x16 x17 x18 x19.
Definition setHasSpeechRef (v : bool) (s : t) : t :=
  let 'Build_t x1 x2 x3 x4 x5 x6 x7 x8 x9 x10 x11 x12 _ x14 x15 x16 x17 x18 x19 := s in
  Build_t x1 x2 x3 x4 x5 x6 x7 x8 x9 x10 x11 x12 v x14 x15 x16 x17 x18 x19.
Definition setRealtimeRef (v : option RealtimeService.t) (s : t) : t :=
  let 'Build_t x1 x2 x3 x4 x5 x6 x7 x8 x9 x10 x11 x12 x13 _ x15 x16 x17 x18 x19 := s in
  Build_t x1 x2 x3 x4 x5 x6 x7 x8 x9 x10 x11 x12 x13 v x15 x16 x17 x18 x19.
Definition setAudioProcessorRef (v : AudioProcessor.t) (s : t) : t :=
  let 'Build_t x1 x2 x3 x4 x5 x6 x7 x8 x9 x10 x11 x12 x13 x14 _ x16 x17 x18 x19 := s in
  Build_t x1 x2 x3 x4 x5 x6 x7 x8 x9 x10 x11 x12 x13 x14 v x16 x17 x18 x19.
Definition setSent (v : list ClientEvent) (s : t) : t :=
  let 'Build_t x1 x2 x3 x4 x5 x6 x7 x8 x9 x10 x11 x12 x13 x14 x15 _ x17 x18 x19 := s in
  Build_t x1 x2 x3 x4 x5 x6 x7 x8 x9 x10 x11 x12 x13 x14 x15 v x17 x18 x19.
Definition setStarted (v : list AudioProcessor.Scheduled) (s : t) : t :=
  let 'Build_t x1 x2 x3 x4 x5 x6 x7 x8 x9 x10 x11 x12 x13 x14 x15 x16 _ x18 x19 := s in
  Build_t x1 x2 x3 x4 x5 x6 x7 x8 x9 x10 x11 x12 x13 x14 x15 x16 v x18 x19.
Definition setPlaybackChecks (v : nat) (s : t) : t :=
  let 'Build_t x1 x2 x3 x4 x5 x6 x7 x8 x9 x10 x11 x12 x13 x14 x15 x16 x17 _ x19 := s in
  Build_t x1 x2 x3 x4 x5 x6 x7 x8 x9 x10 x11 x12 x13 x14 x15 x16 x17 v x19.
Definition setVoiceInputWaits (v : list (bool * bool)) (s : t) : t :=
  let 'Build_t x1 x2 x3 x4 x5 x6 x7 x8 x9 x10 x11 x12 x13 x14 x15 x16 x17 x18 _ := s in
  Build_t x1 x2 x3 x4 x5 x6 x7 x8 x9 x10 x11 x12 x13 x14 x15 x16 x17 x18 v.

(** The component after its mount effect: an [AudioProcessor], no service. *)
Definition mount (key : string) : t := {|
  connectionStatus := disconnected;
  isConversationMode := false;
  isListening := false;
  isResponding := false;
  streamingText := "";
  error := None;
  messages := [];
  volume := Num 0;
  apiKey := key;
  streamingTextRef := "";
  isInterruptedRef := false;
  isConversationModeRef := false;
  hasSpeechRef := false;
  realtimeRef := None;
  audioProcessorRef := AudioProcessor.new;
  sent := [];
  started := [];
  playbackChecks := O;
  voiceInputWaits := []
|}.

(** What the environment decides for a handler: the answer of
    [getUserMedia] and the output clock. *)
Record Environment : Type := {
  media : AudioProcessor.MediaOutcome;
  clock : Q
}.

Section Handlers.
Context {platform : Base64}.

Definition addMessage (r : Role) (text : string) (audio : bool) (s : t) : t :=
  setMessages (s.(messages) ++ [{| role := r; content := text; isAudio := audio |}]) s.

(** [realtimeRef.current?.isConnectedState()] as a condition. *)
Definition connectedState (s : t) : bool :=
  match s.(realtimeRef) with
  | Some rt => isConnectedState rt
  | None => false
  end.

(** [realtimeRef.current?.m()] for a method [m] that only sends. *)
Definition call (m : RealtimeService.t -> list Effect) (s : t) : t :=
  match s.(realtimeRef) with
  | Some rt =>
      setSent
        (s.(sent)
         ++ flat_map (fun effect => match effect with Send event => [event] | _ => [] end)
              (m rt)) s
  | None => s
  end.

(** [audioProcessorRef.current?.m()]. *)
Definition withAudio (m : AudioProcessor.t -> AudioProcessor.t) (s : t) : t :=
  setAudioProcessorRef (m s.(audioProcessorRef)) s.

(** [startListening]; the [await] of [startCapture] is taken in one step. *)
Definition startListening (env : Environment) (s : t) : t :=
  if negb (connectedState s) then s
  else
    let s := setHasSpeechRef false s in
    let s := withAudio AudioProcessor.resetVADState s in
    match AudioProcessor.startCapture env.(media) s.(audioProcessorRef) with
    | (audio, inl _) => setIsListening true (setAudioProcessorRef audio s)
    | (audio, inr message) => setError (Some message) (setAudioProcessorRef audio s)
    end.

Definition stopListening (s : t) : t :=
  setVolume (Num 0) (setIsListening false (withAudio AudioProcessor.stopCapture s)).

Definition handleSpeechEnd (s : t) : t :=
  if negb s.(isConversationModeRef) || negb s.(hasSpeechRef) then s
  else if s.(isResponding) then s
  else
    let s := setHasSpeechRef false s in
    let s := withAudio AudioProcessor.resetVADState s in
    let s := call commitAudio s in
    call createResponse s.

Definition handleSpeechStart (s : t) : t :=
  let s' := setHasSpeechRef true s in
  if s.(isResponding) then
    let s' := setIsInterruptedRef true s' in
    let s' := withAudio AudioProcessor.stopPlayback s' in
    let s' := call interrupt s' in
    let s' := call clearAudioBuffer s' in
    let s' := setIsResponding false s' in
    let s' := setStreamingText "" s' in
    let s' := setStreamingTextRef "" s' in
    setHasSpeechRef true s'
  else s'.

(** The body of [checkPlaybackDone]; in its [else] branch the timeout is
    armed again. *)
Definition checkPlaybackDone (env : Environment) (s : t) : t :=
  if negb (AudioProcessor.isCurrentlyPlaying s.(audioProcessorRef)) then
    let s' := if negb s.(isInterruptedRef) then setIsResponding false s else s in
    let s' := setIsInterruptedRef false s' in
    if s'.(isConversationModeRef) then
      let s' := setHasSpeechRef false s' in
      let s' := withAudio AudioProcessor.resetVADState s' in
      if negb s.(isListening) then startListening env s' else s'
    else s'
  else setPlaybackChecks (S s.(playbackChecks)) s.

(** The callbacks registered by [setupRealtimeCallbacks]; the two
    transcript callbacks are not registered. *)
Definition callback (env : Environment) (c : Callback) (s : t) : t :=
  match c with
  | onConnected => setError None (setConnectionStatus connected s)
  | onDisconnected =>
      let s := setConnectionStatus disconnected s in
      let s := setIsConversationModeRef false s in
      let s := setIsConversationMode false s in
      let s := setIsListening false s in
      setIsResponding false s
  | onUserTranscript transcript => addMessage user transcript true s
  | onResponseStart =>
      let s := setIsInterruptedRef false s in
      let s := setIsResponding true s in
      let s := setStreamingText "" s in
      setStreamingTextRef "" s
  | onTextDelta delta =>
      if s.(isInterruptedRef) then s
      else
        let s := setIsResponding true s in
        let s := setStreamingTextRef (String.append s.(streamingTextRef) delta) s in
        setStreamingText s.(streamingTextRef) s
  | onTextDone text =>
      if s.(isInterruptedRef) then s
      else
        let s := addMessage assistant text false s in
        let s := setStreamingText "" s in
        setStreamingTextRef "" s
  | onAudioDelta audioBase64 =>
      if s.(isInterruptedRef) then s
      else
        let s := setIsResponding true s in
        let (audio, sources) :=
          AudioProcessor.playAudioChunk audioBase64 env.(clock) s.(audioProcessorRef) in
        setStarted (s.(started) ++ sources) (setAudioProcessorRef audio s)
  | onAudioDone => setPlaybackChecks (S s.(playbackChecks)) s
  | onAudioTranscriptDelta _ | onAudioTranscriptDone _ => s
  | onResponseDone => s
  | onError message =>
      setIsResponding false (setError (Some (String.append "API 错误: " message)) s)
  end.

(** What a method of the service hands back, carried out in the component:
    callbacks run, events go on the wire, and a rejection of the promise
    [handleConnect] awaits ends that handler in its [catch]. *)
Definition perform (env : Environment) (effect : Effect) (s : t) : t :=
  match effect with
  | Invoke c => callback env c s
  | Send event => setSent (s.(sent) ++ [event]) s
  | Reject Owner message =>
      setError (Some (String.append "连接失败: " message))
        (setConnectionStatus error_status s)
  | Reject Timeout _ | Resolve _ | NewWebSocket | CloseWebSocket
  | SetTimeoutConnect _ => s
  end.

Definition performAll (env : Environment) (effects : list Effect) (s : t) : t :=
  fold_left (fun s effect => perform env effect s) effects s.

(** A call, a socket event or a timer of the service. *)
Definition service (env : Environment) (e : RealtimeService.Event) (s : t) : t :=
  match s.(realtimeRef) with
  | Some rt =>
      let (rt', effects) := RealtimeService.step e rt in
      performAll env effects (setRealtimeRef (Some rt') s)
  | None => s
  end.

(** [handleConnect] up to its [await]; what follows the [await] is
    [perform]'s.  The service is built with the default relay address and
    the encoded key, a URL for which the socket is constructed.  The new
    service takes the place of the one in [realtimeRef], whose events are
    then followed no further. *)
Definition handleConnect (env : Environment) (s : t) : t :=
  match s.(connectionStatus) with
  | connecting => s
  | _ =>
      if String.eqb s.(apiKey) "" then setError (Some "请输入 API Key") s
      else
        let s := setConnectionStatus connecting s in
        let s := setError None s in
        let s := setRealtimeRef (Some (RealtimeService.new None)) s in
        service env CallConnect s
  end.

Definition handleDisconnect (env : Environment) (s : t) : t :=
  let s := setIsConversationModeRef false s in
  let s := setIsConversationMode false s in
  let s := stopListening s in
  let s := service env CallDisconnect s in
  let s := withAudio AudioProcessor.stopPlayback s in
  let s := setConnectionStatus disconnected s in
  setIsResponding false s.

(** [handleVoiceInput] from the test of [isConversationMode] on.  The
    handler reads [isConversationMode] and [isResponding] from its closure:
    they are those of the state in which the button was clicked. *)
Definition toggleConversationMode (isConversationMode isResponding : bool)
    (env : Environment) (s : t) : t :=
  if isConversationMode then
    let s' := setIsConversationModeRef false s in
    let s' := setIsConversationMode false s' in
    let s' := stopListening s' in
    let s' := call clearAudioBuffer s' in
    if isResponding then
      let s' := setIsInterruptedRef true s' in
      let s' := withAudio AudioProcessor.stopPlayback s' in
      let s' := call interrupt s' in
      let s' := setIsResponding false s' in
      let s' := setStreamingText "" s' in
      setStreamingTextRef "" s'
    else s'
  else
    let s' :=
      if isResponding then
        let s' := setIsInterruptedRef true s in
        let s' := withAudio AudioProcessor.stopPlayback s' in
        let s' := call interrupt s' in
        let s' := setIsResponding false s' in
        let s' := setStreamingText "" s' in
        setStreamingTextRef "" s'
      else s in
    let s' := setIsConversationModeRef true s' in
    let s' := setIsConversationMode true s' in
    let s' := startListening env s' in
    setError None s'.

(** [handleVoiceInput]: on a session that is not connected it connects and
    goes on after a wait of 500 ms ([resumeVoiceInput]). *)
Definition handleVoiceInput (env : Environment) (s : t) : t :=
  if negb (connectedState s) then
    setVoiceInputWaits
      (s.(voiceInputWaits) ++ [(s.(isConversationMode), s.(isResponding))])
      (handleConnect env s)
  else toggleConversationMode s.(isConversationMode) s.(isResponding) env s.

(** What follows the wait, for the values the closure holds. *)
Definition resumeVoiceInput (captured : bool * bool) (env : Environment) (s : t) : t :=
  if negb (connectedState s) then s
  else toggleConversationMode (fst captured) (snd captured) env s.

Definition handleInterrupt (s : t) : t :=
  let s := setIsInterruptedRef true s in
  let s := withAudio AudioProcessor.stopPlayback s in
  let s := call interrupt s in
  let s := setStreamingText "" s in
  let s := setStreamingTextRef "" s in
  setIsResponding false s.

(** The callbacks given to [setVADCallbacks]. *)
Definition vadCallback (signal : AudioProcessor.VADSignal) (s : t) : t :=
  match signal with
  | AudioProcessor.onSpeechStart => handleSpeechStart s
  | AudioProcessor.onSpeechEnd => handleSpeechEnd s
  | AudioProcessor.onVolumeChange vol => setVolume vol s
  end.

Definition vadCallbacks (signals : list AudioProcessor.VADSignal) (s : t) : t :=
  fold_left (fun s signal => vadCallback signal s) signals s.

(** [processorNode.onaudioprocess] for a frame with the given samples and
    root mean square; [onAudioData] is [appendAudio]. *)
Definition onaudioprocess (samples : AudioProcessor.Float32Array) (rms : number)
    (now : Z) (s : t) : t :=
  let (audio, signals) := AudioProcessor.processVAD rms now s.(audioProcessorRef) in
  let s := vadCallbacks signals (setAudioProcessorRef audio s) in
  call (appendAudio (AudioProcessor.float32ToBase64PCM16 samples)) s.

Definition onSilenceTimer (now : Z) (s : t) : t :=
  let (audio, signals) := AudioProcessor.silenceTimeout now s.(audioProcessorRef) in
  vadCallbacks signals (setAudioProcessorRef audio s).

Definition onPlaybackEnded (env : Environment) (s : t) : t :=
  let (audio, sources) := AudioProcessor.onended env.(clock) s.(audioProcessorRef) in
  setStarted (s.(started) ++ sources) (setAudioProcessorRef audio s).

End Handlers.

(** Everything that can happen to the component. *)
Inductive Event : Type :=
| Service (e : RealtimeService.Event)
| AudioFrame (samples : AudioProcessor.Float32Array) (rms : number) (now : Z)
| SilenceTimer (now : Z)
| PlaybackEnded
| PlaybackCheck
| VoiceInputWait
| ClickConnect
| ClickDisconnect
| ClickVoiceInput
| ClickInterrupt.

Section Run.
Context {platform : Base64}.

(** One event in environment [env].  A frame arrives only while capturing
    and a timeout fires only while armed; [PlaybackEnded] is the [ended]
    event of a source, also of one that [stopPlayback] stopped. *)
Definition step (env : Environment) (e : Event) (s : t) : t :=
  match e with
  | Service e' => service env e' s
  | AudioFrame samples rms now =>
      if s.(audioProcessorRef).(AudioProcessor.mediaStream)
      then onaudioprocess samples rms now s
      else s
  | SilenceTimer now =>
      match s.(audioProcessorRef).(AudioProcessor.silenceTimer) with
      | Some _ => onSilenceTimer now s
      | None => s
      end
  | PlaybackEnded => onPlaybackEnded env s
  | PlaybackCheck =>
      match s.(playbackChecks) with
      | S checks => checkPlaybackDone env (setPlaybackChecks checks s)
      | O => s
      end
  | VoiceInputWait =>
      match s.(voiceInputWaits) with
      | captured :: waits => resumeVoiceInput captured env (setVoiceInputWaits waits s)
      | [] => s
      end
  | ClickConnect => handleConnect env s
  | ClickDisconnect => handleDisconnect env s
  | ClickVoiceInput => handleVoiceInput env s
  | ClickInterrupt => handleInterrupt s
  end.

Definition run (events : list (Environment * Event)) (s : t) : t :=
  fold_left (fun s '(env, e) => step env e s) events s.

End Run.

End App.

(* ===================================================================== *)
(** ** Vocabulary of the properties *)
(* ===================================================================== *)

Module VADSpec.
Import AudioProcessor.



(** Every signal emitted in a run of the detector, in order. *)
Fixpoint signals (events : list VADEvent) (this : t) : list VADSignal :=
  match events with
  | [] => []
  | e :: rest =>
      let (this', emitted) := vadStep e this in emitted ++ signals rest this'
  end.

(** Speech starts and speech ends take turns, a start coming first when
    the detector is not [speaking]. *)
Fixpoint alternating (speaking : bool) (emitted : list VADSignal) : Prop :=
  match emitted with
  | [] => True
  | onSpeechStart :: rest => speaking = false /\ alternating true rest
  | onSpeechEnd :: rest => speaking = true /\ alternating false rest
  | onVolumeChange _ :: rest => alternating speaking rest
  end.

Definition isReset (e : VADEvent) : bool :=
  match e with Reset => true | _ => false end.


End VADSpec.

Module PlaybackSpec.
Import AudioProcessor.
Local Open Scope Q_scope.

Definition endTime (s : Scheduled) : Q := s.(startTime) + s.(duration).

(** Every source starts at the later of the clock and the end of the source
    before it ([previousEnd] for the first one). *)
Fixpoint chained (previousEnd : Q) (sources : list Scheduled) : Prop :=
  match sources with
  | [] => True
  | s :: rest =>
      s.(startTime) = Qmax s.(currentTime) previousEnd /\ chained (endTime s) rest
  end.

(** The end of the last source ([previousEnd] when there is none). *)
Definition lastEnd (previousEnd : Q) (sources : list Scheduled) : Q :=
  fold_left (fun _ s => endTime s) sources previousEnd.

(** No source starts before the one before it has ended. *)
Fixpoint no_overlap (previousEnd : Q) (sources : list Scheduled) : Prop :=
  match sources with
  | [] => True
  | s :: rest => previousEnd <= s.(startTime) /\ no_overlap (endTime s) rest
  end.

Section WithPlatform.
Context {platform : Base64}.

(** The chunks a run adds to the queue, in order of arrival: those of
    the [Enqueue] events whose data decodes. *)
Definition arrivals (events : list PlaybackEvent) : list Float32Array :=
  flat_map (fun e =>
    match e with
    | Enqueue base64 _ =>
        match base64PCM16ToFloat32 base64 with
        | Some float32Data => [float32Data]
        | None => []
        end
    | Ended _ => []
    end) events.

End WithPlatform.

(** The length of a chunk in seconds. *)
Definition chunkDuration (float32Data : Float32Array) : Q :=
  (inject_Z (Z.of_nat (List.length float32Data)) / SAMPLE_RATE)%Q.

(** A chunk with at least one sample. *)
Definition playable (float32Data : Float32Array) : bool :=
  negb (List.length float32Data =? 0)%nat.

(** A chunk waits in the queue only while the player plays. *)
Definition settled (this : t) : Prop :=
  this.(playbackQueue) <> [] -> this.(audioContext) = true /\ this.(isPlaying) = true.

Definition isEnqueue (e : PlaybackEvent) : bool :=
  match e with Enqueue _ _ => true | Ended _ => false end.

End PlaybackSpec.

Module SessionSpec.
Import RealtimeService.

(** The events that make the session ready: the relay's acknowledgement
    and, without a relay, the opening of the socket. *)
Definition ready (proxy : bool) (e : Event) : bool :=
  match e with
  | SocketMessage (Some proxy_connected) => true
  | SocketOpen => negb proxy
  | _ => false
  end.

Definition isClose (e : Event) : bool :=
  match e with SocketClose => true | _ => false end.

Definition isDisconnect (e : Event) : bool :=
  match e with CallDisconnect => true | _ => false end.

(** A run with neither a [disconnect()] call nor a readiness event. *)
Definition unexpected (proxy : bool) (events : list Event) : bool :=
  forallb (fun e => negb (isDisconnect e) && negb (ready proxy e)) events.

(** The number of socket closes of a run. *)
Definition closes (events : list Event) : Z :=
  Z.of_nat (List.length (List.filter isClose events)).

(** The delays of the reconnect timeouts armed. *)
Definition reconnectDelays (effects : list Effect) : list Z :=
  flat_map (fun effect =>
    match effect with SetTimeoutConnect delay => [delay] | _ => [] end) effects.

(** The keep-alive events sent. *)
Definition keepAlives (effects : list Effect) : list Effect :=
  List.filter (fun effect =>
    match effect with Send task_continue => true | _ => false end) effects.

(** The relay's acknowledgement. *)
Definition isAcknowledgement (e : Event) : bool :=
  match e with SocketMessage (Some proxy_connected) => true | _ => false end.

(** A run in which no acknowledgement of a relay arrives. *)
Definition unacknowledged (events : list Event) : bool :=
  forallb (fun e => negb (isAcknowledgement e)) events.

(** The events put on the socket. *)
Definition sends (effects : list Effect) : list ClientEvent :=
  flat_map (fun effect => match effect with Send event => [event] | _ => [] end) effects.

Definition isOpen (e : Event) : bool :=
  match e with SocketOpen => true | _ => false end.

End SessionSpec.

Module CoordinatorSpec.

(** The interruption flag is set. *)
Definition flagged (s : App.t) : Prop := s.(App.isInterruptedRef) = true.

(** The message that carries a server event. *)
Definition delivered (event : RealtimeService.ServerEvent) : App.Event :=
  App.Service (RealtimeService.SocketMessage (Some event)).

Import RealtimeService App.

(** The mirror of the conversation-mode state agrees with it, and the
    session is shown as listening only with an open microphone. *)
Definition coherent (s : App.t) : Prop :=
  s.(isConversationModeRef) = s.(isConversationMode) /\
  (s.(isListening) = true ->
   s.(audioProcessorRef).(AudioProcessor.mediaStream) = true).

(** A component with no API key that has not touched the network or the
    microphone. *)
Definition unused (s : App.t) : Prop :=
  s.(apiKey) = "" /\ s.(realtimeRef) = None /\ s.(sent) = [] /\
  s.(connectionStatus) = disconnected /\ s.(isListening) = false /\
  s.(audioProcessorRef).(AudioProcessor.mediaStream) = false.

(** What goes on the wire when [events] are handed to [send]. *)
Definition wire (s : App.t) (events : list ClientEvent) : list ClientEvent :=
  match s.(realtimeRef) with
  | Some rt => match rt.(ws) with Some OPEN => events | _ => [] end
  | None => []
  end.

(** The player is stopped: nothing queued, nothing playing, the schedule
    reset. *)
Definition silent (audio : AudioProcessor.t) : Prop :=
  audio.(AudioProcessor.playbackQueue) = [] /\
  audio.(AudioProcessor.isPlaying) = false /\
  audio.(AudioProcessor.nextPlayTime) = 0%Q /\
  audio.(AudioProcessor.currentSource) = None.

End CoordinatorSpec.

Module CodecSpec.
Local Open Scope Q_scope.

(** A value a [Float32Array] holds: a single, an infinity or NaN. *)
Definition single (x : number) : Prop := Math.fround x = x.

(** The 16-bit sample [n] over 32767, and that quotient as the decoder
    stores it. *)
Definition quotient (n : Z) : Q := inject_Z n / 0x7fff.
Definition decoded (n : Z) : Q :=
  IEEE754.nearest 24 (-126) (IEEE754.nearest 53 (-1022) (quotient n)).

End CodecSpec.

Module SampleSpec.
Local Open Scope Q_scope.

Definition finite (x : number) : Prop := exists q, x = Num q.

(** Two finite samples of the same value. *)
Definition same (x y : number) : Prop :=
  exists a b, x = Num a /\ y = Num b /\ a == b.

End SampleSpec.

Module RelaySpec.
Import Relay.

(** The data written to the upstream socket, and the messages of the
    endpoint written to the client. *)
Definition toUpstream (actions : list Forward) : list string :=
  flat_map (fun a => match a with UpstreamSend data => [data] | _ => [] end) actions.

Definition relayed (actions : list Forward) : list string :=
  flat_map (fun a =>
    match a with ClientSend (Relayed data) => [data] | _ => [] end) actions.

(** The client messages that find the upstream socket open, and the
    endpoint's messages that find the client socket open. *)
Definition fromClient (events : list Event) : list string :=
  flat_map (fun e =>
    match e with ClientMessage OPEN data => [data] | _ => [] end) events.

Definition fromUpstream (events : list Event) : list string :=
  flat_map (fun e =>
    match e with UpstreamMessage OPEN data => [data] | _ => [] end) events.

End RelaySpec.


(* ===================================================================== *)
(** * Part II: lemmas and theorems *)
(* ===================================================================== *)

Ltac Zify.zify_post_hook ::= Z.div_mod_to_equations.

(** ** Base64 *)

Module Base64Facts.
Import ForgivingBase64.

Lemma list_ind3 {A} (P : list A -> Prop) :
  P [] -> (forall a, P [a]) -> (forall a b, P [a; b]) ->
  (forall a b c l, P l -> P (a :: b :: c :: l)) -> forall l, P l.
Proof.
  intros H0 H1 H2 H3.
  assert (forall l, P l /\ (forall a, P (a :: l)) /\ (forall a b, P (a :: b :: l))) as H.
  { induction l as [|x l (IH0 & IH1 & IH2)]; [auto|].
    split; [apply IH1|]. split; [intros; apply IH2|].
    intros a b. apply H3, IH0. }
  intros l. apply H.
Qed.

Lemma sextet_ok_all n : 0 <= n < 64 -> sextet_ok n = true.
Proof.
  intros Hn.
  assert (forallb sextet_ok (seqZ 0 64) = true) as Hall by (vm_compute; reflexivity).
  rewrite forallb_forall in Hall. apply Hall.
  apply list_elem_of_In, elem_of_seqZ. lia.
Qed.

Lemma index_alphabet n : 0 <= n < 64 -> index (alphabet n) = Some n.
Proof.
  intros Hn. pose proof (sextet_ok_all n Hn) as H. unfold sextet_ok in H.
  apply andb_prop in H as [H _]. apply andb_prop in H as [H _].
  destruct (index (alphabet n)) as [m|]; [|discriminate].
  apply Z.eqb_eq in H. congruence.
Qed.

Lemma alphabet_not_pad n : 0 <= n < 64 -> Ascii.eqb (alphabet n) pad = false.
Proof.
  intros Hn. pose proof (sextet_ok_all n Hn) as H. unfold sextet_ok in H.
  apply andb_prop in H as [H _]. apply andb_prop in H as [_ H].
  now apply negb_true_iff in H.
Qed.

Lemma alphabet_not_whitespace n : 0 <= n < 64 -> is_whitespace (alphabet n) = false.
Proof.
  intros Hn. pose proof (sextet_ok_all n Hn) as H. unfold sextet_ok in H.
  apply andb_prop in H as [_ H]. now apply negb_true_iff in H.
Qed.

Lemma encode_nil_inv bytes : encode bytes = [] -> bytes = [].
Proof. destruct bytes as [|a [|b [|c rest]]]; simpl; congruence. Qed.

Lemma decode_group c1 c2 c3 c4 c5 tail :
  decode (c1 :: c2 :: c3 :: c4 :: c5 :: tail) =
  match decode3 c1 c2 c3 c4, decode (c5 :: tail) with
  | Some group, Some bytes => Some (group ++ bytes)
  | _, _ => None
  end.
Proof. reflexivity. Qed.

Ltac sextets :=
  repeat match goal with
  | |- context [index (alphabet ?n)] =>
      rewrite (index_alphabet n) by (unfold is_byte in *; lia)
  | |- context [Ascii.eqb (alphabet ?n) pad] =>
      rewrite (alphabet_not_pad n) by (unfold is_byte in *; lia)
  | |- context [is_whitespace (alphabet ?n)] =>
      rewrite (alphabet_not_whitespace n) by (unfold is_byte in *; lia)
  end.

Lemma decode_encode_bytes bytes : Forall is_byte bytes -> decode (encode bytes) = Some bytes.
Proof.
  induction bytes as [|a|a b|a b c rest IH] using list_ind3; intros Hb.
  - reflexivity.
  - inversion_clear Hb as [|? ? Ha _]. cbn -[Z.div Z.modulo Z.mul Z.add].
    unfold decode1. sextets. f_equal. f_equal. unfold is_byte in *. lia.
  - inversion_clear Hb as [|? ? Ha Hb']. inversion_clear Hb' as [|? ? Hb _].
    cbn -[Z.div Z.modulo Z.mul Z.add]. sextets. cbn -[Z.div Z.modulo Z.mul Z.add].
    unfold decode2. sextets. unfold is_byte in *.
    f_equal. f_equal; [lia|]. f_equal. lia.
  - inversion_clear Hb as [|? ? Ha Hb']. inversion_clear Hb' as [|? ? Hb Hc'].
    inversion_clear Hc' as [|? ? Hc Hrest]. specialize (IH Hrest).
    change (encode (a :: b :: c :: rest)) with
      (alphabet (a / 4) :: alphabet (a mod 4 * 16 + b / 16)
       :: alphabet (b mod 16 * 4 + c / 64) :: alphabet (c mod 64) :: encode rest).
    assert (decode3 (alphabet (a / 4)) (alphabet (a mod 4 * 16 + b / 16))
              (alphabet (b mod 16 * 4 + c / 64)) (alphabet (c mod 64)) = Some [a; b; c]) as H3.
    { unfold decode3. sextets. unfold is_byte in *.
      f_equal. f_equal; [lia|]. f_equal; [lia|]. f_equal. lia. }
    destruct (encode rest) as [|c5 tail] eqn:E.
    + apply encode_nil_inv in E. subst rest.
      cbn [decode]. sextets. exact H3.
    + rewrite decode_group, H3, IH. reflexivity.
Qed.

Lemma encode_no_whitespace bytes :
  Forall is_byte bytes -> List.filter (fun c => negb (is_whitespace c)) (encode bytes) = encode bytes.
Proof.
  induction bytes as [|a|a b|a b c rest IH] using list_ind3; intros Hb.
  - reflexivity.
  - inversion_clear Hb as [|? ? Ha _]. cbn -[Z.div Z.modulo Z.mul Z.add is_whitespace].
    sextets. reflexivity.
  - inversion_clear Hb as [|? ? Ha Hb']. inversion_clear Hb' as [|? ? Hb _].
    cbn -[Z.div Z.modulo Z.mul Z.add is_whitespace]. sextets. reflexivity.
  - inversion_clear Hb as [|? ? Ha Hb']. inversion_clear Hb' as [|? ? Hb Hc'].
    inversion_clear Hc' as [|? ? Hc Hrest]. specialize (IH Hrest).
    change (encode (a :: b :: c :: rest)) with
      (alphabet (a / 4) :: alphabet (a mod 4 * 16 + b / 16)
       :: alphabet (b mod 16 * 4 + c / 64) :: alphabet (c mod 64) :: encode rest).
    cbn [List.filter]. sextets. cbn [negb]. rewrite IH. reflexivity.
Qed.

Lemma bytes_are_bytes (bs : list byte) : Forall is_byte (map byte.unsigned bs).
Proof.
  induction bs as [|b bs IH]; constructor; [|exact IH].
  unfold is_byte. pose proof (byte.unsigned_range b). lia.
Qed.

Lemma of_Z_unsigned_all (bs : list byte) : map byte.of_Z (map byte.unsigned bs) = bs.
Proof.
  induction bs as [|b bs IH]; [reflexivity|]. cbn [map]. rewrite IH.
  f_equal. apply byte.of_Z_unsigned.
Qed.

Lemma forgiving_atob_btoa binary : atob (btoa binary) = Some binary.
Proof.
  unfold atob, btoa. rewrite list_ascii_of_string_of_list_ascii.
  rewrite encode_no_whitespace by apply bytes_are_bytes.
  rewrite decode_encode_bytes by apply bytes_are_bytes.
  rewrite of_Z_unsigned_all, string_of_list_byte_of_string. reflexivity.
Qed.

End Base64Facts.

(** The browser's functions implement the interface. *)
#[export] Instance forgivingBase64 : Base64 := {|
  btoa := ForgivingBase64.btoa;
  atob := ForgivingBase64.atob;
  atob_btoa := Base64Facts.forgiving_atob_btoa
|}.

(** ** Numbers and the codec *)

Module NumberFacts.
Import Number.
Local Open Scope Q_scope.

Lemma lt_Num x y : lt (Num x) (Num y) = true <-> x < y.
Proof. unfold lt. destruct (Qlt_le_dec x y); split; intros; try easy. lra. Qed.

Lemma lt_Num_false x y : lt (Num x) (Num y) = false <-> y <= x.
Proof. unfold lt. destruct (Qlt_le_dec x y); split; intros; try easy. lra. Qed.

Lemma truncate_nonneg q : 0 <= q -> truncate q = Qfloor q.
Proof.
  destruct q as [n d]. unfold Qle, truncate, Qfloor. cbn. intros H.
  apply Z.quot_div_nonneg; lia.
Qed.

Lemma truncate_nonpos q : q <= 0 -> truncate q = Qceiling q.
Proof.
  destruct q as [n d]. unfold Qle, truncate, Qceiling, Qfloor. cbn. intros H.
  rewrite <- (Z.opp_involutive n) at 1. rewrite Z.quot_opp_l by lia.
  rewrite Z.quot_div_nonneg by lia. reflexivity.
Qed.

Lemma truncate_nonneg_bounds q :
  0 <= q -> (0 <= truncate q)%Z /\ inject_Z (truncate q) <= q < inject_Z (truncate q) + 1.
Proof.
  intros H. rewrite truncate_nonneg by exact H.
  pose proof (Qfloor_le q). pose proof (Qlt_floor q) as Hlt.
  rewrite inject_Z_plus in Hlt. change (inject_Z 1) with 1 in Hlt.
  split; [|lra].
  change 0%Z with (Qfloor 0). now apply Qfloor_resp_le.
Qed.

Lemma truncate_nonpos_bounds q :
  q <= 0 -> (truncate q <= 0)%Z /\ inject_Z (truncate q) - 1 < q <= inject_Z (truncate q).
Proof.
  intros H. rewrite truncate_nonpos by exact H.
  pose proof (Qle_ceiling q). pose proof (Qceiling_lt q) as Hlt.
  unfold Z.sub in Hlt. rewrite inject_Z_plus, inject_Z_opp in Hlt.
  change (inject_Z 1) with 1 in Hlt.
  split; [|lra].
  change 0%Z with (Qceiling 0). now apply Qceiling_resp_le.
Qed.

Lemma inject_Z_le_iff a b : inject_Z a <= inject_Z b <-> (a <= b)%Z.
Proof. rewrite <- Zle_Qle. tauto. Qed.

Lemma inject_Z_lt_iff a b : inject_Z a < inject_Z b <-> (a < b)%Z.
Proof. rewrite <- Zlt_Qlt. tauto. Qed.

(** A truncation is pinned down by a unit interval on the side of zero. *)
Lemma truncate_unique_nonneg q n :
  (0 <= n)%Z -> inject_Z n <= q < inject_Z n + 1 -> truncate q = n.
Proof.
  intros Hn [Hlo Hhi].
  assert (inject_Z 0 <= inject_Z n) as Hn' by (apply inject_Z_le_iff; exact Hn).
  change (inject_Z 0) with 0 in Hn'.
  assert (0 <= q) as Hq by lra.
  destruct (truncate_nonneg_bounds q Hq) as [_ [H1 H2]].
  assert (inject_Z (truncate q) < inject_Z (n + 1)) as A by (rewrite inject_Z_plus; change (inject_Z 1) with 1; lra).
  assert (inject_Z n < inject_Z (truncate q + 1)) as B by (rewrite inject_Z_plus; change (inject_Z 1) with 1; lra).
  rewrite <- Zlt_Qlt in A, B. lia.
Qed.

Lemma truncate_unique_nonpos q n :
  (n <= 0)%Z -> inject_Z n - 1 < q <= inject_Z n -> truncate q = n.
Proof.
  intros Hn [Hlo Hhi].
  assert (inject_Z n <= inject_Z 0) as Hn' by (apply inject_Z_le_iff; exact Hn).
  change (inject_Z 0) with 0 in Hn'.
  assert (q <= 0) as Hq by lra.
  destruct (truncate_nonpos_bounds q Hq) as [_ [H1 H2]].
  assert (inject_Z (truncate q) < inject_Z (n + 1)) as A by (rewrite inject_Z_plus; change (inject_Z 1) with 1; lra).
  assert (inject_Z n < inject_Z (truncate q + 1)) as B by (rewrite inject_Z_plus; change (inject_Z 1) with 1; lra).
  rewrite <- Zlt_Qlt in A, B. lia.
Qed.

(** [ToInt16] does not wrap a value whose truncation is a signed 16-bit
    integer. *)
Lemma ToInt16_in_range q :
  (- 2 ^ 15 <= truncate q < 2 ^ 15)%Z -> ToInt16 (Num q) = truncate q.
Proof.
  intros H. unfold ToInt16. cbv zeta.
  destruct (Z.leb_spec (2 ^ 15) (truncate q mod 2 ^ 16)); lia.
Qed.

Lemma ToInt16_range v : (- 2 ^ 15 <= ToInt16 v < 2 ^ 15)%Z.
Proof.
  destruct v; cbn -[Z.pow Z.modulo truncate]; try lia.
  destruct (Z.leb_spec (2 ^ 15) (truncate q mod 2 ^ 16)); lia.
Qed.

End NumberFacts.

(** ** Rounding to a binary format *)

Module IEEE754Facts.
Import IEEE754.
Local Open Scope Q_scope.

(** *** Powers of two *)

Lemma pow2_pos k : 0 < 2 ^ k.
Proof. apply Qpower_0_lt. reflexivity. Qed.

Lemma pow2_add a b : 2 ^ (a + b) == 2 ^ a * 2 ^ b.
Proof. apply Qpower_plus. discriminate. Qed.

Lemma pow2_opp a : 2 ^ (- a) == / 2 ^ a.
Proof. apply Qpower_opp. Qed.

Lemma pow2_cancel a : 2 ^ a * 2 ^ (- a) == 1.
Proof.
  rewrite <- pow2_add. replace (a + - a)%Z with 0%Z by lia. reflexivity.
Qed.

Lemma pow2_le a b : (a <= b)%Z -> 2 ^ a <= 2 ^ b.
Proof. intros H. apply Qpower_le_compat_l; [exact H|discriminate]. Qed.

Lemma pow2_lt a b : (a < b)%Z -> 2 ^ a < 2 ^ b.
Proof. intros H. apply Qpower_lt_compat_l; [exact H|reflexivity]. Qed.

Lemma pow2_lt_inv a b : 2 ^ a < 2 ^ b -> (a < b)%Z.
Proof. intros H. apply (Qpower_lt_compat_l_inv 2); [exact H|reflexivity]. Qed.

Lemma pow2_Z k : (0 <= k)%Z -> 2 ^ k == inject_Z (2 ^ k).
Proof. intros H. rewrite Zpower_Qpower by exact H. reflexivity. Qed.

Lemma pow2_succ a : 2 ^ (a + 1) == 2 * 2 ^ a.
Proof. rewrite pow2_add. change (2 ^ 1) with 2. ring. Qed.

(** *** Rounding to an integer *)

Lemma roundTiesToEven_spec x :
  inject_Z (roundTiesToEven x) - (1 # 2) <= x <= inject_Z (roundTiesToEven x) + (1 # 2).
Proof.
  unfold roundTiesToEven. cbv zeta.
  pose proof (Qfloor_le x) as Hlo. pose proof (Qlt_floor x) as Hhi.
  rewrite inject_Z_plus in Hhi. change (inject_Z 1) with 1 in Hhi.
  destruct (Qcompare_spec (x - inject_Z (Qfloor x)) (1 # 2)) as [E|E|E].
  - destruct (Z.even (Qfloor x)).
    + lra.
    + rewrite inject_Z_plus. change (inject_Z 1) with 1. lra.
  - lra.
  - rewrite inject_Z_plus. change (inject_Z 1) with 1. lra.
Qed.

#[export] Instance roundTiesToEven_proper : Proper (Qeq ==> eq) roundTiesToEven.
Proof.
  intros x y E. unfold roundTiesToEven. cbv zeta.
  rewrite (Qfloor_comp x y E).
  assert (Qcompare (x - inject_Z (Qfloor y)) (1 # 2)
          = Qcompare (y - inject_Z (Qfloor y)) (1 # 2)) as ->.
  { apply Qcompare_comp; [rewrite E|]; reflexivity. }
  reflexivity.
Qed.

Lemma roundTiesToEven_Z z : roundTiesToEven (inject_Z z) = z.
Proof.
  unfold roundTiesToEven. cbv zeta. rewrite Qfloor_Z.
  destruct (Qcompare_spec (inject_Z z - inject_Z z) (1 # 2)) as [E|E|E].
  - lra.
  - reflexivity.
  - lra.
Qed.

Lemma roundTiesToEven_mono x y : x <= y -> (roundTiesToEven x <= roundTiesToEven y)%Z.
Proof.
  intros H.
  destruct (Z.le_gt_cases (roundTiesToEven x) (roundTiesToEven y)) as [|Hgt]; [assumption|].
  exfalso.
  pose proof (roundTiesToEven_spec x) as [Hx _].
  pose proof (roundTiesToEven_spec y) as [_ Hy].
  assert (inject_Z (roundTiesToEven y) + 1 <= inject_Z (roundTiesToEven x)) as A.
  { rewrite <- (inject_Z_plus _ 1). rewrite <- Zle_Qle. lia. }
  assert (x == y) as E by lra.
  rewrite E in Hgt. lia.
Qed.

Lemma roundTiesToEven_near x k :
  inject_Z k - (1 # 2) < x < inject_Z k + (1 # 2) -> roundTiesToEven x = k.
Proof.
  intros [Hlo Hhi].
  pose proof (roundTiesToEven_spec x) as [H1 H2].
  assert (inject_Z (roundTiesToEven x) < inject_Z (k + 1)) as A
    by (rewrite inject_Z_plus; change (inject_Z 1) with 1; lra).
  assert (inject_Z k < inject_Z (roundTiesToEven x + 1)) as B
    by (rewrite inject_Z_plus; change (inject_Z 1) with 1; lra).
  rewrite <- Zlt_Qlt in A, B. lia.
Qed.

Lemma Qfloor_half k : Qfloor (inject_Z k + (1 # 2)) = k.
Proof.
  pose proof (Qfloor_le (inject_Z k + (1 # 2))) as Hlo.
  pose proof (Qlt_floor (inject_Z k + (1 # 2))) as Hhi.
  assert (inject_Z (Qfloor (inject_Z k + (1 # 2))) < inject_Z (k + 1)) as A
    by (rewrite inject_Z_plus; change (inject_Z 1) with 1; lra).
  assert (inject_Z k < inject_Z (Qfloor (inject_Z k + (1 # 2)) + 1)) as B by lra.
  rewrite <- Zlt_Qlt in A, B. lia.
Qed.

Lemma roundTiesToEven_tie x k :
  x == inject_Z k + (1 # 2) ->
  roundTiesToEven x = if Z.even k then k else (k + 1)%Z.
Proof.
  intros E. rewrite E. unfold roundTiesToEven. cbv zeta. rewrite Qfloor_half.
  destruct (Qcompare_spec (inject_Z k + (1 # 2) - inject_Z k) (1 # 2)) as [H|H|H].
  - reflexivity.
  - lra.
  - lra.
Qed.

Lemma roundTiesToEven_opp x : roundTiesToEven (- x) = (- roundTiesToEven x)%Z.
Proof.
  pose proof (roundTiesToEven_spec x) as [H1 H2].
  set (r := roundTiesToEven x) in *.
  destruct (Qlt_le_dec (inject_Z r - (1 # 2)) x) as [Hlo|Hlo].
  - destruct (Qlt_le_dec x (inject_Z r + (1 # 2))) as [Hhi|Hhi].
    + apply roundTiesToEven_near. rewrite inject_Z_opp. lra.
    + assert (x == inject_Z r + (1 # 2)) as E by lra.
      pose proof (roundTiesToEven_tie x r E) as T. fold r in T.
      destruct (Z.even r) eqn:Ev; [|lia].
      rewrite (roundTiesToEven_tie (- x) (- r - 1)).
      * replace (- r - 1)%Z with (- (r + 1))%Z by lia.
        rewrite Z.even_opp, Z.even_add, Ev. cbn. lia.
      * unfold Z.sub. rewrite inject_Z_plus, inject_Z_opp.
        change (inject_Z (- (1))) with (-1). lra.
  - assert (x == inject_Z (r - 1) + (1 # 2)) as E.
    { unfold Z.sub. rewrite inject_Z_plus. change (inject_Z (- (1))) with (-1). lra. }
    pose proof (roundTiesToEven_tie x (r - 1) E) as T. fold r in T.
    destruct (Z.even (r - 1)) eqn:Ev; [lia|].
    rewrite (roundTiesToEven_tie (- x) (- r)).
    + rewrite Z.even_opp. replace r with (r - 1 + 1)%Z at 1 by lia.
      rewrite Z.even_add, Ev. reflexivity.
    + rewrite inject_Z_opp. lra.
Qed.

Lemma roundTiesToEven_nonneg x : 0 <= x -> (0 <= roundTiesToEven x)%Z.
Proof.
  intros H. rewrite <- (roundTiesToEven_Z 0). apply roundTiesToEven_mono. exact H.
Qed.

(** *** The exponent *)

Lemma Qabs_num_den q : Qabs q == inject_Z (Z.abs (Qnum q)) / inject_Z (Z.pos (Qden q)).
Proof.
  destruct q as [n d]. unfold Qabs. cbn [Qnum Qden].
  unfold Qeq, Qdiv, Qmult, Qinv, inject_Z. cbn. destruct (Z.abs n); cbn; lia.
Qed.

Lemma log2_spec_Q n : (0 < n)%Z -> 2 ^ Z.log2 n <= inject_Z n < 2 ^ (Z.log2 n + 1).
Proof.
  intros H. pose proof (Z.log2_spec n H) as [Hlo Hhi].
  pose proof (Z.log2_nonneg n) as Hn.
  rewrite !pow2_Z by lia. change (Z.succ (Z.log2 n)) with (Z.log2 n + 1)%Z in Hhi.
  split; [rewrite <- Zle_Qle|rewrite <- Zlt_Qlt]; assumption.
Qed.

Lemma exponent_bounds q :
  ~ q == 0 -> 2 ^ exponent q <= Qabs q < 2 ^ (exponent q + 1).
Proof.
  intros Hq. unfold exponent. cbv zeta.
  set (n := Z.abs (Qnum q)). set (d := Z.pos (Qden q)).
  assert (0 < n)%Z as Hn.
  { subst n. destruct q as [qn qd]. unfold Qeq in Hq. cbn in *. lia. }
  assert (0 < d)%Z as Hd by (subst d; lia).
  pose proof (log2_spec_Q n Hn) as [N1 N2].
  pose proof (log2_spec_Q d Hd) as [D1 D2].
  pose proof (Qabs_num_den q) as A. fold n d in A.
  set (k := (Z.log2 n - Z.log2 d)%Z).
  assert (0 < inject_Z d) as Hd' by (change 0 with (inject_Z 0); rewrite <- Zlt_Qlt; exact Hd).
  assert (Qabs q * inject_Z d == inject_Z n) as M
    by (rewrite A; field; lra).
  assert (2 ^ (k - 1) < Qabs q < 2 ^ (k + 1)) as [K1 K2].
  { pose proof (pow2_pos (k - 1)). pose proof (pow2_pos (k + 1)).
    assert (2 ^ (k + 1) * 2 ^ Z.log2 d == 2 ^ (Z.log2 n + 1)) as E1
      by (rewrite <- pow2_add; subst k; f_equiv; lia).
    assert (2 ^ (k - 1) * 2 ^ (Z.log2 d + 1) == 2 ^ Z.log2 n) as E2
      by (rewrite <- pow2_add; subst k; f_equiv; lia).
    pose proof (pow2_pos (Z.log2 d)). pose proof (pow2_pos (Z.log2 d + 1)).
    split.
    - apply (Qmult_lt_r _ _ (inject_Z d) Hd'). rewrite M.
      apply Qlt_le_trans with (2 ^ (k - 1) * 2 ^ (Z.log2 d + 1)); [|rewrite E2; exact N1].
      apply Qmult_lt_l; assumption.
    - apply (Qmult_lt_r _ _ (inject_Z d) Hd'). rewrite M.
      apply Qlt_le_trans with (2 ^ (k + 1) * 2 ^ Z.log2 d); [rewrite E1; exact N2|].
      apply Qmult_le_l; assumption. }
  destruct (Qle_bool (2 ^ k) (Qabs q)) eqn:T.
  - apply Qle_bool_iff in T. split; assumption.
  - assert (Qabs q < 2 ^ k) as T'.
    { apply Qnot_le_lt. intros C. apply Qle_bool_iff in C. congruence. }
    replace (k - 1 + 1)%Z with k by lia. split; [apply Qlt_le_weak|]; assumption.
Qed.

Lemma exponent_ge q e : 2 ^ e <= Qabs q -> (e <= exponent q)%Z.
Proof.
  intros H.
  assert (~ q == 0) as Hq.
  { intros E. rewrite E in H. pose proof (pow2_pos e). change (Qabs 0) with 0 in H. lra. }
  pose proof (exponent_bounds q Hq) as [_ Hhi].
  assert (2 ^ e < 2 ^ (exponent q + 1)) as L by lra.
  apply pow2_lt_inv in L. lia.
Qed.

Lemma exponent_lt q e : Qabs q < 2 ^ e -> ~ q == 0 -> (exponent q < e)%Z.
Proof.
  intros H Hq. pose proof (exponent_bounds q Hq) as [Hlo _].
  apply pow2_lt_inv. lra.
Qed.

Lemma exponent_unique q e : 2 ^ e <= Qabs q < 2 ^ (e + 1) -> exponent q = e.
Proof.
  intros [Hlo Hhi]. pose proof (exponent_ge q e Hlo).
  assert (~ q == 0) as Hq.
  { intros E. rewrite E in Hlo. pose proof (pow2_pos e). change (Qabs 0) with 0 in Hlo. lra. }
  pose proof (exponent_lt q (e + 1) Hhi Hq). lia.
Qed.

Lemma exponent_zero q : q == 0 -> (exponent q <= 0)%Z.
Proof.
  intros E. unfold exponent. cbv zeta.
  assert (Qnum q = 0%Z) as -> by (destruct q as [n d]; unfold Qeq in E; cbn in *; lia).
  change (Z.log2 (Z.abs 0)) with 0%Z. pose proof (Z.log2_nonneg (Z.pos (Qden q))).
  destruct (Qle_bool _ _); lia.
Qed.

Lemma exponent_opp q : exponent (- q) = exponent q.
Proof.
  unfold exponent. destruct q as [n d]. cbn [Qopp Qnum Qden Qabs].
  rewrite Z.abs_opp. reflexivity.
Qed.

Lemma exponent_eq q q' : q == q' -> ~ q == 0 -> exponent q = exponent q'.
Proof.
  intros E Hq. symmetry. apply exponent_unique. rewrite <- E.
  apply exponent_bounds, Hq.
Qed.

Lemma exponent_mono x y : 0 < x -> x <= y -> (exponent x <= exponent y)%Z.
Proof.
  intros Hx Hxy. apply exponent_ge.
  assert (~ x == 0) as Hq by lra.
  pose proof (exponent_bounds x Hq) as [Hlo _].
  rewrite (Qabs_pos x) in Hlo by lra. rewrite (Qabs_pos y) by lra. lra.
Qed.

(** *** The nearest value of a format *)

Section Format.
Variables precision emin : Z.
Hypothesis precision_pos : (1 <= precision)%Z.


Lemma nearest_eq q :
  nearest precision emin q == inject_Z (roundTiesToEven (q * 2 ^ (- ulp precision emin q))) * 2 ^ ulp precision emin q.
Proof. unfold nearest. cbv zeta. apply Qred_correct. Qed.

Lemma nearest_zero q : q == 0 -> nearest precision emin q = 0.
Proof.
  intros E. unfold nearest. cbv zeta.
  set (u := ulp precision emin q).
  assert (roundTiesToEven (q * 2 ^ (- u)) = 0%Z) as ->.
  { assert (q * 2 ^ (- u) == inject_Z 0) as -> by (rewrite E; ring).
    apply roundTiesToEven_Z. }
  apply (Qred_complete _ 0). ring.
Qed.

#[export] Instance nearest_proper : Proper (Qeq ==> eq) (nearest precision emin).
Proof.
  intros q q' E.
  destruct (Qeq_dec q 0) as [Z|NZ].
  - rewrite (nearest_zero q Z), (nearest_zero q') by (rewrite <- E; exact Z). reflexivity.
  - unfold nearest, ulp. cbv zeta.
    rewrite <- (exponent_eq q q' E NZ).
    set (u := (Z.max (exponent q) emin - (precision - 1))%Z).
    apply Qred_complete. rewrite E. reflexivity.
Qed.

(** A multiple of the unit in the last place is a value of the format. *)
Lemma nearest_grid q m k :
  q == inject_Z m * 2 ^ k -> (ulp precision emin q <= k)%Z -> nearest precision emin q == q.
Proof.
  intros E Hk. rewrite nearest_eq.
  set (u := ulp precision emin q) in *.
  assert (q * 2 ^ (- u) == inject_Z (m * 2 ^ (k - u))) as ->.
  { rewrite inject_Z_mult, <- pow2_Z by lia. rewrite E.
    replace (k - u)%Z with (k + - u)%Z by lia. rewrite pow2_add. ring. }
  rewrite roundTiesToEven_Z, inject_Z_mult, <- pow2_Z by lia.
  rewrite E. rewrite <- Qmult_assoc, <- pow2_add.
  replace (k - u + u)%Z with k by lia. reflexivity.
Qed.

(** A significand of [precision] bits with an exponent the format has. *)
Lemma nearest_representable q m k :
  q == inject_Z m * 2 ^ k -> (Z.abs m < 2 ^ precision)%Z -> (emin - (precision - 1) <= k)%Z ->
  nearest precision emin q == q.
Proof.
  intros E Hm Hk.
  destruct (Qeq_dec q 0) as [Z|NZ]; [rewrite (nearest_zero q Z), Z; reflexivity|].
  apply (nearest_grid q m k E). unfold ulp.
  assert (exponent q < k + precision)%Z; [|lia].
  apply exponent_lt; [|exact NZ].
  rewrite E, Qabs_Qmult, (Qabs_pos (2 ^ k)) by (apply Qlt_le_weak, pow2_pos).
  rewrite pow2_add, (Qmult_comm (2 ^ k)).
  apply Qmult_lt_r; [apply pow2_pos|].
  rewrite pow2_Z by lia.
  assert (Qabs (inject_Z m) == inject_Z (Z.abs m)) as -> by (unfold Qabs, inject_Z; reflexivity).
  rewrite <- Zlt_Qlt. exact Hm.
Qed.

Lemma nearest_nonneg q : 0 <= q -> 0 <= nearest precision emin q.
Proof.
  intros H. rewrite nearest_eq.
  apply Qmult_le_0_compat; [|apply Qlt_le_weak, pow2_pos].
  change 0 with (inject_Z 0). rewrite <- Zle_Qle. apply roundTiesToEven_nonneg.
  apply Qmult_le_0_compat; [exact H|apply Qlt_le_weak, pow2_pos].
Qed.

Lemma ulp_opp q : ulp precision emin (- q) = ulp precision emin q.
Proof. unfold ulp. rewrite exponent_opp. reflexivity. Qed.

Lemma nearest_opp q : nearest precision emin (- q) == - nearest precision emin q.
Proof.
  rewrite !nearest_eq, ulp_opp.
  assert (- q * 2 ^ (- ulp precision emin q) == - (q * 2 ^ (- ulp precision emin q))) as -> by ring.
  rewrite roundTiesToEven_opp, inject_Z_opp. ring.
Qed.

Lemma nearest_mono_pos x y : 0 < x -> x <= y -> nearest precision emin x <= nearest precision emin y.
Proof.
  intros Hx Hxy.
  pose proof (exponent_mono x y Hx Hxy) as He.
  assert (~ x == 0) as NZx by lra. assert (~ y == 0) as NZy by lra.
  pose proof (exponent_bounds x NZx) as [_ Xhi].
  pose proof (exponent_bounds y NZy) as [Ylo _].
  rewrite (Qabs_pos x) in Xhi by lra. rewrite (Qabs_pos y) in Ylo by lra.
  destruct (Z.eq_dec (ulp precision emin x) (ulp precision emin y)) as [Eu|Nu].
  - rewrite !nearest_eq, Eu.
    apply Qmult_le_compat_r; [|apply Qlt_le_weak, pow2_pos].
    rewrite <- Zle_Qle. apply roundTiesToEven_mono.
    apply Qmult_le_compat_r; [exact Hxy|apply Qlt_le_weak, pow2_pos].
  - unfold ulp in Nu.
    assert (exponent x < exponent y /\ emin < exponent y)%Z as [Hlt Hmin] by lia.
    apply Qle_trans with (2 ^ exponent y).
    + rewrite nearest_eq.
      assert (ulp precision emin x <= exponent y)%Z as Hu by (unfold ulp; lia).
      assert (2 ^ exponent y == inject_Z (2 ^ (exponent y - ulp precision emin x)) * 2 ^ ulp precision emin x) as ->.
      { rewrite <- pow2_Z by lia. rewrite <- pow2_add. f_equiv. lia. }
      apply Qmult_le_compat_r; [|apply Qlt_le_weak, pow2_pos].
      rewrite <- Zle_Qle.
      rewrite <- (roundTiesToEven_Z (2 ^ (exponent y - ulp precision emin x))).
      apply roundTiesToEven_mono.
      rewrite <- pow2_Z by lia.
      replace (exponent y - ulp precision emin x)%Z with (exponent y + - ulp precision emin x)%Z by lia.
      rewrite pow2_add.
      apply Qmult_le_compat_r; [|apply Qlt_le_weak, pow2_pos].
      pose proof (pow2_le (exponent x + 1) (exponent y) ltac:(lia)). lra.
    + rewrite nearest_eq.
      assert (ulp precision emin y = exponent y - (precision - 1))%Z as Uy by (unfold ulp; lia).
      assert (2 ^ exponent y == inject_Z (2 ^ (precision - 1)) * 2 ^ ulp precision emin y) as ->.
      { rewrite <- pow2_Z by lia. rewrite <- pow2_add. f_equiv. lia. }
      apply Qmult_le_compat_r; [|apply Qlt_le_weak, pow2_pos].
      rewrite <- Zle_Qle.
      rewrite <- (roundTiesToEven_Z (2 ^ (precision - 1))).
      apply roundTiesToEven_mono.
      rewrite <- pow2_Z by lia.
      assert (2 ^ (precision - 1) == 2 ^ exponent y * 2 ^ (- ulp precision emin y)) as ->.
      { rewrite <- pow2_add. f_equiv. lia. }
      apply Qmult_le_compat_r; [exact Ylo|apply Qlt_le_weak, pow2_pos].
Qed.

Lemma nearest_mono x y : x <= y -> nearest precision emin x <= nearest precision emin y.
Proof.
  intros Hxy.
  destruct (Qlt_le_dec 0 x) as [Hx|Hx]; [apply nearest_mono_pos; assumption|].
  destruct (Qlt_le_dec y 0) as [Hy|Hy].
  - assert (nearest precision emin (- y) <= nearest precision emin (- x)) as H by (apply nearest_mono_pos; lra).
    rewrite !nearest_opp in H. lra.
  - pose proof (nearest_nonneg y Hy).
    assert (0 <= nearest precision emin (- x)) as H' by (apply nearest_nonneg; lra).
    rewrite nearest_opp in H'. lra.
Qed.

(** A value of the format of magnitude at least [2 ^ e] is a multiple of
    the unit in the last place at [2 ^ e]. *)
Lemma nearest_fixed_grid s e :
  nearest precision emin s == s -> 2 ^ e <= Qabs s -> (emin <= e)%Z ->
  exists j : Z, s == inject_Z j * 2 ^ (e - (precision - 1)).
Proof.
  intros Fix He Hmin.
  pose proof (exponent_ge s e He) as Hge.
  rewrite nearest_eq in Fix.
  set (m := roundTiesToEven (s * 2 ^ (- ulp precision emin s))) in Fix.
  assert (e - (precision - 1) <= ulp precision emin s)%Z as Hu by (unfold ulp; lia).
  exists (m * 2 ^ (ulp precision emin s - (e - (precision - 1))))%Z.
  rewrite inject_Z_mult, <- pow2_Z by lia.
  rewrite <- Qmult_assoc, <- pow2_add.
  replace (ulp precision emin s - (e - (precision - 1)) + (e - (precision - 1)))%Z with (ulp precision emin s) by lia.
  symmetry. exact Fix.
Qed.

(** The error of rounding a value in the normal range. *)
Lemma nearest_error q :
  ~ q == 0 -> (emin <= exponent q)%Z ->
  Qabs (nearest precision emin q - q) <= Qabs q * 2 ^ (- precision).
Proof.
  intros NZ Hmin.
  pose proof (exponent_bounds q NZ) as [Hlo _].
  rewrite nearest_eq.
  assert (ulp precision emin q = exponent q - (precision - 1))%Z as U by (unfold ulp; lia).
  set (u := ulp precision emin q) in *.
  set (y := q * 2 ^ (- u)).
  pose proof (roundTiesToEven_spec y) as [R1 R2].
  assert (q == y * 2 ^ u) as Eq.
  { subst y. rewrite <- Qmult_assoc, (Qmult_comm (2 ^ (- u))), pow2_cancel. ring. }
  clearbody y u.
  assert (inject_Z (roundTiesToEven y) * 2 ^ u - q
          == (inject_Z (roundTiesToEven y) - y) * 2 ^ u) as -> by (rewrite Eq; ring).
  rewrite Qabs_Qmult, (Qabs_pos (2 ^ u)) by (apply Qlt_le_weak, pow2_pos).
  assert (Qabs (inject_Z (roundTiesToEven y) - y) <= 1 # 2) as A
    by (apply Qabs_Qle_condition; lra).
  assert (2 ^ u == 2 * (2 ^ exponent q * 2 ^ (- precision))) as ->.
  { rewrite <- pow2_add, <- pow2_succ. f_equiv. lia. }
  pose proof (pow2_pos (- precision)). pose proof (pow2_pos (exponent q)).
  pose proof (Qabs_nonneg (inject_Z (roundTiesToEven y) - y)).
  assert (2 ^ exponent q * 2 ^ (- precision) <= Qabs q * 2 ^ (- precision)) as B
    by (apply Qmult_le_compat_r; lra).
  assert (0 < 2 ^ exponent q * 2 ^ (- precision)) as C by (apply Qmult_lt_0_compat; assumption).
  nra.
Qed.

Lemma nearest_pow2 e : (emin - (precision - 1) <= e)%Z ->
  nearest precision emin (2 ^ e) == 2 ^ e.
Proof.
  intros H. apply (nearest_representable (2 ^ e) 1 e); [ring| |exact H].
  change (Z.abs 1) with (2 ^ 0)%Z. apply Z.pow_lt_mono_r; lia.
Qed.

Lemma nearest_le_pow2 q e :
  Qabs q <= 2 ^ e -> (emin - (precision - 1) <= e)%Z ->
  Qabs (nearest precision emin q) <= 2 ^ e.
Proof.
  intros H He. apply Qabs_Qle_condition in H. destruct H as [Hlo Hhi].
  apply Qabs_Qle_condition. split.
  - apply nearest_mono in Hlo. rewrite nearest_opp, (nearest_pow2 e He) in Hlo. exact Hlo.
  - apply nearest_mono in Hhi. rewrite (nearest_pow2 e He) in Hhi. exact Hhi.
Qed.

(** Rounding a value of the format gives the value itself. *)
Lemma nearest_fixed q :
  nearest precision emin q == q -> nearest precision emin q = Qred q.
Proof.
  intros H. unfold nearest in *. cbv zeta in *.
  apply Qred_complete. rewrite Qred_correct in H. exact H.
Qed.

Lemma nearest_idempotent q :
  nearest precision emin (nearest precision emin q) = nearest precision emin q.
Proof.
  destruct (Qeq_dec q 0) as [Z|NZ].
  - rewrite (nearest_zero q Z). apply nearest_zero. reflexivity.
  - set (r := nearest precision emin q).
    assert (nearest precision emin r == r) as Fix.
    { pose proof (nearest_eq q) as E. fold r in E.
      set (u := ulp precision emin q) in *.
      set (y := q * 2 ^ (- u)) in *. set (m := roundTiesToEven y) in *.
      pose proof (exponent_bounds q NZ) as [_ Hhi].
      assert (Qabs y <= inject_Z (2 ^ precision)) as Hy.
      { subst y. rewrite Qabs_Qmult, (Qabs_pos (2 ^ (- u))) by (apply Qlt_le_weak, pow2_pos).
        rewrite <- pow2_Z by lia.
        assert (2 ^ precision == 2 ^ (precision + u) * 2 ^ (- u)) as ->.
        { rewrite <- pow2_add. f_equiv. lia. }
        apply Qmult_le_compat_r; [|apply Qlt_le_weak, pow2_pos].
        pose proof (pow2_le (exponent q + 1) (precision + u)
                      ltac:(subst u; unfold ulp; lia)). lra. }
      apply Qabs_Qle_condition in Hy. destruct Hy as [Y1 Y2].
      assert (- 2 ^ precision <= m <= 2 ^ precision)%Z as Hm.
      { split.
        - rewrite <- (roundTiesToEven_Z (- 2 ^ precision)). apply roundTiesToEven_mono.
          rewrite inject_Z_opp. exact Y1.
        - rewrite <- (roundTiesToEven_Z (2 ^ precision)). apply roundTiesToEven_mono.
          exact Y2. }
      assert (emin - (precision - 1) <= u)%Z as Hu by (subst u; unfold ulp; lia).
      destruct (Z.eq_dec m (2 ^ precision)) as [Hi|Hi].
      - apply (nearest_representable r 1 (precision + u)); [| |lia].
        + rewrite E, Hi, <- pow2_Z, pow2_add by lia. ring.
        + change (Z.abs 1) with (2 ^ 0)%Z. apply Z.pow_lt_mono_r; lia.
      - destruct (Z.eq_dec m (- 2 ^ precision)) as [Lo|Lo].
        + apply (nearest_representable r (-1) (precision + u)); [| |lia].
          * rewrite E, Lo, inject_Z_opp, <- pow2_Z, pow2_add by lia.
            change (inject_Z (-1)) with (-1). ring.
          * change (Z.abs (-1)) with (2 ^ 0)%Z. apply Z.pow_lt_mono_r; lia.
        + apply (nearest_representable r m u); [exact E|lia|exact Hu]. }
    rewrite (nearest_fixed r Fix). subst r. unfold nearest. cbv zeta.
    apply Qred_complete, Qred_correct.
Qed.

Lemma convert_Num emax q e :
  Qabs q <= 2 ^ e -> (emin - (precision - 1) <= e)%Z -> (e <= emax)%Z -> (0 <= emax)%Z ->
  convert precision emin emax q = Num (nearest precision emin q).
Proof.
  intros Hq He Hmax Hpos. unfold convert. cbv zeta.
  pose proof (nearest_le_pow2 q e Hq He) as Hr.
  set (r := nearest precision emin q) in *.
  assert (exponent r <= emax)%Z as H.
  { destruct (Qeq_dec r 0) as [Z|NZ].
    - pose proof (exponent_zero r Z). lia.
    - assert (exponent r < e + 1)%Z; [|lia].
      apply exponent_lt; [|exact NZ]. pose proof (pow2_lt e (e + 1) ltac:(lia)). lra. }
  apply Z.leb_le in H. rewrite H. reflexivity.
Qed.

End Format.

(** A value of a format is a value of every wider format. *)
Lemma nearest_wider p emin p' emin' s :
  (p <= p')%Z -> (emin' <= emin)%Z ->
  nearest p emin s == s -> nearest p' emin' s == s.
Proof.
  intros Hp Hmin Fix. rewrite nearest_eq in Fix.
  apply (nearest_grid p' emin' s (roundTiesToEven (s * 2 ^ (- ulp p emin s))) (ulp p emin s)).
  - symmetry. exact Fix.
  - unfold ulp. lia.
Qed.

End IEEE754Facts.

Module CodecFacts.
Import Number NumberFacts IEEE754Facts AudioProcessor CodecSpec.
Local Open Scope Q_scope.

Lemma clamp_Num q :
  clamp (Num q) =
  Num (if Qlt_le_dec q 1 then if Qlt_le_dec (-1) q then q else -1 else 1).
Proof.
  unfold clamp, Math.min, Math.max, lt.
  destruct (Qlt_le_dec q 1); [destruct (Qlt_le_dec (-1) q); reflexivity|].
  reflexivity.
Qed.

(** Clamping yields NaN for NaN and a value of [-1, 1] otherwise. *)
Lemma clamp_spec x :
  (x = NaN /\ clamp x = NaN) \/
  (exists s, clamp x = Num s /\ -1 <= s <= 1).
Proof.
  destruct x as [q| | |].
  - right. rewrite clamp_Num.
    destruct (Qlt_le_dec q 1); [destruct (Qlt_le_dec (-1) q)|];
      eexists; (split; [reflexivity|lra]).
  - right. exists 1. split; [reflexivity|lra].
  - right. exists (-1). split; [reflexivity|lra].
  - left. split; reflexivity.
Qed.

Lemma scale_Num s :
  scale (Num s) = Num (if Qlt_le_dec s 0 then s * 0x8000 else s * 0x7fff).
Proof. unfold scale, lt, mul. destruct (Qlt_le_dec s 0); reflexivity. Qed.

(** The scaled value of a clamped sample, its truncation and the written
    16-bit integer. *)
Lemma scaled_truncation s :
  -1 <= s <= 1 ->
  let v := if Qlt_le_dec s 0 then s * 0x8000 else s * 0x7fff in
  let n := truncate v in
  -32768 <= v <= 32767 /\
  (-32768 <= n <= 32767)%Z /\
  ToInt16 (Num v) = n /\
  (s < 0 -> (n <= 0)%Z /\ inject_Z n - 1 < s * 0x8000 <= inject_Z n) /\
  (0 <= s -> (0 <= n)%Z /\ inject_Z n <= s * 0x7fff < inject_Z n + 1).
Proof.
  intros Hs v n. subst v n.
  destruct (Qlt_le_dec s 0) as [Hneg|Hpos].
  - destruct (truncate_nonpos_bounds (s * 0x8000)) as [Hn [H1 H2]]; [lra|].
    assert (inject_Z (-32768 - 1) < inject_Z (truncate (s * 0x8000))) as A
      by (change (inject_Z (-32768 - 1)) with (-32769); lra).
    rewrite <- Zlt_Qlt in A.
    split; [lra|]. split; [lia|]. split; [apply ToInt16_in_range; lia|].
    split; [intros _; split; [lia|lra]|intros; lra].
  - destruct (truncate_nonneg_bounds (s * 0x7fff)) as [Hn [H1 H2]]; [lra|].
    assert (inject_Z (truncate (s * 0x7fff)) < inject_Z (32767 + 1)) as A
      by (change (inject_Z (32767 + 1)) with 32768; lra).
    rewrite <- Zlt_Qlt in A.
    split; [lra|]. split; [lia|]. split; [apply ToInt16_in_range; lia|].
    split; [intros; lra|intros _; split; [lia|lra]].
Qed.

Lemma sampleToInt16_NaN x : clamp x = NaN -> sampleToInt16 x = 0%Z.
Proof. intros H. unfold sampleToInt16. rewrite H. reflexivity. Qed.

Lemma sampleToInt16_Num x s :
  clamp x = Num s ->
  sampleToInt16 x = truncate (if Qlt_le_dec s 0 then s * 0x8000 else s * 0x7fff).
Proof.
  intros H. unfold sampleToInt16. rewrite H, scale_Num.
  destruct (clamp_spec x) as [[_ E]|[s' [E Hs]]]; [congruence|].
  assert (s' = s) by congruence. subst s'.
  apply (scaled_truncation s Hs).
Qed.

Lemma sampleToInt16_range x : (-32768 <= sampleToInt16 x <= 32767)%Z.
Proof.
  destruct (clamp_spec x) as [[_ E]|[s [E Hs]]].
  - rewrite (sampleToInt16_NaN x E). lia.
  - rewrite (sampleToInt16_Num x s E). apply (scaled_truncation s Hs).
Qed.

(** *** The decoder's quotient *)

Lemma quotient_bound n : (-32768 <= n <= 32767)%Z -> Qabs (quotient n) <= 2.
Proof.
  intros [Hlo Hhi]. rewrite Zle_Qle in Hlo, Hhi.
  change (inject_Z (-32768)) with (-32768) in Hlo.
  change (inject_Z 32767) with 32767 in Hhi.
  unfold quotient. change (inject_Z n / 0x7fff) with (inject_Z n * (1 # 32767)).
  apply Qabs_Qle_condition. split; lra.
Qed.

Lemma quotient_mono n n' : (n <= n')%Z -> quotient n <= quotient n'.
Proof.
  intros H. rewrite Zle_Qle in H. unfold quotient.
  change (?a / 0x7fff) with (a * (1 # 32767)). lra.
Qed.

Lemma div_Num n :
  (-32768 <= n <= 32767)%Z ->
  Number.div (Num (inject_Z n)) (Num 0x7fff)
  = Num (IEEE754.nearest 53 (-1022) (quotient n)).
Proof.
  intros Hn. unfold div. change (Qeq_bool 0x7fff 0) with false. cbv iota.
  apply (convert_Num 53 (-1022) ltac:(lia) 1023 (quotient n) 1); try lia.
  exact (quotient_bound n Hn).
Qed.

Lemma fround_Num q :
  Qabs q <= 2 -> Math.fround (Num q) = Num (IEEE754.nearest 24 (-126) q).
Proof.
  intros H. apply (convert_Num 24 (-126) ltac:(lia) 127 q 1); try lia. exact H.
Qed.

Lemma int16ToSample_Num n :
  (-32768 <= n <= 32767)%Z -> int16ToSample n = Num (decoded n).
Proof.
  intros Hn. unfold int16ToSample. rewrite (div_Num n Hn). apply fround_Num.
  apply (nearest_le_pow2 53 (-1022) ltac:(lia) (quotient n) 1); [|lia].
  exact (quotient_bound n Hn).
Qed.

(** A single is a fixed point of the rounding. *)
Lemma single_fixed s : single (Num s) -> IEEE754.nearest 24 (-126) s == s.
Proof.
  unfold single, Math.fround, IEEE754.binary32, IEEE754.convert. cbv zeta.
  destruct (IEEE754.exponent _ <=? 127)%Z.
  - intros H. injection H as H. rewrite H. reflexivity.
  - destruct (Qle_bool _ _); discriminate.
Qed.

Lemma decoded_mono n n' : (n <= n')%Z -> decoded n <= decoded n'.
Proof.
  intros H. unfold decoded.
  apply (nearest_mono 24 (-126) ltac:(lia)), (nearest_mono 53 (-1022) ltac:(lia)).
  apply quotient_mono, H.
Qed.

Lemma decoded_range n :
  (-32768 <= n <= 32767)%Z ->
  -32769 # 32768 <= decoded n <= 1 /\ ((-32767 <= n)%Z -> -1 <= decoded n).
Proof.
  intros [Hlo Hhi].
  assert (decoded (-32768) = -32769 # 32768) as Elo by (vm_compute; reflexivity).
  assert (decoded (-32767) = -1) as Emid by (vm_compute; reflexivity).
  assert (decoded 32767 = 1) as Ehi by (vm_compute; reflexivity).
  split; [split|intros Hmid].
  - rewrite <- Elo. apply decoded_mono, Hlo.
  - rewrite <- Ehi. apply decoded_mono, Hhi.
  - rewrite <- Emid. apply decoded_mono, Hmid.
Qed.

Lemma decoded_bound n : (-32768 <= n <= 32767)%Z -> Qabs (decoded n) <= 2.
Proof.
  intros Hn. destruct (decoded_range n Hn) as [[Hlo Hhi] _].
  apply Qabs_Qle_condition. split; lra.
Qed.

(** What the decoder produces is a single. *)
Lemma int16ToSample_single n :
  (-32768 <= n <= 32767)%Z -> single (int16ToSample n).
Proof.
  intros Hn. rewrite (int16ToSample_Num n Hn). unfold single.
  rewrite (fround_Num _ (decoded_bound n Hn)). f_equal.
  unfold decoded. apply (nearest_idempotent 24 (-126)). lia.
Qed.

(** The two roundings move the quotient by less than one part in 2^23. *)
Lemma decoded_error n :
  (-32768 <= n <= 32767)%Z ->
  Qabs (decoded n - quotient n) <= Qabs (quotient n) * (1 # 8388608).
Proof.
  intros Hn.
  destruct (Z.eq_dec n 0) as [->|NZ]; [vm_compute; discriminate|].
  set (x := quotient n).
  assert (1 # 32767 <= Qabs x) as Hx.
  { subst x. unfold quotient. change (inject_Z n / 0x7fff) with (inject_Z n * (1 # 32767)).
    destruct (Z.lt_ge_cases n 0) as [Hneg|Hpos].
    - assert (n <= -1)%Z as H by lia. rewrite Zle_Qle in H.
      change (inject_Z (-1)) with (-1) in H. rewrite Qabs_neg by lra. lra.
    - assert (1 <= n)%Z as H by lia. rewrite Zle_Qle in H.
      change (inject_Z 1) with 1 in H. rewrite Qabs_pos by lra. lra. }
  assert (~ x == 0) as NZx.
  { intros E. rewrite E in Hx. change (Qabs 0) with 0 in Hx. lra. }
  assert (-1022 <= IEEE754.exponent x)%Z as Ex.
  { apply Z.le_trans with (-15)%Z; [lia|]. apply exponent_ge.
    change (2 ^ (-15)) with (1 # 32768). lra. }
  pose proof (nearest_error 53 (-1022) x NZx Ex) as E1.
  change (2 ^ (- (53))) with (1 # 9007199254740992) in E1.
  set (x' := IEEE754.nearest 53 (-1022) x) in *.
  pose proof (Qabs_nonneg x) as Ax. pose proof (Qle_Qabs x) as Bx.
  pose proof (Qle_Qabs (- x)) as Cx. rewrite Qabs_opp in Cx.
  apply Qabs_Qle_condition in E1. destruct E1 as [E1 E1'].
  assert (1 # 65536 <= Qabs x') as Hx'.
  { destruct (Qlt_le_dec x 0) as [S|S].
    - rewrite (Qabs_neg x) in * by lra. rewrite Qabs_neg by lra. lra.
    - rewrite (Qabs_pos x) in * by lra. rewrite Qabs_pos by lra. lra. }
  assert (~ x' == 0) as NZx'.
  { intros E. rewrite E in Hx'. change (Qabs 0) with 0 in Hx'. lra. }
  assert (-126 <= IEEE754.exponent x')%Z as Ex'.
  { apply Z.le_trans with (-16)%Z; [lia|]. apply exponent_ge.
    change (2 ^ (-16)) with (1 # 65536). exact Hx'. }
  pose proof (nearest_error 24 (-126) x' NZx' Ex') as E2.
  change (2 ^ (- (24))) with (1 # 16777216) in E2.
  fold (decoded n) in E2. unfold decoded in *. fold x x' in E2 |- *.
  set (q := IEEE754.nearest 24 (-126) x') in *.
  assert (Qabs x' <= Qabs x * (1 + (1 # 9007199254740992))) as Hb
    by (apply Qabs_Qle_condition; split; lra).
  apply Qabs_Qle_condition in E2. destruct E2 as [E2 E2'].
  apply Qabs_Qle_condition. split; lra.
Qed.

(** *** The bin of a code

    A sample [s] in [0, 1] is written as the code [n] with
    [n <= 32767 s < n + 1].  For [n] of [L + 1] bits the quotient
    [n / 32767] lies in [[2^(L-15), 2^(L-14))], where singles are the
    multiples of [2^(L-38)]. *)

Lemma pow2_cases L n :
  (0 <= L <= 14)%Z -> (2 ^ L <= n < 2 ^ (L + 1))%Z -> (n <= 32766)%Z ->
  (0 < 2 ^ (38 - L) /\ 2 ^ (38 - L) mod 32767 <= 16384 /\
   2 ^ 38 <= n * 2 ^ (38 - L) < 2 ^ 24 * 32767)%Z.
Proof.
  intros HL Hn Hmax.
  assert (L = 0 \/ L = 1 \/ L = 2 \/ L = 3 \/ L = 4 \/ L = 5 \/ L = 6 \/ L = 7 \/
          L = 8 \/ L = 9 \/ L = 10 \/ L = 11 \/ L = 12 \/ L = 13 \/ L = 14)%Z as C by lia.
  repeat (destruct C as [->|C]); try subst L; cbn in Hn |- *; lia.
Qed.

Lemma grid_step P n j :
  (0 < P -> P mod 32767 <= 16384 -> 2 ^ 38 <= n * P < 2 ^ 24 * 32767 ->
   j * 32767 < (n + 1) * P ->
   let quo := n * P / 32767 in
   let f := (n * P) mod 32767 in
   (f <= 16383 -> (j - quo) * 32767 <= P) /\
   (16384 <= f -> (j - (quo + 1)) * 32767 <= P))%Z.
Proof. intros HP Hmod Hrange Hhi. cbv zeta. lia. Qed.

Lemma grid_floor P n :
  (0 < P -> 2 ^ 38 <= n * P < 2 ^ 24 * 32767 ->
   let quo := n * P / 32767 in
   let f := (n * P) mod 32767 in
   2 ^ 23 <= quo < 2 ^ 24 /\ quo * 32767 <= n * P /\
   (16384 <= f -> 32767 * (quo * 131072 + 65537) <= n * P * 131072))%Z.
Proof. intros HP Hrange. cbv zeta. lia. Qed.

Lemma grid_inverse L : (L <= 38)%Z -> 2 ^ (L - 38) * inject_Z (2 ^ (38 - L)) == 1.
Proof.
  intros H. rewrite <- pow2_Z, <- pow2_add by lia.
  replace (L - 38 + (38 - L))%Z with 0%Z by lia. reflexivity.
Qed.

(** Dividing an inequality between integers by the grid's denominator. *)
Lemma grid_scale p P a b :
  0 < p -> p * P == 1 -> a <= b * P -> a * p <= b.
Proof.
  intros Hp E H.
  assert (a * p <= b * P * p) as H' by (apply Qmult_le_compat_r; lra).
  assert (b * P * p == b * (p * P)) as E' by ring. rewrite E', E in H'. lra.
Qed.

Lemma grid_scale_r p P a b :
  0 < p -> p * P == 1 -> a * P <= b -> a <= b * p.
Proof.
  intros Hp E H.
  assert (a * P * p <= b * p) as H' by (apply Qmult_le_compat_r; lra).
  assert (a * P * p == a * (p * P)) as E' by ring. rewrite E', E in H'. lra.
Qed.

Section Bin.
Variables (L n : Z).
Hypothesis HL : (0 <= L <= 14)%Z.
Hypothesis Hn : (2 ^ L <= n < 2 ^ (L + 1))%Z.
Hypothesis Hmax : (n <= 32766)%Z.

(** The quotient is not below the multiple of the unit under it, and
    neither is its rounding. *)
Lemma bin_floor :
  inject_Z (n * 2 ^ (38 - L) / 32767) * 2 ^ (L - 38) <= decoded n.
Proof.
  destruct (pow2_cases L n HL Hn Hmax) as (HP & _ & Hrange).
  destruct (grid_floor _ n HP Hrange) as (HQ & Hdiv & _). cbv zeta in HQ, Hdiv.
  pose proof (grid_inverse L ltac:(lia)) as Inv.
  pose proof (pow2_pos (L - 38)) as Hp.
  set (P := (2 ^ (38 - L))%Z) in *. set (quo := (n * P / 32767)%Z) in *.
  set (p := 2 ^ (L - 38)) in *. set (g := inject_Z quo * p).
  assert (g <= quotient n) as Hg.
  { unfold quotient. change (inject_Z n / 0x7fff) with (inject_Z n * (1 # 32767)).
    rewrite Zle_Qle, !inject_Z_mult in Hdiv. change (inject_Z 32767) with 32767 in Hdiv.
    assert (inject_Z quo * 32767 * p <= inject_Z n) as H
      by (apply (grid_scale p (inject_Z P)); assumption).
    subst g. lra. }
  assert (IEEE754.nearest 53 (-1022) g == g) as G64.
  { apply (nearest_representable 53 (-1022) ltac:(lia) g quo (L - 38)); [reflexivity|lia|lia]. }
  assert (IEEE754.nearest 24 (-126) g == g) as G32.
  { apply (nearest_representable 24 (-126) ltac:(lia) g quo (L - 38)); [reflexivity|lia|lia]. }
  unfold decoded. rewrite <- G32 at 1. rewrite <- G64 at 1.
  apply (nearest_mono 24 (-126) ltac:(lia)), (nearest_mono 53 (-1022) ltac:(lia)), Hg.
Qed.

(** A quotient in the upper half of its step is rounded to the multiple
    above. *)
Lemma bin_ceiling :
  (16384 <= (n * 2 ^ (38 - L)) mod 32767)%Z ->
  inject_Z (n * 2 ^ (38 - L) / 32767 + 1) * 2 ^ (L - 38) <= decoded n.
Proof.
  intros Hf.
  destruct (pow2_cases L n HL Hn Hmax) as (HP & _ & Hrange).
  destruct (grid_floor _ n HP Hrange) as (HQ & Hdiv & Hhalf). cbv zeta in HQ, Hdiv, Hhalf.
  specialize (Hhalf Hf).
  pose proof (grid_inverse L ltac:(lia)) as Inv.
  pose proof (pow2_pos (L - 38)) as Hp.
  assert (2 ^ (L - 55) == 2 ^ (L - 38) * (1 # 131072)) as E55.
  { replace (L - 55)%Z with (L - 38 + -17)%Z by lia. rewrite pow2_add. reflexivity. }
  assert (2 ^ (L - 14) == 16777216 * 2 ^ (L - 38)) as E14.
  { replace (L - 14)%Z with (24 + (L - 38))%Z by lia. rewrite pow2_add. reflexivity. }
  assert (2 ^ (L - 15) == 8388608 * 2 ^ (L - 38)) as E15.
  { replace (L - 15)%Z with (23 + (L - 38))%Z by lia. rewrite pow2_add. reflexivity. }
  assert (2 ^ (- (L - 38)) == inject_Z (2 ^ (38 - L))) as Eneg.
  { rewrite <- pow2_Z by lia. f_equiv. lia. }
  set (P := (2 ^ (38 - L))%Z) in *. set (quo := (n * P / 32767)%Z) in *.
  set (p := 2 ^ (L - 38)) in *.
  assert (8388608 <= inject_Z quo /\ inject_Z quo + 1 <= 16777216) as [Q1 Q2].
  { destruct HQ as [A B].
    assert (quo + 1 <= 2 ^ 24)%Z as B' by lia. rewrite Zle_Qle in A, B'.
    rewrite inject_Z_plus in B'. split; [exact A|exact B']. }
  (* the double of the quotient is beyond the middle of the step *)
  set (w := inject_Z (quo * 131072 + 65537) * 2 ^ (L - 55)).
  assert (w == (inject_Z quo + (65537 # 131072)) * p) as Ew.
  { subst w. rewrite E55, inject_Z_plus, inject_Z_mult.
    change (inject_Z 131072) with 131072. change (inject_Z 65537) with 65537. field. }
  assert (w <= quotient n) as Hw.
  { unfold quotient. change (inject_Z n / 0x7fff) with (inject_Z n * (1 # 32767)).
    rewrite Zle_Qle, !inject_Z_mult, inject_Z_plus, inject_Z_mult in Hhalf.
    change (inject_Z 32767) with 32767 in Hhalf.
    change (inject_Z 131072) with 131072 in Hhalf.
    change (inject_Z 65537) with 65537 in Hhalf.
    assert (32767 * (inject_Z quo * 131072 + 65537) * p <= inject_Z n * 131072) as H.
    { apply (grid_scale p (inject_Z P)); [assumption|assumption|]. lra. }
    rewrite Ew. lra. }
  assert (IEEE754.nearest 53 (-1022) w == w) as W64.
  { apply (nearest_representable 53 (-1022) ltac:(lia) w (quo * 131072 + 65537) (L - 55));
      [reflexivity|lia|lia]. }
  set (x' := IEEE754.nearest 53 (-1022) (quotient n)).
  assert (w <= x') as Hx'.
  { rewrite <- W64. apply (nearest_mono 53 (-1022) ltac:(lia)), Hw. }
  assert (quotient n <= 16777216 * p) as Htop.
  { unfold quotient. change (inject_Z n / 0x7fff) with (inject_Z n * (1 # 32767)).
    destruct Hrange as [_ R]. assert (n * P <= 2 ^ 24 * 32767)%Z as R' by lia.
    rewrite Zle_Qle, !inject_Z_mult in R'.
    change (inject_Z (2 ^ 24)) with 16777216 in R'. change (inject_Z 32767) with 32767 in R'.
    assert (inject_Z n <= 16777216 * 32767 * p) as H
      by (apply (grid_scale_r p (inject_Z P)); assumption).
    lra. }
  destruct (Qlt_le_dec x' (16777216 * p)) as [Hlt|Hge].
  - assert (IEEE754.exponent x' = L - 15)%Z as Ex.
    { apply exponent_unique. rewrite Qabs_pos by nra.
      replace (L - 15 + 1)%Z with (L - 14)%Z by lia. rewrite E14, E15. fold p.
      split; [|exact Hlt]. rewrite Ew in Hx'. nra. }
    assert (IEEE754.ulp 24 (-126) x' = L - 38)%Z as U by (unfold IEEE754.ulp; lia).
    unfold decoded. fold x'. rewrite (nearest_eq 24 (-126) x'), U, Eneg. fold P p.
    apply Qmult_le_compat_r; [|lra].
    rewrite <- Zle_Qle.
    pose proof (roundTiesToEven_spec (x' * inject_Z P)) as [_ R].
    assert (inject_Z quo + (65537 # 131072) <= x' * inject_Z P) as Hmid.
    { assert (w * inject_Z P <= x' * inject_Z P) as H.
      { apply Qmult_le_compat_r; [exact Hx'|]. change 0 with (inject_Z 0).
        rewrite <- Zle_Qle. lia. }
      rewrite Ew in H.
      assert ((inject_Z quo + (65537 # 131072)) * p * inject_Z P
              == (inject_Z quo + (65537 # 131072)) * (p * inject_Z P)) as E by ring.
      rewrite E, Inv in H. lra. }
    assert (inject_Z quo < inject_Z (IEEE754.roundTiesToEven (x' * inject_Z P))) as H by lra.
    rewrite <- Zlt_Qlt in H. lia.
  - unfold decoded. fold x'.
    apply Qle_trans with (16777216 * p).
    { rewrite inject_Z_plus. change (inject_Z 1) with 1. nra. }
    assert (IEEE754.nearest 24 (-126) (16777216 * p) == 16777216 * p) as T32.
    { rewrite (nearest_proper 24 (-126) _ _ (Qeq_sym _ _ E14)).
      rewrite (nearest_pow2 24 (-126) ltac:(lia)) by lia. exact E14. }
    rewrite <- T32. apply (nearest_mono 24 (-126) ltac:(lia)), Hge.
Qed.

End Bin.

(** A single in the bin of a positive code is reproduced from below,
    within one step. *)
Lemma decoded_below n s :
  (1 <= n <= 32766)%Z ->
  IEEE754.nearest 24 (-126) s == s ->
  quotient n <= s -> s < quotient (n + 1) ->
  decoded n <= s /\ s - decoded n <= 1 # 32767.
Proof.
  intros Hn Fix Hlo Hhi.
  pose proof (nearest_wider 24 (-126) 53 (-1022) s ltac:(lia) ltac:(lia) Fix) as Fix64.
  split.
  - apply Qle_trans with (IEEE754.nearest 24 (-126) (IEEE754.nearest 53 (-1022) s)).
    + apply (nearest_mono 24 (-126) ltac:(lia)), (nearest_mono 53 (-1022) ltac:(lia)), Hlo.
    + rewrite (nearest_proper 24 (-126) _ _ Fix64), Fix. apply Qle_refl.
  - set (L := Z.log2 n).
    assert (0 <= L <= 14)%Z as HL.
    { split; [apply Z.log2_nonneg|].
      assert (L < 15)%Z; [|lia]. apply Z.log2_lt_pow2; lia. }
    assert (2 ^ L <= n < 2 ^ (L + 1))%Z as Hn2 by (apply Z.log2_spec; lia).
    destruct (pow2_cases L n HL Hn2 ltac:(lia)) as (HP & Hmod & Hrange).
    pose proof (grid_inverse L ltac:(lia)) as Inv.
    pose proof (pow2_pos (L - 38)) as Hp.
    pose proof (bin_floor L n HL Hn2 ltac:(lia)) as Hfloor.
    pose proof (bin_ceiling L n HL Hn2 ltac:(lia)) as Hceil.
    assert (2 ^ (L - 15) == 8388608 * 2 ^ (L - 38)) as E15.
    { replace (L - 15)%Z with (23 + (L - 38))%Z by lia. rewrite pow2_add. reflexivity. }
    unfold quotient in Hlo, Hhi.
    change (inject_Z n / 0x7fff) with (inject_Z n * (1 # 32767)) in Hlo.
    change (inject_Z (n + 1) / 0x7fff) with (inject_Z (n + 1) * (1 # 32767)) in Hhi.
    rewrite inject_Z_plus in Hhi. change (inject_Z 1) with 1 in Hhi.
    assert (1 <= inject_Z n) as Hn1
      by (change 1 with (inject_Z 1); rewrite <- Zle_Qle; lia).
    assert (0 < inject_Z (2 ^ (38 - L))) as HP'
      by (change 0 with (inject_Z 0); rewrite <- Zlt_Qlt; exact HP).
    assert (2 ^ (L - 15) <= Qabs s) as Hs.
    { rewrite Qabs_pos by lra. rewrite E15.
      destruct Hrange as [R _]. rewrite Zle_Qle, inject_Z_mult in R.
      change (inject_Z (2 ^ 38)) with 274877906944 in R.
      assert (274877906944 * 2 ^ (L - 38) <= inject_Z n) as H
        by (apply (grid_scale _ (inject_Z (2 ^ (38 - L)))); assumption).
      lra. }
    destruct (nearest_fixed_grid 24 (-126) s (L - 15) Fix Hs ltac:(lia)) as [j Hj].
    replace (L - 15 - (24 - 1))%Z with (L - 38)%Z in Hj by lia.
    set (P := (2 ^ (38 - L))%Z) in *. set (p := 2 ^ (L - 38)) in *.
    assert (s * inject_Z P == inject_Z j) as Hs'.
    { rewrite Hj, <- Qmult_assoc, Inv. ring. }
    assert (j * 32767 < (n + 1) * P)%Z as Hj'.
    { rewrite Zlt_Qlt, !inject_Z_mult, inject_Z_plus.
      change (inject_Z 32767) with 32767. change (inject_Z 1) with 1.
      rewrite <- Hs'.
      assert (s * inject_Z P < (inject_Z n + 1) * (1 # 32767) * inject_Z P) as H
        by (apply Qmult_lt_r; assumption).
      lra. }
    destruct (grid_step P n j HP Hmod Hrange Hj') as [Hfl Hce]. cbv zeta in Hfl, Hce.
    set (quo := (n * P / 32767)%Z) in *. set (f := ((n * P) mod 32767)%Z) in *.
    destruct (Z.le_gt_cases f 16383) as [Hf|Hf].
    + specialize (Hfl Hf). rewrite Zle_Qle, inject_Z_mult in Hfl.
      unfold Z.sub in Hfl. rewrite inject_Z_plus, inject_Z_opp in Hfl.
      change (inject_Z 32767) with 32767 in Hfl.
      assert ((inject_Z j + - inject_Z quo) * 32767 * p <= 1) as H
        by (apply (grid_scale p (inject_Z P)); [assumption|assumption|lra]).
      rewrite Hj. lra.
    + assert (16384 <= f)%Z as Hf' by lia.
      specialize (Hce Hf'). specialize (Hceil Hf'). rewrite Zle_Qle, inject_Z_mult in Hce.
      unfold Z.sub in Hce. rewrite inject_Z_plus, inject_Z_opp in Hce.
      change (inject_Z 32767) with 32767 in Hce.
      assert ((inject_Z j + - inject_Z (quo + 1)) * 32767 * p <= 1) as H
        by (apply (grid_scale p (inject_Z P)); [assumption|assumption|lra]).
      rewrite Hj. lra.
Qed.

(** *** The error of one round trip *)

(** The codes next to -32768, where the bound on the rounding error is too
    coarse. *)
Lemma decoded_lowest n :
  (-32768 <= n < -32640)%Z -> inject_Z n / 32768 - (1 # 32767) <= decoded n.
Proof.
  intros Hn.
  assert (forallb (fun n => Qle_bool (inject_Z n / 32768 - (1 # 32767)) (decoded n))
            (seqZ (-32768) 128) = true) as T by (vm_compute; reflexivity).
  rewrite forallb_forall in T. apply Qle_bool_iff, T.
  apply list_elem_of_In, elem_of_seqZ. lia.
Qed.

(** A negative sample [s] is written as the code [n] with
    [n - 1 < 32768 s <= n]. *)
Lemma decoded_negative n s :
  (-32768 <= n <= 0)%Z ->
  inject_Z n - 1 < s * 0x8000 <= inject_Z n ->
  Qabs (decoded n - s) <= 1 # 32767.
Proof.
  intros Hn [Hlo Hhi].
  pose proof (decoded_error n ltac:(lia)) as E.
  assert (-32768 <= inject_Z n <= 0) as [N1 N2].
  { destruct Hn as [A B]. rewrite Zle_Qle in A, B. split; assumption. }
  unfold quotient in E. change (inject_Z n / 0x7fff) with (inject_Z n * (1 # 32767)) in E.
  rewrite (Qabs_neg (inject_Z n * (1 # 32767))) in E by lra.
  apply Qabs_Qle_condition in E. destruct E as [E1 E2].
  apply Qabs_Qle_condition. split; [|lra].
  destruct (Z.lt_ge_cases n (-32640)) as [Low|High].
  - pose proof (decoded_lowest n ltac:(lia)) as T.
    change (inject_Z n / 32768) with (inject_Z n * (1 # 32768)) in T. lra.
  - rewrite Zle_Qle in High. change (inject_Z (-32640)) with (-32640) in High. lra.
Qed.

(** The clamped value of a single is a single. *)
Lemma clamp_single x s :
  single x -> clamp x = Num s -> IEEE754.nearest 24 (-126) s == s.
Proof.
  intros Hx E.
  assert (IEEE754.nearest 24 (-126) 1 == 1) as One by (vm_compute; reflexivity).
  assert (IEEE754.nearest 24 (-126) (-1) == -1) as MinusOne by (vm_compute; reflexivity).
  destruct x as [q| | |]; try discriminate.
  - rewrite clamp_Num in E. injection E as <-.
    destruct (Qlt_le_dec q 1); [destruct (Qlt_le_dec (-1) q)|];
      [exact (single_fixed q Hx)|exact MinusOne|exact One].
  - injection E as <-. exact One.
  - injection E as <-. exact MinusOne.
Qed.

Lemma sample_round_trip_error x s :
  single x -> clamp x = Num s ->
  exists q, int16ToSample (sampleToInt16 x) = Num q /\ Qabs (q - s) <= 1 # 32767.
Proof.
  intros Hx E.
  pose proof (clamp_single x s Hx E) as Fix.
  rewrite (sampleToInt16_Num x s E).
  destruct (clamp_spec x) as [[_ E']|[s' [E' Hs]]]; [congruence|].
  assert (s' = s) by congruence. subst s'.
  destruct (scaled_truncation s Hs) as (_ & Hn & _ & Hneg & Hpos).
  cbv zeta in Hn, Hneg, Hpos.
  set (n := truncate (if Qlt_le_dec s 0 then s * 0x8000 else s * 0x7fff)) in *.
  exists (decoded n). split; [apply int16ToSample_Num; lia|]. clearbody n.
  destruct (Qlt_le_dec s 0) as [H|H].
  - destruct (Hneg H) as [Hn' Hb]. apply decoded_negative; [lia|exact Hb].
  - destruct (Hpos H) as [Hn' [Hlo Hhi]].
    destruct (Z.eq_dec n 0) as [->|NZ].
    { change (decoded 0) with 0. change (inject_Z 0) with 0 in Hhi.
      apply Qabs_Qle_condition. split; lra. }
    destruct (Z.eq_dec n 32767) as [->|NM].
    { assert (decoded 32767 = 1) as -> by (vm_compute; reflexivity).
      change (inject_Z 32767) with 32767 in Hlo.
      apply Qabs_Qle_condition. split; lra. }
    destruct (decoded_below n s ltac:(lia) Fix) as [D1 D2].
    + unfold quotient. change (inject_Z n / 0x7fff) with (inject_Z n * (1 # 32767)). lra.
    + unfold quotient.
      change (inject_Z (n + 1) / 0x7fff) with (inject_Z (n + 1) * (1 # 32767)).
      rewrite inject_Z_plus. change (inject_Z 1) with 1. lra.
    + apply Qabs_Qle_condition. split; lra.
Qed.

(** ** Bytes *)

Lemma string_of_list_byte_app (a b : list byte) :
  string_of_list_byte (a ++ b) = String.append (string_of_list_byte a) (string_of_list_byte b).
Proof.
  induction a as [|x a IH]; [reflexivity|].
  change (string_of_list_byte ((x :: a) ++ b))
    with (String (ascii_of_byte x) (string_of_list_byte (a ++ b))).
  rewrite IH. reflexivity.
Qed.

Lemma fromCharCodeChunks_all fuel chunkSize (bytes : list byte) :
  (0 < chunkSize)%nat -> (List.length bytes <= fuel)%nat ->
  fromCharCodeChunks fuel chunkSize bytes = string_of_list_byte bytes.
Proof.
  intros Hc. revert bytes.
  induction fuel as [|fuel IH]; intros bytes Hlen.
  - destruct bytes; [reflexivity|cbn in Hlen; lia].
  - destruct bytes as [|b bytes]; [reflexivity|].
    cbn [fromCharCodeChunks]. rewrite IH.
    + rewrite <- string_of_list_byte_app, take_drop. reflexivity.
    + rewrite length_drop. cbn [List.length] in *. lia.
Qed.

Lemma getInt16_setInt16 n :
  (-32768 <= n <= 32767)%Z ->
  getInt16 (byte.of_Z n) (byte.of_Z (n / 256)) = n.
Proof.
  intros Hn. unfold getInt16. rewrite !byte.unsigned_of_Z. unfold byte.wrap.
  cbv zeta. destruct (Z.leb_spec (2 ^ 15) (n mod 2 ^ 8 + 256 * ((n / 256) mod 2 ^ 8))); lia.
Qed.

Lemma getInt16_range lo hi : (-32768 <= getInt16 lo hi <= 32767)%Z.
Proof.
  unfold getInt16. cbv zeta.
  pose proof (byte.unsigned_range lo). pose proof (byte.unsigned_range hi).
  destruct (Z.leb_spec (2 ^ 15) (byte.unsigned lo + 256 * byte.unsigned hi)); lia.
Qed.

Lemma Int16Array_range buffer : forall pcm16,
  Int16Array buffer = Some pcm16 ->
  Forall (fun n => (-32768 <= n <= 32767)%Z) pcm16.
Proof.
  assert (forall buffer,
            (forall pcm16, Int16Array buffer = Some pcm16 ->
                           Forall (fun n => (-32768 <= n <= 32767)%Z) pcm16) /\
            (forall b pcm16, Int16Array (b :: buffer) = Some pcm16 ->
                             Forall (fun n => (-32768 <= n <= 32767)%Z) pcm16)) as H.
  { clear buffer. intros buffer. induction buffer as [|hi rest [IH0 IH1]].
    - split; [intros pcm16 H; injection H as <-; constructor|discriminate].
    - split; [apply IH1|]. intros lo pcm16 H.
      change (Int16Array (lo :: hi :: rest))
        with (match Int16Array rest with
              | Some pcm16 => Some (getInt16 lo hi :: pcm16)
              | None => None
              end) in H.
      destruct (Int16Array rest) as [tail|]; [|discriminate].
      injection H as <-. constructor; [apply getInt16_range|]. apply IH0. reflexivity. }
  intros pcm16. apply (H buffer).
Qed.

Lemma Int16Array_setInt16 (vals : list number) :
  Int16Array (flat_map setInt16 vals) = Some (map ToInt16 vals).
Proof.
  induction vals as [|v vals IH]; [reflexivity|].
  cbn [flat_map setInt16 app map Int16Array]. rewrite IH.
  rewrite getInt16_setInt16; [reflexivity|].
  pose proof (ToInt16_range v). lia.
Qed.

Section WithPlatform.
Context {platform : Base64}.

(** Decoding what the encoder produced gives one value per sample: the
    16-bit code divided by 0x7fff. *)
Lemma decode_of_encode (float32Array : list number) :
  base64PCM16ToFloat32 (float32ToBase64PCM16 float32Array) =
  Some (map (fun x => int16ToSample (sampleToInt16 x)) float32Array).
Proof.
  unfold base64PCM16ToFloat32, float32ToBase64PCM16. cbv zeta.
  rewrite atob_btoa, fromCharCodeChunks_all by (cbn; lia).
  rewrite list_byte_of_string_of_list_byte.
  rewrite flat_map_concat_map, <- (map_map (fun x => scale (clamp x)) setInt16).
  rewrite <- flat_map_concat_map, Int16Array_setInt16.
  rewrite !map_map. reflexivity.
Qed.

End WithPlatform.
End CodecFacts.

(** ** Voice activity detection *)

Module VADFacts.
Import AudioProcessor VADSpec.








End VADFacts.

(** ** Playback *)

Module PlaybackFacts.
Import AudioProcessor PlaybackSpec.
Local Open Scope Q_scope.

Lemma chained_app p a b : chained p (a ++ b) <-> chained p a /\ chained (lastEnd p a) b.
Proof.
  revert p. induction a as [|s a IH]; intros p; cbn.
  - tauto.
  - rewrite IH. unfold lastEnd. tauto.
Qed.

Lemma lastEnd_app p a b : lastEnd p (a ++ b) = lastEnd (lastEnd p a) b.
Proof. unfold lastEnd. apply fold_left_app. Qed.

Lemma chained_no_overlap p sources : chained p sources -> no_overlap p sources.
Proof.
  revert p. induction sources as [|s rest IH]; intros p; cbn; [trivial|].
  intros [Hs Hc]. split; [|apply IH, Hc].
  rewrite Hs. apply Q.le_max_r.
Qed.

Lemma chained_not_in_past p sources :
  chained p sources -> Forall (fun s => s.(currentTime) <= s.(startTime)) sources.
Proof.
  revert p. induction sources as [|s rest IH]; intros p; cbn; [constructor|].
  intros [Hs Hc]. constructor; [|apply (IH _ Hc)].
  rewrite Hs. apply Q.le_max_l.
Qed.

(** One call of [playNextChunk] starts no source and leaves [nextPlayTime],
    or starts one by the scheduling rule. *)
Lemma playNextChunk_rule clock this :
  chained this.(nextPlayTime) (snd (playNextChunk clock this)) /\
  (fst (playNextChunk clock this)).(nextPlayTime)
  = lastEnd this.(nextPlayTime) (snd (playNextChunk clock this)) /\
  Forall (fun s => s.(currentTime) = clock) (snd (playNextChunk clock this)).
Proof.
  unfold playNextChunk.
  destruct (audioContext this); [destruct (playbackQueue this) as [|float32Data queue]|].
  - cbn. auto.
  - destruct (List.length float32Data =? 0)%nat; cbn; auto.
  - cbn. auto.
Qed.

Section WithPlatform.
Context {platform : Base64}.

Lemma playbackStep_rule e this :
  chained this.(nextPlayTime) (snd (playbackStep e this)) /\
  (fst (playbackStep e this)).(nextPlayTime)
  = lastEnd this.(nextPlayTime) (snd (playbackStep e this)).
Proof.
  destruct e as [base64 clock|clock]; cbn [playbackStep].
  - unfold playAudioChunk.
    destruct (base64PCM16ToFloat32 base64) as [float32Data|]; [|cbn; auto].
    cbn [isPlaying setPlayback setDevices].
    destruct (isPlaying this); [cbn; auto|].
    match goal with |- context [playNextChunk clock ?s] =>
      destruct (playNextChunk_rule clock s) as (H1 & H2 & _) end.
    split; [exact H1|exact H2].
  - unfold onended.
    match goal with |- context [playNextChunk clock ?s] =>
      destruct (playNextChunk_rule clock s) as (H1 & H2 & _) end.
    split; [exact H1|exact H2].
Qed.

Lemma playbackRun_rule events this :
  chained this.(nextPlayTime) (snd (playbackRun events this)) /\
  (fst (playbackRun events this)).(nextPlayTime)
  = lastEnd this.(nextPlayTime) (snd (playbackRun events this)).
Proof.
  revert this. induction events as [|e rest IH]; intros this; cbn [playbackRun].
  - cbn. auto.
  - destruct (playbackStep_rule e this) as [H1 H2].
    destruct (playbackStep e this) as [this' started]. cbn [fst snd] in *.
    destruct (IH this') as [H3 H4].
    destruct (playbackRun rest this') as [final later]. cbn [fst snd] in *.
    rewrite chained_app, lastEnd_app, <- H2. auto.
Qed.

End WithPlatform.
End PlaybackFacts.

(** ** Transport session *)

Module RealtimeFacts.
Import RealtimeService SessionSpec.

Lemma reconnectDelays_app a b :
  reconnectDelays (a ++ b) = reconnectDelays a ++ reconnectDelays b.
Proof. unfold reconnectDelays. apply flat_map_app. Qed.

(** A public method sends at most one event, never the keep-alive. *)
Lemma invoke_effects m this :
  invoke m this = [] \/
  exists event, invoke m this = [Send event] /\ event <> task_continue.
Proof.
  destruct m; cbn [invoke]; unfold appendAudio, commitAudio, clearAudioBuffer, sendText,
    createResponse, updateSession, deleteConversationItem, interrupt, send;
    try (left; reflexivity);
    (destruct (ws this) as [[]|]; [left; reflexivity|right|left; reflexivity
                                  |left; reflexivity|left; reflexivity]);
    eexists; (split; [reflexivity|discriminate]).
Qed.

Lemma invoke_no_reconnect m this : reconnectDelays (invoke m this) = [].
Proof. destruct (invoke_effects m this) as [->|(event & -> & _)]; reflexivity. Qed.

Lemma send_no_reconnect event this : reconnectDelays (send event this) = [].
Proof. unfold send. destruct (ws this) as [[]|]; reflexivity. Qed.

Lemma settle_no_reconnect outcome this :
  (forall caller, reconnectDelays [outcome caller] = []) ->
  reconnectDelays (snd (settle outcome this)) = [].
Proof. intros H. unfold settle. cbn. destruct (connectPending this); [apply H|reflexivity]. Qed.

Lemma handleItemCreated_effects transcripts x :
  In x (handleItemCreated transcripts) ->
  exists transcript, x = Invoke (onUserTranscript transcript).
Proof.
  unfold handleItemCreated. intros H. apply in_map_iff in H as (y & <- & _). eauto.
Qed.

Lemma handleItemCreated_no_reconnect transcripts :
  reconnectDelays (handleItemCreated transcripts) = [].
Proof.
  unfold handleItemCreated. induction transcripts as [|x l IH]; [reflexivity|].
  cbn [List.filter]. destruct (negb (String.eqb x EmptyString)); exact IH.
Qed.

(** One step of a run without [disconnect()] and without readiness: only a
    close changes the attempt counter, and only a close arms a reconnect
    timeout. *)
Lemma step_unexpected e this :
  isDisconnect e = false -> ready this.(useProxy) e = false ->
  this.(manualDisconnect) = false ->
  (fst (step e this)).(manualDisconnect) = false /\
  (fst (step e this)).(useProxy) = this.(useProxy) /\
  (if isClose e then
     (fst (step e this)).(isConnected) = false /\
     if this.(reconnectAttempts) <? maxReconnectAttempts then
       (fst (step e this)).(reconnectAttempts) = this.(reconnectAttempts) + 1 /\
       reconnectDelays (snd (step e this)) = [RECONNECT_DELAY]
     else
       (fst (step e this)).(reconnectAttempts) = this.(reconnectAttempts) /\
       reconnectDelays (snd (step e this)) = []
   else
     (fst (step e this)).(isConnected) = this.(isConnected) /\
     (fst (step e this)).(reconnectAttempts) = this.(reconnectAttempts) /\
     reconnectDelays (snd (step e this)) = []).
Proof.
  intros Hd Hr Hm.
  destruct e as [| |m| |data| | | | |thrown]; cbn [step isClose]; try discriminate.
  - unfold connect. destruct (isConnected this) eqn:Hc; cbn -[reconnectDelays]; repeat split; auto.
  - cbn -[reconnectDelays]. repeat split; auto using invoke_no_reconnect.
  - cbn in Hr. unfold onopen. cbn [useProxy setSocket].
    destruct (useProxy this) eqn:Hp; [cbn -[reconnectDelays]; repeat split; auto|discriminate].
  - destruct data as [event|]; cbn [onmessage]; [|cbn -[reconnectDelays]; repeat split; auto].
    destruct event; try discriminate; cbn -[reconnectDelays];
      repeat split; auto using handleItemCreated_no_reconnect.
  - unfold onerror, settle. cbn -[reconnectDelays].
    destruct (connectPending this); cbn -[reconnectDelays]; repeat split; auto.
  - unfold onclose.
    destruct (ws this); cbn [manualDisconnect setSocket setConnection reconnectAttempts];
      rewrite Hm; destruct (reconnectAttempts this <? maxReconnectAttempts);
      cbn -[reconnectDelays]; repeat split; auto.
  - destruct (reconnectTimers this); [cbn -[reconnectDelays]; repeat split; auto|].
    unfold connect. cbn [isConnected setReconnectTimers].
    destruct (isConnected this) eqn:Hc; cbn -[reconnectDelays]; repeat split; auto.
  - destruct (heartbeatInterval this); [|cbn -[reconnectDelays]; repeat split; auto].
    cbn -[reconnectDelays]. unfold heartbeat.
    destruct (isConnected this); repeat split; auto using send_no_reconnect.
  - unfold connect. destruct (isConnected this) eqn:Hc; cbn -[reconnectDelays]; repeat split; auto.
Qed.

(** Only the handler of a close arms a reconnect timeout. *)
Lemma reconnect_armed_by_close e this delay :
  In (SetTimeoutConnect delay) (snd (step e this)) -> e = SocketClose.
Proof.
  destruct e as [| |m| |data| | | | |thrown]; cbn [step]; try reflexivity.
  - unfold connect. destruct (isConnected this); cbn; intuition discriminate.
  - unfold disconnect. cbn. destruct (ws this); cbn; intuition discriminate.
  - cbn [snd]. destruct (invoke_effects m this) as [->|(event & -> & _)];
      cbn; intuition discriminate.
  - unfold onopen, initSession, send, settle. cbn.
    destruct (useProxy this); [cbn; intuition|].
    destruct (ws this) as [[]|]; destruct (connectPending this); cbn;
      intuition discriminate.
  - destruct data as [event|]; [|cbn; intuition].
    destruct event; cbn; try (intuition discriminate).
    + unfold initSession, send, settle. cbn.
      destruct (ws this) as [[]|]; destruct (connectPending this); cbn;
        intuition discriminate.
    + intros H. apply handleItemCreated_effects in H as [transcript H]. discriminate.
  - unfold onerror, settle. cbn.
    destruct (connectPending this); cbn; intuition discriminate.
  - destruct (reconnectTimers this); [cbn; intuition|].
    unfold connect. cbn [isConnected setReconnectTimers].
    destruct (isConnected this); cbn; intuition discriminate.
  - destruct (heartbeatInterval this); [|cbn; intuition].
    cbn. unfold heartbeat, send. destruct (isConnected this); [|cbn; intuition].
    destruct (ws this) as [[]|]; cbn; intuition discriminate.
  - unfold connect. destruct (isConnected this); cbn; intuition discriminate.
Qed.

Lemma closes_cons e events :
  closes (e :: events) = (if isClose e then 1 else 0) + closes events.
Proof. unfold closes. cbn [List.filter]. destruct (isClose e); cbn [List.length]; lia. Qed.

Lemma closes_nonneg events : 0 <= closes events.
Proof. unfold closes. lia. Qed.

Lemma run_unexpected events : forall this,
  unexpected this.(useProxy) events = true ->
  this.(manualDisconnect) = false ->
  0 <= this.(reconnectAttempts) <= maxReconnectAttempts ->
  let attempts := Z.min (this.(reconnectAttempts) + closes events) maxReconnectAttempts in
  (fst (run events this)).(reconnectAttempts) = attempts /\
  reconnectDelays (snd (run events this))
  = repeat RECONNECT_DELAY (Z.to_nat (attempts - this.(reconnectAttempts))) /\
  (fst (run events this)).(manualDisconnect) = false /\
  (this.(isConnected) = false \/ 0 < closes events ->
   (fst (run events this)).(isConnected) = false).
Proof.
  unfold maxReconnectAttempts.
  induction events as [|e events IH]; intros this Hall Hm Ha; cbn zeta.
  - cbn [run fst snd]. unfold closes. cbn. rewrite Z.add_0_r, Z.min_l by lia.
    rewrite Z.sub_diag. cbn. repeat split; auto. intros [H|H]; [exact H|lia].
  - cbn [forallb] in Hall. apply andb_prop in Hall as [He Hall].
    apply andb_prop in He as [Hd Hr].
    apply negb_true_iff in Hd, Hr.
    destruct (step_unexpected e this Hd Hr Hm) as (Hm' & Hp' & Hstep).
    cbn [run]. destruct (step e this) as [this' effects] eqn:Es. cbn [fst snd] in *.
    rewrite <- Hp' in Hall.
    rewrite closes_cons. pose proof (closes_nonneg events) as Hn.
    destruct (run events this') as [final later] eqn:Er. cbn [fst snd].
    rewrite reconnectDelays_app.
    destruct (isClose e).
    + destruct Hstep as [Hc Hstep]. unfold maxReconnectAttempts in Hstep.
      destruct (Z.ltb_spec (reconnectAttempts this) 3) as [Hlt|Hge];
        destruct Hstep as [Hat Hdel]; rewrite Hdel.
      * specialize (IH this' Hall Hm' ltac:(lia)). rewrite Er in IH. cbn [fst snd] in IH.
        destruct IH as (IH1 & IH2 & IH3 & IH4). rewrite Hat in *.
        split; [rewrite IH1; f_equal; lia|]. split; [|auto].
        rewrite IH2.
        match goal with |- _ ++ repeat _ ?n = repeat _ ?m =>
          replace m with (S n) by lia end.
        reflexivity.
      * specialize (IH this' Hall Hm' ltac:(lia)). rewrite Er in IH. cbn [fst snd] in IH.
        destruct IH as (IH1 & IH2 & IH3 & IH4). rewrite Hat in *.
        split; [rewrite IH1; lia|]. split; [|auto].
        rewrite IH2. cbn [app]. f_equal. f_equal. lia.
    + destruct Hstep as (Hc & Hat & Hdel). rewrite Hdel.
      specialize (IH this' Hall Hm' ltac:(lia)). rewrite Er in IH. cbn [fst snd] in IH.
      destruct IH as (IH1 & IH2 & IH3 & IH4). rewrite Hat in *.
      split; [rewrite IH1; f_equal|]. split; [rewrite IH2; reflexivity|].
      split; [exact IH3|]. intros H. apply IH4. rewrite Hc. destruct H; [auto|right; lia].
Qed.

(** After [disconnect()] the flag stays set until a close consumes it. *)
Lemma step_keeps_manualDisconnect e this :
  isClose e = false -> this.(manualDisconnect) = true ->
  (fst (step e this)).(manualDisconnect) = true.
Proof.
  intros Hc Hm.
  destruct e as [| |m| |data| | | | |thrown]; cbn [step]; try discriminate.
  - unfold connect. destruct (isConnected this); exact Hm.
  - unfold disconnect. cbn. destruct (ws this); reflexivity.
  - exact Hm.
  - unfold onopen. cbn [useProxy setSocket]. destruct (useProxy this); exact Hm.
  - destruct data as [event|]; [|exact Hm]. destruct event; exact Hm.
  - exact Hm.
  - destruct (reconnectTimers this); [exact Hm|].
    unfold connect. cbn [isConnected setReconnectTimers]. destruct (isConnected this); exact Hm.
  - destruct (heartbeatInterval this); exact Hm.
  - unfold connect. destruct (isConnected this); exact Hm.
Qed.

Lemma run_keeps_manualDisconnect events : forall this,
  forallb (fun e => negb (isClose e)) events = true ->
  this.(manualDisconnect) = true ->
  (fst (run events this)).(manualDisconnect) = true.
Proof.
  induction events as [|e events IH]; intros this Hall Hm; [exact Hm|].
  cbn [forallb] in Hall. apply andb_prop in Hall as [He Hall].
  apply negb_true_iff in He.
  pose proof (step_keeps_manualDisconnect e this He Hm) as Hm'.
  cbn [run]. destruct (step e this) as [this' effects]. cbn [fst] in Hm'.
  specialize (IH this' Hall Hm').
  destruct (run events this') as [final later]. exact IH.
Qed.

Lemma disconnect_sets_flag this : (fst (disconnect this)).(manualDisconnect) = true.
Proof. unfold disconnect. cbn. destruct (ws this); reflexivity. Qed.

Lemma onclose_manual this :
  this.(manualDisconnect) = true ->
  snd (onclose this) = [Invoke onDisconnected] /\
  (fst (onclose this)).(manualDisconnect) = false /\
  (fst (onclose this)).(reconnectAttempts) = this.(reconnectAttempts).
Proof.
  intros Hm. unfold onclose.
  destruct (ws this); cbn [manualDisconnect setSocket setConnection reconnectAttempts];
    rewrite Hm; cbn; auto.
Qed.

Lemma onclose_exhausted this :
  this.(manualDisconnect) = false ->
  maxReconnectAttempts <= this.(reconnectAttempts) ->
  snd (onclose this) = [Invoke onDisconnected] /\
  (fst (onclose this)).(isConnected) = false.
Proof.
  intros Hm Ha. unfold onclose.
  destruct (ws this); cbn [manualDisconnect setSocket setConnection reconnectAttempts];
    rewrite Hm; destruct (Z.ltb_spec (reconnectAttempts this) maxReconnectAttempts);
    try lia; cbn; auto.
Qed.

(** ** Heartbeat *)

Lemma keepAlives_app a b : keepAlives (a ++ b) = keepAlives a ++ keepAlives b.
Proof. unfold keepAlives. apply filter_app. Qed.

Lemma handleItemCreated_no_keep_alive transcripts :
  keepAlives (handleItemCreated transcripts) = [].
Proof.
  unfold handleItemCreated. induction transcripts as [|x l IH]; [reflexivity|].
  cbn [List.filter]. destruct (negb (String.eqb x EmptyString)); exact IH.
Qed.

(** The keep-alive is sent by the interval callback alone, and only by a
    connected session. *)
Lemma invoke_no_keep_alive m this : keepAlives (invoke m this) = [].
Proof.
  destruct (invoke_effects m this) as [->|(event & -> & Hne)]; [reflexivity|].
  destruct event; try reflexivity. congruence.
Qed.

Lemma step_keep_alive e this :
  keepAlives (snd (step e this)) <> [] ->
  e = HeartbeatTimer /\
  this.(isConnected) = true /\ this.(ws) = Some OPEN /\
  this.(heartbeatInterval) <> None.
Proof.
  destruct e as [| |m| |data| | | | |thrown]; cbn [step].
  - unfold connect. destruct (isConnected this); cbn; congruence.
  - unfold disconnect. cbn. destruct (ws this); cbn; congruence.
  - cbn [snd]. rewrite invoke_no_keep_alive. congruence.
  - unfold onopen. cbn [useProxy setSocket]. destruct (useProxy this); [cbn; congruence|].
    unfold settle. cbn. destruct (connectPending this); cbn; congruence.
  - destruct data as [event|]; [|cbn; congruence].
    destruct event; cbn; try congruence.
    + unfold initSession, send, settle. cbn.
      destruct (ws this) as [[]|]; destruct (connectPending this); cbn; congruence.
    + cbn [fst snd handleServerEvent]. rewrite handleItemCreated_no_keep_alive. congruence.
  - unfold onerror, settle. cbn. destruct (connectPending this); cbn; congruence.
  - unfold onclose.
    destruct (ws this); cbn [manualDisconnect setSocket setConnection reconnectAttempts];
      destruct (manualDisconnect this); try (cbn; congruence);
      destruct (reconnectAttempts this <? maxReconnectAttempts); cbn; congruence.
  - destruct (reconnectTimers this); [cbn; congruence|].
    unfold connect. cbn [isConnected setReconnectTimers].
    destruct (isConnected this); cbn; congruence.
  - destruct (heartbeatInterval this) as [period|]; [|cbn; congruence].
    cbn [snd]. unfold heartbeat, send.
    destruct (isConnected this); [|cbn; congruence].
    destruct (ws this) as [[]|]; cbn; try congruence.
    intros _. repeat split; congruence.
  - unfold connect. destruct (isConnected this); cbn; congruence.
Qed.

(** A timer tick of a ready session sends exactly one keep-alive. *)
Lemma heartbeat_tick this period :
  this.(heartbeatInterval) = Some period ->
  this.(isConnected) = true -> this.(ws) = Some OPEN ->
  step HeartbeatTimer this = (this, [Send task_continue]).
Proof.
  intros Hh Hc Hw. cbn [step]. rewrite Hh. unfold heartbeat, send. rewrite Hc, Hw. reflexivity.
Qed.

(** The relay's acknowledgement registers the interval, of 60 seconds. *)
Lemma proxy_connected_starts_heartbeat this :
  let this' := fst (step (SocketMessage (Some proxy_connected)) this) in
  this'.(heartbeatInterval) = Some HEARTBEAT_INTERVAL /\ this'.(isConnected) = true.
Proof.
  cbn [step onmessage handleServerEvent]. unfold settle. cbn. auto.
Qed.

Lemma disconnect_stops_heartbeat this :
  (fst (disconnect this)).(heartbeatInterval) = None /\
  (fst (disconnect this)).(isConnected) = false.
Proof. unfold disconnect. cbn. destruct (ws this); cbn; auto. Qed.

(** Without a registered interval and without the relay's acknowledgement
    no interval is ever registered. *)
Lemma step_no_interval e this :
  isAcknowledgement e = false -> this.(heartbeatInterval) = None ->
  (fst (step e this)).(heartbeatInterval) = None.
Proof.
  intros He Hh.
  destruct e as [| |m| |data| | | | |thrown]; cbn [step].
  - unfold connect. destruct (isConnected this); exact Hh.
  - unfold disconnect. cbn. destruct (ws this); reflexivity.
  - exact Hh.
  - unfold onopen. cbn [useProxy setSocket]. destruct (useProxy this); exact Hh.
  - destruct data as [event|]; [|exact Hh]. destruct event; try exact Hh. discriminate.
  - exact Hh.
  - unfold onclose.
    destruct (ws this); cbn [manualDisconnect setSocket setConnection reconnectAttempts];
      destruct (manualDisconnect this); try exact Hh;
      destruct (reconnectAttempts this <? maxReconnectAttempts); exact Hh.
  - destruct (reconnectTimers this); [exact Hh|].
    unfold connect. cbn [isConnected setReconnectTimers]. destruct (isConnected this); exact Hh.
  - rewrite Hh. exact Hh.
  - unfold connect. destruct (isConnected this); exact Hh.
Qed.

Lemma run_no_interval events : forall this,
  unacknowledged events = true ->
  this.(heartbeatInterval) = None ->
  keepAlives (snd (run events this)) = [] /\
  (fst (run events this)).(heartbeatInterval) = None.
Proof.
  induction events as [|e events IH]; intros this Hall Hh; [cbn; auto|].
  unfold unacknowledged in Hall. cbn [forallb] in Hall.
  apply andb_prop in Hall as [Hack Hall]. apply negb_true_iff in Hack.
  pose proof (step_no_interval e this Hack Hh) as Hh'.
  assert (keepAlives (snd (step e this)) = []) as Hk.
  { destruct (keepAlives (snd (step e this))) eqn:E; [reflexivity|].
    destruct (step_keep_alive e this) as (_ & _ & _ & Hn); congruence. }
  cbn [run]. destruct (step e this) as [this' effects]. cbn [fst snd] in *.
  destruct (IH this' Hall Hh') as [IH1 IH2].
  destruct (run events this') as [final later]. cbn [fst snd] in *.
  rewrite keepAlives_app, Hk, IH1. auto.
Qed.

End RealtimeFacts.

(** ** Coordinator *)

Module AppFacts.
Import RealtimeService App CoordinatorSpec.

Ltac break_if :=
  match goal with
  | |- context [if ?b then _ else _] => destruct b eqn:?
  | |- context [match ?x with _ => _ end] => destruct x eqn:?
  end.

Section WithPlatform.
Context {platform : Base64}.

(** A failed capture, seen from [startListening] alone: the message is
    stored, the flags are as before. *)
Lemma startListening_rejected env s message :
  env.(media) = AudioProcessor.Rejected message ->
  connectedState s = true ->
  let s' := startListening env s in
  s'.(error) = Some (String.append "无法访问麦克风: " message) /\
  s'.(isConversationMode) = s.(isConversationMode) /\
  s'.(isConversationModeRef) = s.(isConversationModeRef) /\
  s'.(isListening) = s.(isListening) /\
  s'.(playbackChecks) = s.(playbackChecks).
Proof.
  intros Hm Hc. destruct s. cbn in Hc. unfold startListening. cbn -[String.append].
  rewrite Hc, Hm. cbn -[String.append]. auto.
Qed.

Lemma toggle_rejected env s message responding :
  env.(media) = AudioProcessor.Rejected message ->
  connectedState s = true ->
  let s' := toggleConversationMode false responding env s in
  s'.(error) = None /\
  s'.(isConversationMode) = true /\
  s'.(isConversationModeRef) = true /\
  s'.(isListening) = s.(isListening).
Proof.
  intros Hm Hc. destruct s. cbn in Hc. subst.
  unfold toggleConversationMode, startListening. cbn -[String.append].
  destruct responding; cbn -[String.append]; unfold call; cbn -[String.append];
    destruct realtimeRef0; try discriminate; cbn -[String.append] in *;
    rewrite Hc, Hm; cbn -[String.append]; auto.
Qed.


(** *** The interruption flag *)

Lemma flagged_call m s : flagged s -> flagged (call m s).
Proof. unfold flagged, call. destruct s. cbn. destruct realtimeRef0; auto. Qed.

Lemma flagged_withAudio m s : flagged s -> flagged (withAudio m s).
Proof. unfold flagged, withAudio. destruct s. auto. Qed.

Lemma flagged_startListening env s : flagged s -> flagged (startListening env s).
Proof.
  unfold flagged, startListening. destruct s. cbn.
  destruct realtimeRef0 as [rt|]; cbn; [|auto].
  destruct (isConnectedState rt); cbn; [|auto].
  destruct (AudioProcessor.startCapture (media env) _) as [audio [[]|message]]; auto.
Qed.

Lemma flagged_handleSpeechStart s : flagged s -> flagged (handleSpeechStart s).
Proof.
  unfold flagged, handleSpeechStart, call. destruct s. cbn.
  destruct isResponding0; cbn; [|auto]. destruct realtimeRef0; auto.
Qed.

Lemma flagged_handleSpeechEnd s : flagged s -> flagged (handleSpeechEnd s).
Proof.
  unfold flagged, handleSpeechEnd, call. destruct s. cbn.
  destruct (negb isConversationModeRef0 || negb hasSpeechRef0); [auto|].
  destruct isResponding0; [auto|]. cbn. destruct realtimeRef0; auto.
Qed.

Lemma flagged_vadCallbacks signals : forall s, flagged s -> flagged (vadCallbacks signals s).
Proof.
  induction signals as [|signal signals IH]; intros s H; [exact H|].
  cbn. apply IH. destruct signal; cbn [vadCallback].
  - now apply flagged_handleSpeechStart.
  - now apply flagged_handleSpeechEnd.
  - destruct s. exact H.
Qed.

Lemma flagged_toggle mode responding env s :
  flagged s -> flagged (toggleConversationMode mode responding env s).
Proof.
  intros H. unfold toggleConversationMode.
  destruct mode.
  - destruct responding.
    + destruct s. unfold call. cbn. destruct realtimeRef0; reflexivity.
    + apply flagged_call. destruct s. exact H.
  - assert (forall x, flagged x -> flagged (setError None (startListening env
              (setIsConversationMode true (setIsConversationModeRef true x))))) as K.
    { intros x Hx.
      assert (flagged (setIsConversationMode true (setIsConversationModeRef true x))) as Hx'
        by (destruct x; exact Hx).
      apply (flagged_startListening env) in Hx'.
      destruct (startListening env _). exact Hx'. }
    apply K. destruct responding; [|exact H].
    destruct s. unfold call. cbn. destruct realtimeRef0; reflexivity.
Qed.

(** Every callback but [onResponseStart] leaves a set flag set. *)
Lemma flagged_callback env c s :
  c <> onResponseStart -> flagged s -> flagged (callback env c s).
Proof.
  intros Hc H. unfold flagged in *.
  destruct c; try congruence; cbn [callback]; try exact H;
    try (rewrite H; exact H); destruct s; exact H.
Qed.

Lemma flagged_perform env effect s :
  effect <> Invoke onResponseStart -> flagged s -> flagged (perform env effect s).
Proof.
  intros He H. destruct effect as [event|c| | |delay|caller|caller message]; cbn [perform];
    try exact H.
  - destruct s. exact H.
  - apply flagged_callback; [congruence|exact H].
  - destruct caller; [destruct s|]; exact H.
Qed.

Lemma flagged_performAll env effects : forall s,
  Forall (fun effect => effect <> Invoke onResponseStart) effects ->
  flagged s -> flagged (performAll env effects s).
Proof.
  induction effects as [|effect effects IH]; intros s Hall H; [exact H|].
  inversion_clear Hall as [|? ? He Hrest]. cbn. apply IH; [exact Hrest|].
  now apply flagged_perform.
Qed.

(** The service invokes [onResponseStart] for a [response.created] message
    alone. *)
Lemma responseStart_only_on_created e rt :
  e <> SocketMessage (Some response_created) ->
  Forall (fun effect => effect <> Invoke onResponseStart) (snd (RealtimeService.step e rt)).
Proof.
  intros He.
  destruct e as [| |m| |data| | | | |thrown]; cbn [RealtimeService.step].
  - unfold connect. destruct (isConnected rt); repeat constructor; discriminate.
  - unfold disconnect. cbn. destruct (ws rt); repeat constructor; discriminate.
  - cbn [snd]. destruct (RealtimeFacts.invoke_effects m rt) as [->|(event & -> & _)];
      repeat constructor; discriminate.
  - unfold onopen, initSession, send, settle. cbn.
    destruct (useProxy rt); [constructor|].
    destruct (ws rt) as [[]|]; destruct (connectPending rt); cbn;
      repeat constructor; discriminate.
  - destruct data as [event|]; [|constructor].
    destruct event; try congruence; cbn; try (repeat constructor; discriminate).
    + unfold initSession, send, settle. cbn.
      destruct (ws rt) as [[]|]; destruct (connectPending rt); cbn;
        repeat constructor; discriminate.
    + apply Forall_forall. intros x H.
      apply RealtimeFacts.handleItemCreated_effects in H as [transcript ->]. discriminate.
  - unfold onerror, settle. cbn. destruct (connectPending rt); repeat constructor; discriminate.
  - unfold onclose.
    destruct (ws rt); cbn [manualDisconnect setSocket setConnection reconnectAttempts];
      destruct (manualDisconnect rt); try (repeat constructor; discriminate);
      destruct (reconnectAttempts rt <? maxReconnectAttempts);
      repeat constructor; discriminate.
  - destruct (reconnectTimers rt); [constructor|].
    unfold connect. cbn [isConnected setReconnectTimers].
    destruct (isConnected rt); repeat constructor; discriminate.
  - destruct (heartbeatInterval rt); [|constructor].
    cbn. unfold heartbeat, send. destruct (isConnected rt); [|constructor].
    destruct (ws rt) as [[]|]; repeat constructor; discriminate.
  - unfold connect. destruct (isConnected rt); repeat constructor; discriminate.
Qed.

Lemma flagged_service env e s :
  e <> SocketMessage (Some response_created) -> flagged s -> flagged (service env e s).
Proof.
  intros He H. unfold service. destruct (realtimeRef s) as [rt|] eqn:E; [|exact H].
  pose proof (responseStart_only_on_created e rt He) as Hall.
  destruct (RealtimeService.step e rt) as [rt' effects]. cbn [snd] in Hall.
  apply flagged_performAll; [exact Hall|]. destruct s. exact H.
Qed.

Lemma flagged_handleConnect env s : flagged s -> flagged (handleConnect env s).
Proof.
  intros H. unfold handleConnect.
  destruct (connectionStatus s); try exact H;
    (destruct (String.eqb (apiKey s) ""); [destruct s; exact H|];
     apply flagged_service; [discriminate|destruct s; exact H]).
Qed.

(** The flag survives every event but a [response.created] message and a
    playback check that finds the player idle. *)
Lemma flagged_step env e s :
  flagged s ->
  e <> delivered response_created ->
  (e = PlaybackCheck -> AudioProcessor.isCurrentlyPlaying s.(audioProcessorRef) = true) ->
  flagged (step env e s).
Proof.
  intros H He Hcheck. unfold delivered in He.
  destruct e as [e'|samples rms now|now| | | | | | |]; cbn [step].
  - apply flagged_service; [congruence|exact H].
  - destruct (AudioProcessor.mediaStream (audioProcessorRef s)); [|exact H].
    unfold onaudioprocess.
    destruct (AudioProcessor.processVAD rms now (audioProcessorRef s)) as [audio signals].
    apply flagged_call, flagged_vadCallbacks. destruct s. exact H.
  - destruct (AudioProcessor.silenceTimer (audioProcessorRef s)); [|exact H].
    unfold onSilenceTimer.
    destruct (AudioProcessor.silenceTimeout now (audioProcessorRef s)) as [audio signals].
    apply flagged_vadCallbacks. destruct s. exact H.
  - unfold onPlaybackEnded.
    destruct (AudioProcessor.onended (clock env) (audioProcessorRef s)) as [audio sources].
    destruct s. exact H.
  - destruct (playbackChecks s) as [|checks] eqn:E; [exact H|].
    specialize (Hcheck eq_refl). unfold checkPlaybackDone.
    destruct s. cbn in *. rewrite Hcheck. cbn. exact H.
  - destruct (voiceInputWaits s) as [|captured waits]; [exact H|].
    unfold resumeVoiceInput.
    assert (flagged (setVoiceInputWaits waits s)) as H' by (destruct s; exact H).
    destruct (negb (connectedState (setVoiceInputWaits waits s))); [exact H'|].
    now apply flagged_toggle.
  - now apply flagged_handleConnect.
  - unfold handleDisconnect.
    assert (flagged (service env CallDisconnect
              (stopListening (setIsConversationMode false (setIsConversationModeRef false s)))))
      as H' by (apply flagged_service; [discriminate|destruct s; exact H]).
    destruct (service env CallDisconnect _). exact H'.
  - unfold handleVoiceInput. destruct (negb (connectedState s)).
    + pose proof (flagged_handleConnect env s H) as H'.
      destruct (handleConnect env s). exact H'.
    + now apply flagged_toggle.
  - unfold handleInterrupt, call. destruct s. cbn. destruct realtimeRef0; reflexivity.
Qed.

(** An event is a [response.created] message, a playback check, or
    neither. *)
Lemma event_cases (e : App.Event) :
  e = delivered response_created \/
  (e = PlaybackCheck /\ True) \/
  (e <> delivered response_created /\ e <> PlaybackCheck).
Proof.
  unfold delivered.
  destruct e as [e'|samples rms now|now| | | | | | |];
    try (right; right; split; discriminate).
  - destruct e' as [| |m| |data| | | | |thrown];
      try (right; right; split; discriminate).
    destruct data as [event|]; [|right; right; split; discriminate].
    destruct event; try (right; right; split; discriminate).
    left. reflexivity.
  - right. left. auto.
Qed.

(** A delta delivered while the flag is set changes nothing at all. *)
Lemma stale_delta_dropped env s data :
  flagged s ->
  (exists delta, data = response_text_delta delta \/ data = response_audio_delta delta) ->
  step env (delivered data) s = s.
Proof.
  intros H [delta [-> | ->]]; cbn [step delivered]; unfold service;
    destruct s; cbn in *; destruct realtimeRef0 as [rt|]; cbn; try reflexivity;
    unfold flagged in H; cbn in H; rewrite H; destruct rt; reflexivity.
Qed.

Lemma response_created_clears env s :
  s.(realtimeRef) <> None ->
  (step env (delivered response_created) s).(isInterruptedRef) = false.
Proof.
  intros Hrt. cbn [step delivered]. unfold service. destruct s. cbn in *.
  destruct realtimeRef0; [reflexivity|congruence].
Qed.

End WithPlatform.
End AppFacts.

(** ** Resampling *)

Module ResampleFacts.
Import AudioProcessor SampleSpec.

Lemma get_Forall (P : number -> Prop) (a : Float32Array) (j : Z) :
  Forall P a -> 0 <= j < Z.of_nat (List.length a) -> P (get a j).
Proof.
  intros H Hj. unfold get.
  destruct (Z.ltb_spec j 0) as [|_]; [lia|].
  rewrite Forall_forall in H. apply H, nth_In. lia.
Qed.

(** The source index of every output sample lies inside the input. *)
Lemma srcIndex_range (len i : Z) (ratio : Q) :
  (0 < ratio)%Q -> 0 <= i < Math.round (inject_Z len / ratio) ->
  let srcIndex := (inject_Z i * ratio)%Q in
  0 <= Math.floor srcIndex <= len - 1 /\
  (0 <= srcIndex - inject_Z (Math.floor srcIndex) < 1)%Q.
Proof.
  intros Hr [Hi0 Hi]. cbv zeta. unfold Math.round, Math.floor in *.
  set (x := (inject_Z len / ratio)%Q) in *.
  assert (x * ratio == inject_Z len)%Q as Hx.
  { unfold x. field. intros E. rewrite E in Hr. discriminate. }
  assert (inject_Z (i + 1) <= x + (1 # 2))%Q as Hle.
  { eapply Qle_trans; [|apply Qfloor_le]. rewrite <- Zle_Qle. lia. }
  rewrite inject_Z_plus in Hle. change (inject_Z 1) with 1%Q in Hle.
  assert (0 <= inject_Z i)%Q as Hi0' by (change 0%Q with (inject_Z 0); rewrite <- Zle_Qle; lia).
  pose proof (Qfloor_le (inject_Z i * ratio)) as Hf1.
  pose proof (Qlt_floor (inject_Z i * ratio)) as Hf2.
  rewrite inject_Z_plus in Hf2. change (inject_Z 1) with 1%Q in Hf2.
  assert (0 <= inject_Z i * ratio)%Q as Hnn by nra.
  assert (inject_Z i * ratio < inject_Z len)%Q as Hlt by nra.
  split; [|split; lra].
  split.
  - assert (Qfloor 0 <= Qfloor (inject_Z i * ratio)) as H by (apply Qfloor_resp_le, Hnn).
    exact H.
  - assert (inject_Z (Qfloor (inject_Z i * ratio)) < inject_Z len)%Q as H by lra.
    rewrite <- Zlt_Qlt in H. lia.
Qed.


Lemma Forall2_map_same {A B C} (R : B -> C -> Prop) (f : A -> B) (g : A -> C) l :
  (forall x, In x l -> R (f x) (g x)) -> Forall2 R (map f l) (map g l).
Proof.
  induction l as [|x l IH]; intros H; cbn; constructor.
  - apply H. left. reflexivity.
  - apply IH. intros y Hy. apply H. right. exact Hy.
Qed.

Lemma round_quotient (len k : Z) (ratio : Q) :
  0 < k -> (ratio == inject_Z k)%Q ->
  Math.round (inject_Z len / ratio) = (2 * len + k) / (2 * k).
Proof.
  intros Hk Hr. unfold Math.round. rewrite Zdiv_Qdiv. apply Qfloor_comp.
  rewrite Hr, !inject_Z_plus, !inject_Z_mult. change (inject_Z 2) with 2%Q.
  assert (0 < inject_Z k)%Q as Hk' by (change 0%Q with (inject_Z 0); rewrite <- Zlt_Qlt; lia).
  field. lra.
Qed.

Lemma resample_decimates (inputData : Float32Array) (rin rout : Q) (k : Z) :
  0 < k -> (0 < rout)%Q -> (rin == inject_Z k * rout)%Q ->
  Forall finite inputData ->
  let outputLength := (2 * Z.of_nat (List.length inputData) + k) / (2 * k) in
  Forall2 same (resample inputData rin rout)
    (map (fun i => get inputData (i * k)) (seqZ 0 outputLength)).
Proof.
  intros Hk Hout Hrin Hfin. cbv zeta.
  assert (0 < inject_Z k)%Q as Hk' by (change 0%Q with (inject_Z 0); rewrite <- Zlt_Qlt; lia).
  assert (rin / rout == inject_Z k)%Q as Hratio by (rewrite Hrin; field; lra).
  assert (0 < rin / rout)%Q as Hpos by (rewrite Hratio; exact Hk').
  unfold resample. cbv zeta.
  rewrite (round_quotient _ k _ Hk Hratio).
  apply Forall2_map_same. intros i Hi.
  apply list_elem_of_In, elem_of_seqZ in Hi.
  destruct (srcIndex_range (Z.of_nat (List.length inputData)) i (rin / rout) Hpos)
    as [Hf _]; [rewrite (round_quotient _ k _ Hk Hratio); lia|].
  cbv zeta in Hf.
  assert (Math.floor (inject_Z i * (rin / rout)) = i * k) as Hfloor.
  { unfold Math.floor. rewrite <- (Qfloor_Z (i * k)). apply Qfloor_comp.
    rewrite Hratio, inject_Z_mult. reflexivity. }
  rewrite Hfloor in *.
  destruct (get_Forall finite inputData (i * k) Hfin ltac:(lia)) as [a Ha].
  destruct (get_Forall finite inputData
              (Z.min (i * k + 1) (Z.of_nat (List.length inputData) - 1)) Hfin ltac:(lia))
    as [b Hb].
  rewrite Ha, Hb. cbn. exists (a * (1 - (inject_Z i * (rin / rout) - inject_Z (i * k)))
    + b * (inject_Z i * (rin / rout) - inject_Z (i * k)))%Q, a.
  split; [reflexivity|]. split; [reflexivity|].
  rewrite Hratio, inject_Z_mult. ring.
Qed.

Lemma map_get_all (a : Float32Array) :
  map (get a) (seqZ 0 (Z.of_nat (List.length a))) = a.
Proof.
  apply (nth_ext _ _ NaN NaN).
  - rewrite length_map, length_seqZ. lia.
  - intros n Hn. rewrite length_map, length_seqZ in Hn.
    rewrite (nth_indep _ NaN (get a 0)) by (rewrite length_map, length_seqZ; lia).
    rewrite (map_nth (get a) (seqZ 0 (Z.of_nat (List.length a))) 0 n).
    assert (nth n (seqZ 0 (Z.of_nat (List.length a))) 0 = Z.of_nat n) as ->.
    { apply nth_lookup_Some with (d := 0). rewrite lookup_seqZ. split; lia. }
    unfold get. destruct (Z.ltb_spec (Z.of_nat n) 0); [lia|].
    rewrite Nat2Z.id. reflexivity.
Qed.

Lemma resample_identity (inputData : Float32Array) (rate : Q) :
  (0 < rate)%Q -> Forall finite inputData ->
  Forall2 same (resample inputData rate rate) inputData.
Proof.
  intros Hr Hf.
  pose proof (resample_decimates inputData rate rate 1 ltac:(lia) Hr
                ltac:(change (inject_Z 1) with 1%Q; ring) Hf) as H.
  cbv zeta in H.
  replace ((2 * Z.of_nat (List.length inputData) + 1) / (2 * 1))
    with (Z.of_nat (List.length inputData)) in H by lia.
  erewrite map_ext in H; [|intros i; rewrite Z.mul_1_r; reflexivity].
  rewrite map_get_all in H. exact H.
Qed.

End ResampleFacts.

(** ** Voice activity detection: signals and the silence timeout *)

Module DetectorFacts.
Import AudioProcessor VADSpec.

Lemma vadStep_alternating e this :
  isReset e = false ->
  let (this', emitted) := vadStep e this in
  forall rest, alternating this'.(isSpeaking) rest ->
               alternating this.(isSpeaking) (emitted ++ rest).
Proof.
  intros He. destruct e as [rms now|now|]; [| |discriminate]; cbn [vadStep].
  - unfold processVAD.
    destruct (Number.lt (Num SPEECH_THRESHOLD) rms).
    + destruct (isSpeaking this) eqn:E; cbn; intros rest H; auto.
    + destruct (Number.lt rms (Num SILENCE_THRESHOLD)); [|cbn; auto].
      destruct (isSpeaking this) eqn:E; cbn; intros rest H; [exact H|].
      rewrite E in H. exact H.
  - destruct (silenceTimer this); [|cbn; auto].
    unfold silenceTimeout.
    destruct (isSpeaking this) eqn:E; cbn [andb];
      [destruct (0 <? silenceStartTime this);
       [destruct (SILENCE_DURATION <=? now - silenceStartTime this)|]|];
      cbn; intros rest H; rewrite ?E in H; auto.
Qed.

Lemma signals_alternate events : forall this,
  forallb (fun e => negb (isReset e)) events = true ->
  alternating this.(isSpeaking) (signals events this).
Proof.
  induction events as [|e events IH]; intros this H; [exact I|].
  cbn [forallb] in H. apply andb_true_iff in H as [He H].
  apply negb_true_iff in He. cbn [signals].
  pose proof (vadStep_alternating e this He) as Hstep.
  destruct (vadStep e this) as [this' emitted].
  apply Hstep, IH, H.
Qed.







Lemma volume_range q :
  (0 <= q)%Q ->
  exists v, Math.min (Number.mul (Num q) (Num 10)) (Num 1) = Num v /\ (0 <= v <= 1)%Q.
Proof.
  intros Hq. cbn. destruct (Qlt_le_dec 1 (q * 10)) as [H|H]; eexists; (split; [reflexivity|]); lra.
Qed.

Lemma processVAD_signals rms now this :
  let volume := onVolumeChange (Math.min (Number.mul rms (Num 10)) (Num 1)) in
  snd (processVAD rms now this) = [volume] \/
  (snd (processVAD rms now this) = [volume; onSpeechStart] /\
   this.(isSpeaking) = false /\ Number.lt (Num SPEECH_THRESHOLD) rms = true).
Proof.
  cbv zeta. unfold processVAD.
  destruct (Number.lt (Num SPEECH_THRESHOLD) rms).
  - destruct (isSpeaking this); cbn; auto.
  - destruct (Number.lt rms (Num SILENCE_THRESHOLD)); [destruct (isSpeaking this)|]; cbn; auto.
Qed.

End DetectorFacts.

(** ** Playback: the queue *)

Module PlayerFacts.
Import AudioProcessor PlaybackSpec.

Lemma playNextChunk_takes clock this :
  exists taken,
    this.(playbackQueue) = taken ++ (fst (playNextChunk clock this)).(playbackQueue) /\
    map duration (snd (playNextChunk clock this))
    = map chunkDuration (List.filter playable taken).
Proof.
  unfold playNextChunk.
  destruct (audioContext this); [|exists []; split; reflexivity].
  destruct (playbackQueue this) as [|float32Data queue]; [exists []; split; reflexivity|].
  exists [float32Data]. unfold playable. cbn [List.filter].
  destruct (List.length float32Data =? 0)%nat; split; reflexivity.
Qed.

Section WithPlatform.
Context {platform : Base64}.

Lemma playbackStep_takes e this :
  exists taken,
    this.(playbackQueue) ++ arrivals [e]
    = taken ++ (fst (playbackStep e this)).(playbackQueue) /\
    map duration (snd (playbackStep e this))
    = map chunkDuration (List.filter playable taken).
Proof.
  destruct e as [base64 clock|clock]; cbn [playbackStep arrivals flat_map].
  - unfold playAudioChunk. cbv zeta.
    destruct (base64PCM16ToFloat32 base64) as [float32Data|].
    + rewrite app_nil_r.
      change (isPlaying (setPlayback _ _ _ _ _)) with (isPlaying this).
      destruct (isPlaying this); [exists []; split; reflexivity|].
      match goal with |- context [playNextChunk clock ?s] =>
        destruct (playNextChunk_takes clock s) as (taken & H1 & H2)
      end.
      exists taken. split; [exact H1|exact H2].
    + exists []. rewrite app_nil_r. split; reflexivity.
  - rewrite app_nil_r. unfold onended.
    match goal with |- context [playNextChunk clock ?s] =>
      destruct (playNextChunk_takes clock s) as (taken & H1 & H2)
    end.
    exists taken. split; [exact H1|exact H2].
Qed.

Lemma arrivals_cons e events : arrivals (e :: events) = arrivals [e] ++ arrivals events.
Proof. unfold arrivals. cbn [flat_map]. rewrite app_nil_r. reflexivity. Qed.

Lemma playbackRun_takes events : forall this,
  exists taken,
    this.(playbackQueue) ++ arrivals events
    = taken ++ (fst (playbackRun events this)).(playbackQueue) /\
    map duration (snd (playbackRun events this))
    = map chunkDuration (List.filter playable taken).
Proof.
  induction events as [|e events IH]; intros this.
  - exists []. cbn. rewrite app_nil_r. split; reflexivity.
  - cbn [playbackRun].
    destruct (playbackStep_takes e this) as (taken1 & H1 & H2).
    destruct (playbackStep e this) as [this' started]. cbn [fst snd] in H1, H2.
    destruct (IH this') as (taken2 & H3 & H4).
    destruct (playbackRun events this') as [final later]. cbn [fst snd] in *.
    exists (taken1 ++ taken2). split.
    + rewrite arrivals_cons, app_assoc, H1, <- app_assoc, H3, app_assoc. reflexivity.
    + rewrite map_app, H2, H4, List.filter_app, map_app. reflexivity.
Qed.

Lemma playNextChunk_settled clock this :
  this.(playbackQueue) <> [] -> this.(audioContext) = true ->
  let after := fst (playNextChunk clock this) in
  after.(audioContext) = true /\ after.(isPlaying) = true.
Proof.
  intros Hq Hc. unfold playNextChunk. rewrite Hc.
  destruct (playbackQueue this) as [|float32Data queue]; [contradiction|].
  destruct (List.length float32Data =? 0)%nat; cbn; auto.
Qed.

Lemma playNextChunk_queue clock this :
  let after := fst (playNextChunk clock this) in
  after.(audioContext) = this.(audioContext) /\
  (after.(playbackQueue) = this.(playbackQueue) \/
   (this.(audioContext) = true /\ after.(isPlaying) = true)).
Proof.
  unfold playNextChunk.
  destruct (audioContext this) eqn:Hc; [|cbn; auto].
  destruct (playbackQueue this) as [|float32Data queue]; [cbn; auto|].
  destruct (List.length float32Data =? 0)%nat; cbn; auto.
Qed.

Lemma playbackStep_settled e this : settled this -> settled (fst (playbackStep e this)).
Proof.
  intros H. destruct e as [base64 clock|clock]; cbn [playbackStep].
  - unfold playAudioChunk. cbv zeta.
    destruct (base64PCM16ToFloat32 base64) as [float32Data|].
    + change (isPlaying (setPlayback _ _ _ _ _)) with (isPlaying this).
      destruct (isPlaying this) eqn:Hp.
      * intros _. cbn. auto.
      * match goal with |- settled (fst (playNextChunk clock ?s)) =>
          destruct (playNextChunk_settled clock s) as [A B]
        end.
        { cbn. destruct (playbackQueue this); discriminate. }
        { reflexivity. }
        intros _. auto.
    + intros Hq. cbn in Hq |- *. destruct (H Hq) as [_ Hp]. auto.
  - unfold onended.
    match goal with |- settled (fst (playNextChunk clock ?s)) =>
      destruct (playNextChunk_queue clock s) as [A [B|[B C]]]
    end.
    + intros Hq. rewrite B in Hq. cbn in Hq. destruct (H Hq) as [Hc Hp].
      match goal with |- context [playNextChunk clock ?s] =>
        apply (playNextChunk_settled clock s)
      end; [exact Hq|exact Hc].
    + intros _. rewrite A. auto.
Qed.

Lemma playbackRun_settled events : forall this,
  settled this -> settled (fst (playbackRun events this)).
Proof.
  induction events as [|e events IH]; intros this H; [exact H|].
  cbn [playbackRun].
  pose proof (playbackStep_settled e this H) as Hstep.
  destruct (playbackStep e this) as [this' started].
  pose proof (IH this' Hstep) as Hrun.
  destruct (playbackRun events this') as [final later]. exact Hrun.
Qed.

Lemma settled_idle this :
  settled this -> this.(isPlaying) = false -> this.(playbackQueue) = [].
Proof.
  intros H Hp. destruct (playbackQueue this) as [|c q] eqn:E; [reflexivity|].
  unfold settled in H. rewrite E in H. destruct H as [_ H]; [discriminate|]. congruence.
Qed.

(** Chunks that arrive at a player marked as playing are queued. *)
Lemma enqueue_while_playing later : forall this,
  forallb isEnqueue later = true -> this.(isPlaying) = true ->
  snd (playbackRun later this) = [] /\
  (fst (playbackRun later this)).(isPlaying) = true /\
  (fst (playbackRun later this)).(playbackQueue) = this.(playbackQueue) ++ arrivals later.
Proof.
  induction later as [|e later IH]; intros this Hall Hp.
  - cbn. rewrite app_nil_r. auto.
  - cbn [forallb] in Hall. apply andb_true_iff in Hall as [He Hall].
    destruct e as [base64 clock|]; [|discriminate].
    rewrite arrivals_cons. cbn [playbackRun playbackStep arrivals flat_map].
    unfold playAudioChunk. cbv zeta.
    destruct (base64PCM16ToFloat32 base64) as [float32Data|].
    + change (isPlaying (setPlayback _ _ _ _ _)) with (isPlaying this). rewrite Hp.
      match goal with |- context [playbackRun later ?s] =>
        destruct (IH s Hall Hp) as (A & B & C); destruct (playbackRun later s) as [final started]
      end.
      cbn [fst snd] in *. rewrite A, B, C. cbn. rewrite <- app_assoc. auto.
    + match goal with |- context [playbackRun later ?s] =>
        destruct (IH s Hall Hp) as (A & B & C); destruct (playbackRun later s) as [final started]
      end.
      cbn [fst snd] in *. rewrite A, B, C. cbn. auto.
Qed.

End WithPlatform.
End PlayerFacts.

(** ** Decoder: when it is defined *)

Module DecoderFacts.
Import AudioProcessor.

Lemma Int16Array_defined (buffer : list byte) :
  if Nat.even (List.length buffer)
  then exists pcm16, Int16Array buffer = Some pcm16 /\
                     List.length pcm16 = (List.length buffer / 2)%nat
  else Int16Array buffer = None.
Proof.
  assert (forall n (buffer : list byte), (List.length buffer < n)%nat ->
            if Nat.even (List.length buffer)
            then exists pcm16, Int16Array buffer = Some pcm16 /\
                               List.length pcm16 = (List.length buffer / 2)%nat
            else Int16Array buffer = None) as H.
  { clear buffer. induction n as [|n IH]; intros buffer Hn; [lia|].
    destruct buffer as [|lo [|hi rest]].
    - exists []. split; reflexivity.
    - reflexivity.
    - specialize (IH rest ltac:(cbn in Hn; lia)).
      cbn [List.length Nat.even Int16Array].
      destruct (Nat.even (List.length rest)).
      + destruct IH as (pcm16 & -> & Hl). eexists. split; [reflexivity|].
        cbn [List.length]. rewrite Hl.
        change (S (S (List.length rest))) with (2 + List.length rest)%nat.
        rewrite (Nat.div_add_l 1 2) by lia. lia.
      + rewrite IH. reflexivity. }
  apply (H (S (List.length buffer))). lia.
Qed.

Lemma length_list_byte_of_string (binary : string) :
  List.length (list_byte_of_string binary) = String.length binary.
Proof.
  unfold list_byte_of_string. rewrite length_map.
  induction binary as [|c binary IH]; cbn; [reflexivity|]. rewrite IH. reflexivity.
Qed.

End DecoderFacts.

(** ** Relay: forwarding *)

Module RelayFacts.
Import Relay RelaySpec.

Lemma relay_forwards events :
  toUpstream (run events) = fromClient events /\
  relayed (run events) = fromUpstream events.
Proof.
  induction events as [|e events [IH1 IH2]]; [split; reflexivity|].
  unfold run, toUpstream, relayed in *. cbn [flat_map]. rewrite !flat_map_app.
  unfold fromClient, fromUpstream in *. cbn [flat_map].
  rewrite IH1, IH2.
  split; f_equal;
    destruct e as [|[] ?|[] ?|[] code ?|[] ?|[]|[]]; try reflexivity;
    cbn [handle]; unfold onUpstreamClose; cbn [isOPEN];
    destruct (isValidStatusCode code); reflexivity.
Qed.

End RelayFacts.

(** ** Transport session: the wire and the connection state *)

Module SessionFacts.
Import RealtimeService SessionSpec.

Lemma sends_app a b : sends (a ++ b) = sends a ++ sends b.
Proof. unfold sends. apply flat_map_app. Qed.

Lemma send_closed event this : this.(ws) <> Some OPEN -> send event this = [].
Proof. unfold send. destruct (ws this) as [[]|]; congruence. Qed.

Lemma invoke_closed m this : this.(ws) <> Some OPEN -> invoke m this = [].
Proof.
  intros H. destruct m; cbn [invoke]; try reflexivity;
    unfold appendAudio, commitAudio, clearAudioBuffer, sendText, createResponse,
      updateSession, deleteConversationItem; apply send_closed, H.
Qed.

Lemma sends_settle outcome this :
  (forall caller, match outcome caller with Send _ => False | _ => True end) ->
  sends (snd (settle outcome this)) = [].
Proof.
  intros H. unfold settle. cbn [snd]. destruct (connectPending this) as [caller|]; [|reflexivity].
  specialize (H caller). cbn. destruct (outcome caller); try reflexivity. contradiction.
Qed.

Lemma sends_handleItemCreated transcripts : sends (handleItemCreated transcripts) = [].
Proof.
  unfold handleItemCreated. induction transcripts as [|x l IH]; [reflexivity|].
  cbn [List.filter]. destruct (negb (String.eqb x EmptyString)); exact IH.
Qed.

(** While the socket is not open, no event of a run without [SocketOpen]
    puts anything on the wire, and the socket stays not open. *)
Lemma step_closed e this :
  isOpen e = false -> this.(ws) <> Some OPEN ->
  (fst (step e this)).(ws) <> Some OPEN /\ sends (snd (step e this)) = [].
Proof.
  intros He Hw.
  destruct e; try discriminate; cbn [step].
  - unfold connect. destruct (isConnected this); cbn; (split; [|reflexivity]);
      [exact Hw|discriminate].
  - unfold disconnect. cbn. destruct (ws this) eqn:E; cbn; rewrite ?E;
      (split; [|reflexivity]); discriminate.
  - rewrite (invoke_closed m this Hw). auto.
  - destruct data as [event|]; cbn [onmessage]; [|auto].
    destruct event; cbn [handleServerEvent]; auto.
    + unfold initSession. rewrite send_closed by exact Hw. cbn.
      destruct (connectPending this); cbn; auto.
    + split; [exact Hw|apply sends_handleItemCreated].
  - unfold onerror, settle. cbn. destruct (connectPending this); cbn; auto.
  - unfold onclose. destruct (ws this) as [r|] eqn:E; cbn.
    + destruct (manualDisconnect this); cbn; [split; [discriminate|reflexivity]|].
      destruct (reconnectAttempts this <? maxReconnectAttempts); cbn;
        (split; [discriminate|reflexivity]).
    + rewrite ?E. destruct (manualDisconnect this); cbn; rewrite ?E;
        [split; [discriminate|reflexivity]|].
      destruct (reconnectAttempts this <? maxReconnectAttempts); cbn; rewrite ?E;
        (split; [discriminate|reflexivity]).
  - destruct (reconnectTimers this) as [|timers]; cbn; [auto|].
    unfold connect. cbn. destruct (isConnected this); cbn; (split; [|reflexivity]);
      [exact Hw|discriminate].
  - destruct (heartbeatInterval this); [|auto]. unfold heartbeat.
    destruct (isConnected this); [|auto]. rewrite send_closed by exact Hw. auto.
  - unfold connect. destruct (isConnected this); cbn; auto.
Qed.

Lemma run_closed events : forall this,
  forallb (fun e => negb (isOpen e)) events = true -> this.(ws) <> Some OPEN ->
  sends (snd (run events this)) = [].
Proof.
  induction events as [|e events IH]; intros this Hall Hw; [reflexivity|].
  cbn [forallb] in Hall. apply andb_true_iff in Hall as [He Hall].
  apply negb_true_iff in He. cbn [run].
  destruct (step_closed e this He Hw) as [Hw' Hs].
  destruct (step e this) as [this' effects]. cbn [fst snd] in *.
  specialize (IH this' Hall Hw'). destruct (run events this') as [final later].
  cbn [snd] in *. rewrite sends_app, Hs, IH. reflexivity.
Qed.

Lemma disconnect_closes this : (fst (disconnect this)).(ws) = None.
Proof. unfold disconnect. cbn. destruct (ws this) eqn:E; cbn; rewrite ?E; reflexivity. Qed.


Lemma settle_isConnected outcome this :
  (fst (settle outcome this)).(isConnected) = this.(isConnected).
Proof. reflexivity. Qed.

(** [isConnected] turns true only on a readiness event, and false only on
    a close or a [disconnect()]. *)
Lemma isConnected_changes e this :
  let this' := fst (step e this) in
  (this.(isConnected) = false -> this'.(isConnected) = true ->
   ready this.(useProxy) e = true) /\
  (this.(isConnected) = true -> this'.(isConnected) = false ->
   e = SocketClose \/ e = CallDisconnect).
Proof.
  cbv zeta. destruct e; cbn [step ready].
  - unfold connect. destruct (isConnected this) eqn:E; cbn; rewrite ?E; split; congruence.
  - unfold disconnect. cbn. destruct (ws this); cbn; (split; [congruence|auto]).
  - cbn. split; congruence.
  - unfold onopen. cbn. destruct (useProxy this); cbn; [split; congruence|].
    split; [reflexivity|discriminate].
  - destruct data as [event|]; cbn [onmessage]; [|cbn; split; congruence].
    destruct event; cbn; split; try congruence; discriminate.
  - cbn. split; congruence.
  - split; [|auto]. unfold onclose.
    match goal with |- context [setConnection false _ ?s] => generalize s end.
    intros s. cbn. destruct (manualDisconnect s); cbn; [congruence|].
    destruct (reconnectAttempts s <? maxReconnectAttempts); cbn; congruence.
  - destruct (reconnectTimers this); cbn; [split; congruence|].
    unfold connect. cbn. destruct (isConnected this) eqn:E; cbn; rewrite ?E; split; congruence.
  - destruct (heartbeatInterval this); cbn; split; congruence.
  - unfold connect. destruct (isConnected this) eqn:E; cbn; rewrite ?E; split; congruence.
Qed.

(** The promise of [connect()] is resolved only into a connected session.
    It is rejected by the socket's error event, or at once by a call whose
    socket could not be constructed. *)
Lemma settlement e this caller :
  (In (Resolve caller) (snd (step e this)) ->
   (fst (step e this)).(isConnected) = true) /\
  (forall message, In (Reject caller message) (snd (step e this)) ->
     (e = SocketError /\ this.(connectPending) = Some caller /\
      (fst (step e this)).(connectPending) = None) \/
     (e = CallConnectThrown message /\ caller = Owner /\
      this.(isConnected) = false /\ fst (step e this) = this)).
Proof.
  assert (forall l x, In x (map (fun transcript => Invoke (onUserTranscript transcript)) l) ->
            exists y, x = Invoke y) as Hmap.
  { intros l x H. apply in_map_iff in H as (y & <- & _). eauto. }
  assert (forall event s x, In x (send event s) -> x = Send event) as Hsend.
  { intros event s x. unfold send. destruct (ws s) as [[]|]; cbn; intuition congruence. }
  assert (forall m s x, In x (invoke m s) -> exists event, x = Send event) as Hinvoke.
  { intros m s x H. destruct m; cbn [invoke] in H;
      try (apply Hsend in H; eauto); destruct H. }
  assert (forall s x, In x (snd (settle Resolve s)) -> exists c, x = Resolve c) as Hsettle.
  { intros s x. unfold settle. cbn. destruct (connectPending s); cbn; intuition eauto. }
  destruct e; cbn [step].
  - unfold connect. destruct (isConnected this) eqn:E; cbn; rewrite ?E;
      (split; [intros H|intros message H]); intuition discriminate.
  - unfold disconnect. cbn. destruct (ws this); cbn;
      (split; [intros H|intros message H]); intuition discriminate.
  - split; [intros H|intros message H]; apply Hinvoke in H as [event H]; discriminate.
  - unfold onopen. cbn. destruct (useProxy this); cbn;
      [split; [intros H|intros message H]; contradiction|].
    split; [reflexivity|]. intros message H.
    destruct (connectPending this); cbn in H; intuition discriminate.
  - destruct data as [event|]; cbn [onmessage];
      [|split; [intros H|intros message H]; contradiction].
    destruct event; cbn [handleServerEvent];
      try (split; [intros H|intros ? H]; cbn in H; intuition discriminate).
    + split; [reflexivity|]. intros message H. cbn in H.
      unfold initSession, send in H. cbn in H.
      destruct (ws this) as [[]|]; destruct (connectPending this); cbn in H;
        intuition discriminate.
    + unfold handleItemCreated.
      split; [intros H|intros message H]; apply Hmap in H as [y H]; discriminate.
  - unfold onerror, settle. cbn. destruct (connectPending this) as [c|]; cbn.
    + split; [intros [H|[]]; discriminate|]. intros message [H|[]].
      injection H as <- _. left. auto.
    + split; [intros []|intros message []].
  - unfold onclose.
    match goal with |- context [setConnection false _ ?s] => generalize s end.
    intros s. cbn. destruct (manualDisconnect s); cbn.
    + split; [intros H|intros message H]; intuition discriminate.
    + destruct (reconnectAttempts s <? maxReconnectAttempts); cbn;
        (split; [intros H|intros message H]); intuition discriminate.
  - destruct (reconnectTimers this); cbn [fst snd];
      [split; [intros H|intros message H]; contradiction|].
    unfold connect. cbn. destruct (isConnected this) eqn:E; cbn; rewrite ?E;
      (split; [intros H|intros message H]); intuition discriminate.
  - destruct (heartbeatInterval this); cbn [fst snd];
      [|split; [intros H|intros message H]; contradiction].
    unfold heartbeat. destruct (isConnected this);
      [|split; [intros H|intros message H]; contradiction].
    split; [intros H|intros message H]; apply Hsend in H; discriminate.
  - unfold connect. destruct (isConnected this) eqn:E; cbn; rewrite ?E.
    + split; [reflexivity|]. intros ? [H|[]]. discriminate.
    + split; [intros [H|[]]; discriminate|]. intros ? [H|[]].
      injection H as <- <-. right. auto.
Qed.

Lemma heartbeat_ticks n this period :
  this.(heartbeatInterval) = Some period ->
  this.(isConnected) = true -> this.(ws) = Some OPEN ->
  run (repeat HeartbeatTimer n) this = (this, repeat (Send task_continue) n).
Proof.
  intros Hh Hc Hw. induction n as [|n IH]; [reflexivity|].
  cbn [repeat run]. rewrite (RealtimeFacts.heartbeat_tick this period Hh Hc Hw), IH.
  reflexivity.
Qed.

Lemma heartbeat_ticks_disconnected n this :
  this.(isConnected) = false ->
  run (repeat HeartbeatTimer n) this = (this, []).
Proof.
  intros Hc. induction n as [|n IH]; [reflexivity|].
  cbn [repeat run step]. unfold heartbeat. rewrite Hc.
  destruct (heartbeatInterval this); rewrite IH; reflexivity.
Qed.

Lemma onclose_no_settlement this :
  (forall caller, ~ In (Resolve caller) (snd (onclose this))) /\
  (fst (onclose this)).(connectPending) = this.(connectPending).
Proof.
  unfold onclose. destruct this as [proxy socket c n p manual h timers]. cbn.
  destruct socket; cbn; destruct manual; cbn;
    try (destruct (n <? maxReconnectAttempts)); cbn;
    (split; [intros caller H; intuition discriminate|reflexivity]).
Qed.

End SessionFacts.

(** ** Coordinator: invariants of a run *)

Module CoordinatorFacts.
Import RealtimeService App CoordinatorSpec.
Section WithPlatform.
Context {platform : Base64}.

Lemma playNextChunk_mediaStream clock a :
  (fst (AudioProcessor.playNextChunk clock a)).(AudioProcessor.mediaStream)
  = a.(AudioProcessor.mediaStream).
Proof.
  unfold AudioProcessor.playNextChunk.
  destruct (AudioProcessor.audioContext a); [|reflexivity].
  destruct (AudioProcessor.playbackQueue a) as [|c q]; [reflexivity|].
  destruct (List.length c =? 0)%nat; reflexivity.
Qed.

Lemma playAudioChunk_mediaStream base64 clock a :
  (fst (AudioProcessor.playAudioChunk base64 clock a)).(AudioProcessor.mediaStream)
  = a.(AudioProcessor.mediaStream).
Proof.
  unfold AudioProcessor.playAudioChunk. cbv zeta.
  destruct (AudioProcessor.base64PCM16ToFloat32 base64); [|reflexivity].
  change (AudioProcessor.isPlaying (AudioProcessor.setPlayback _ _ _ _ _))
    with (AudioProcessor.isPlaying a).
  destruct (AudioProcessor.isPlaying a); [reflexivity|].
  rewrite playNextChunk_mediaStream. reflexivity.
Qed.

Lemma onended_mediaStream clock a :
  (fst (AudioProcessor.onended clock a)).(AudioProcessor.mediaStream)
  = a.(AudioProcessor.mediaStream).
Proof. unfold AudioProcessor.onended. rewrite playNextChunk_mediaStream. reflexivity. Qed.

Lemma processVAD_mediaStream rms now a :
  (fst (AudioProcessor.processVAD rms now a)).(AudioProcessor.mediaStream)
  = a.(AudioProcessor.mediaStream).
Proof.
  unfold AudioProcessor.processVAD.
  repeat match goal with |- context [if ?b then _ else _] => destruct b end; reflexivity.
Qed.

Lemma silenceTimeout_mediaStream now a :
  (fst (AudioProcessor.silenceTimeout now a)).(AudioProcessor.mediaStream)
  = a.(AudioProcessor.mediaStream).
Proof.
  unfold AudioProcessor.silenceTimeout.
  repeat match goal with |- context [if ?b then _ else _] => destruct b end; reflexivity.
Qed.

Lemma coherent_call m s : coherent s -> coherent (call m s).
Proof. unfold coherent, call. destruct s. cbn. destruct realtimeRef0; auto. Qed.

Lemma coherent_startListening env s : coherent s -> coherent (startListening env s).
Proof.
  unfold coherent, startListening. destruct s. cbn.
  destruct realtimeRef0 as [rt|]; cbn; [|auto].
  destruct (isConnectedState rt); cbn; [|auto].
  destruct (media env); cbn; intuition.
Qed.

Lemma coherent_stopListening s : coherent s -> coherent (stopListening s).
Proof. unfold coherent, stopListening. destruct s. cbn. intuition discriminate. Qed.

Lemma coherent_handleSpeechStart s : coherent s -> coherent (handleSpeechStart s).
Proof.
  unfold coherent, handleSpeechStart, call. destruct s. cbn.
  destruct isResponding0; cbn; [|auto]. destruct realtimeRef0; auto.
Qed.

Lemma coherent_handleSpeechEnd s : coherent s -> coherent (handleSpeechEnd s).
Proof.
  unfold coherent, handleSpeechEnd, call. destruct s. cbn.
  destruct (negb isConversationModeRef0 || negb hasSpeechRef0); [auto|].
  destruct isResponding0; [auto|]. cbn. destruct realtimeRef0; auto.
Qed.

Lemma coherent_vadCallbacks signals : forall s,
  coherent s -> coherent (vadCallbacks signals s).
Proof.
  induction signals as [|signal signals IH]; intros s H; [exact H|].
  cbn. apply IH. destruct signal; cbn [vadCallback].
  - now apply coherent_handleSpeechStart.
  - now apply coherent_handleSpeechEnd.
  - destruct s. exact H.
Qed.

Lemma coherent_audio audio s :
  audio.(AudioProcessor.mediaStream) = s.(audioProcessorRef).(AudioProcessor.mediaStream) ->
  coherent s -> coherent (setAudioProcessorRef audio s).
Proof. unfold coherent. destruct s. cbn. intros ->. auto. Qed.

Lemma coherent_toggle mode responding env s :
  coherent s -> coherent (toggleConversationMode mode responding env s).
Proof.
  intros H. unfold toggleConversationMode.
  destruct mode.
  - assert (coherent (call clearAudioBuffer
              (stopListening (setIsConversationMode false (setIsConversationModeRef false s)))))
      as H'.
    { apply coherent_call, coherent_stopListening. destruct s. unfold coherent in *. cbn in *.
      intuition. }
    destruct responding; [|exact H'].
    revert H'. generalize (call clearAudioBuffer
      (stopListening (setIsConversationMode false (setIsConversationModeRef false s)))).
    intros s0 H0. unfold coherent, call in *. destruct s0. cbn in *.
    destruct realtimeRef0; cbn; auto.
  - match goal with |- coherent (setError None (startListening env ?x)) =>
      assert (coherent x) as H'
    end.
    { destruct responding.
      - unfold coherent, call in *. destruct s. cbn in *. destruct realtimeRef0; cbn; intuition.
      - unfold coherent in *. destruct s. cbn in *. intuition. }
    apply (coherent_startListening env) in H'.
    match goal with |- coherent (setError None ?x) => revert H'; generalize x end.
    intros s0 H0. unfold coherent in *. destruct s0. exact H0.
Qed.

Lemma coherent_checkPlaybackDone env s : coherent s -> coherent (checkPlaybackDone env s).
Proof.
  intros H. unfold checkPlaybackDone.
  destruct (negb (AudioProcessor.isCurrentlyPlaying (audioProcessorRef s)));
    [|destruct s; exact H].
  assert (coherent (setIsInterruptedRef false
            (if negb (isInterruptedRef s) then setIsResponding false s else s))) as H'.
  { destruct (negb (isInterruptedRef s)); destruct s; exact H. }
  revert H'.
  generalize (setIsInterruptedRef false
    (if negb (isInterruptedRef s) then setIsResponding false s else s)).
  intros s0 H0. destruct (isConversationModeRef s0); [|exact H0].
  assert (coherent (withAudio AudioProcessor.resetVADState (setHasSpeechRef false s0))) as H1.
  { destruct s0. exact H0. }
  destruct (negb (isListening s)); [|exact H1].
  apply coherent_startListening, H1.
Qed.

Lemma coherent_callback env c s : coherent s -> coherent (callback env c s).
Proof.
  intros H. destruct c; cbn [callback];
    try (destruct s; exact H);
    try (destruct (isInterruptedRef s); [exact H|]; destruct s; exact H).
  - destruct s. unfold coherent in *. cbn in *. intuition discriminate.
  - destruct (isInterruptedRef s); [exact H|].
    pose proof (playAudioChunk_mediaStream audioBase64 (clock env)
                  (audioProcessorRef (setIsResponding true s))) as Hm.
    destruct (AudioProcessor.playAudioChunk audioBase64 (clock env)
                (audioProcessorRef (setIsResponding true s))) as [audio sources].
    cbn [fst] in Hm. destruct s. unfold coherent in *. cbn in *. rewrite Hm. exact H.
Qed.

Lemma coherent_perform env effect s : coherent s -> coherent (perform env effect s).
Proof.
  intros H. destruct effect; cbn [perform]; try exact H.
  - destruct s. exact H.
  - apply coherent_callback, H.
  - destruct caller; [|exact H]. destruct s. exact H.
Qed.

Lemma coherent_performAll env effects : forall s,
  coherent s -> coherent (performAll env effects s).
Proof.
  induction effects as [|effect effects IH]; intros s H; [exact H|].
  cbn. apply IH, coherent_perform, H.
Qed.

Lemma coherent_service env e s : coherent s -> coherent (service env e s).
Proof.
  intros H. unfold service. destruct (realtimeRef s) as [rt|]; [|exact H].
  destruct (RealtimeService.step e rt) as [rt' effects].
  apply coherent_performAll. destruct s. exact H.
Qed.

Lemma coherent_handleConnect env s : coherent s -> coherent (handleConnect env s).
Proof.
  intros H. unfold handleConnect.
  destruct (connectionStatus s); try exact H;
    (destruct (String.eqb (apiKey s) ""); [destruct s; exact H|];
     apply coherent_service; destruct s; exact H).
Qed.

Lemma coherent_handleDisconnect env s : coherent s -> coherent (handleDisconnect env s).
Proof.
  intros H. unfold handleDisconnect.
  assert (coherent (service env CallDisconnect
            (stopListening (setIsConversationMode false (setIsConversationModeRef false s)))))
    as H'.
  { apply coherent_service, coherent_stopListening.
    destruct s. unfold coherent in *. cbn in *. intuition. }
  revert H'. generalize (service env CallDisconnect
    (stopListening (setIsConversationMode false (setIsConversationModeRef false s)))).
  intros s0 H0. destruct s0. exact H0.
Qed.

Lemma coherent_handleInterrupt s : coherent s -> coherent (handleInterrupt s).
Proof.
  unfold coherent, handleInterrupt, call. destruct s. cbn. destruct realtimeRef0; auto.
Qed.

Lemma coherent_step env e s : coherent s -> coherent (App.step env e s).
Proof.
  intros H. destruct e; cbn [App.step].
  - apply coherent_service, H.
  - destruct (AudioProcessor.mediaStream (audioProcessorRef s)) eqn:Em; [|exact H].
    unfold onaudioprocess.
    pose proof (processVAD_mediaStream rms now (audioProcessorRef s)) as Hm.
    destruct (AudioProcessor.processVAD rms now (audioProcessorRef s)) as [audio signals].
    apply coherent_call, coherent_vadCallbacks, coherent_audio; [exact Hm|exact H].
  - destruct (AudioProcessor.silenceTimer (audioProcessorRef s)); [|exact H].
    unfold onSilenceTimer.
    pose proof (silenceTimeout_mediaStream now (audioProcessorRef s)) as Hm.
    destruct (AudioProcessor.silenceTimeout now (audioProcessorRef s)) as [audio signals].
    apply coherent_vadCallbacks, coherent_audio; [exact Hm|exact H].
  - unfold onPlaybackEnded.
    pose proof (onended_mediaStream (clock env) (audioProcessorRef s)) as Hm.
    destruct (AudioProcessor.onended (clock env) (audioProcessorRef s)) as [audio sources].
    cbn [fst] in Hm. destruct s. unfold coherent in *. cbn in *. rewrite Hm. exact H.
  - destruct (playbackChecks s); [exact H|].
    apply coherent_checkPlaybackDone. destruct s. exact H.
  - destruct (voiceInputWaits s); [exact H|]. unfold resumeVoiceInput.
    destruct (negb (connectedState _)); [destruct s; exact H|].
    apply coherent_toggle. destruct s. exact H.
  - apply coherent_handleConnect, H.
  - apply coherent_handleDisconnect, H.
  - unfold handleVoiceInput. destruct (negb (connectedState s)).
    + pose proof (coherent_handleConnect env s H) as H'.
      destruct (handleConnect env s). exact H'.
    + apply coherent_toggle, H.
  - apply coherent_handleInterrupt, H.
Qed.

Lemma coherent_run events : forall s, coherent s -> coherent (App.run events s).
Proof.
  induction events as [|[env e] events IH]; intros s H; [exact H|].
  cbn. apply IH, coherent_step, H.
Qed.

Lemma unused_call m s : unused s -> call m s = s.
Proof. intros (_ & H & _). unfold call. rewrite H. reflexivity. Qed.

Lemma unused_startListening env s : unused s -> startListening env s = s.
Proof.
  intros (_ & H & _). unfold startListening, connectedState. rewrite H. reflexivity.
Qed.

Lemma unused_service env e s : unused s -> service env e s = s.
Proof. intros (_ & H & _). unfold service. rewrite H. reflexivity. Qed.

Lemma unused_handleSpeechStart s : unused s -> unused (handleSpeechStart s).
Proof.
  intros H. unfold handleSpeechStart, call. destruct H as (H1 & H2 & H3 & H4 & H5 & H6).
  destruct s. cbn in *. subst. destruct isResponding0; cbn; unfold unused; cbn; auto 10.
Qed.

Lemma unused_handleSpeechEnd s : unused s -> unused (handleSpeechEnd s).
Proof.
  intros H. unfold handleSpeechEnd, call. destruct H as (H1 & H2 & H3 & H4 & H5 & H6).
  destruct s. cbn in *. subst.
  destruct (negb isConversationModeRef0 || negb hasSpeechRef0); [unfold unused; cbn; auto 10|].
  destruct isResponding0; unfold unused; cbn; auto 10.
Qed.

Lemma unused_vadCallbacks signals : forall s, unused s -> unused (vadCallbacks signals s).
Proof.
  induction signals as [|signal signals IH]; intros s H; [exact H|].
  cbn. apply IH. destruct signal; cbn [vadCallback].
  - now apply unused_handleSpeechStart.
  - now apply unused_handleSpeechEnd.
  - destruct s. exact H.
Qed.

Lemma unused_toggle mode responding env s :
  unused s -> unused (toggleConversationMode mode responding env s).
Proof.
  intros H. unfold toggleConversationMode, stopListening, startListening, connectedState, call.
  destruct H as (H1 & H2 & H3 & H4 & H5 & H6).
  destruct s. cbn in *. subst.
  destruct mode, responding; cbn; unfold unused; cbn; auto 10.
Qed.

Lemma unused_handleConnect env s : unused s -> unused (handleConnect env s).
Proof.
  intros H. unfold handleConnect. destruct H as (H1 & H2 & H3 & H4 & H5 & H6).
  destruct s. cbn in *. subst. unfold unused. cbn. auto 10.
Qed.

Lemma unused_step env e s : unused s -> unused (App.step env e s).
Proof.
  intros H. destruct e; cbn [App.step].
  - rewrite unused_service; exact H.
  - destruct H as (H1 & H2 & H3 & H4 & H5 & H6). rewrite H6. unfold unused. auto 10.
  - destruct (AudioProcessor.silenceTimer (audioProcessorRef s)); [|exact H].
    unfold onSilenceTimer.
    pose proof (silenceTimeout_mediaStream now (audioProcessorRef s)) as Hm.
    destruct (AudioProcessor.silenceTimeout now (audioProcessorRef s)) as [audio signals].
    apply unused_vadCallbacks. cbn [fst] in Hm.
    destruct H as (H1 & H2 & H3 & H4 & H5 & H6). destruct s. unfold unused. cbn in *.
    rewrite Hm. auto 10.
  - unfold onPlaybackEnded.
    pose proof (onended_mediaStream (clock env) (audioProcessorRef s)) as Hm.
    destruct (AudioProcessor.onended (clock env) (audioProcessorRef s)) as [audio sources].
    cbn [fst] in Hm.
    destruct H as (H1 & H2 & H3 & H4 & H5 & H6). destruct s. unfold unused. cbn in *.
    rewrite Hm. auto 10.
  - destruct (playbackChecks s) eqn:E; [exact H|].
    assert (unused (setPlaybackChecks n s)) as H' by (destruct s; exact H).
    revert H'. generalize (setPlaybackChecks n s). intros s0 H0.
    unfold checkPlaybackDone.
    destruct (negb (AudioProcessor.isCurrentlyPlaying (audioProcessorRef s0)));
      [|destruct s0; exact H0].
    assert (unused (setIsInterruptedRef false
              (if negb (isInterruptedRef s0) then setIsResponding false s0 else s0))) as H1.
    { destruct (negb (isInterruptedRef s0)); destruct s0; exact H0. }
    revert H1. generalize (setIsInterruptedRef false
      (if negb (isInterruptedRef s0) then setIsResponding false s0 else s0)).
    intros s1 H1. destruct (isConversationModeRef s1); [|exact H1].
    assert (unused (withAudio AudioProcessor.resetVADState (setHasSpeechRef false s1))) as H2.
    { destruct s1. exact H1. }
    destruct (negb (isListening s0)); [|exact H2].
    rewrite unused_startListening; exact H2.
  - destruct (voiceInputWaits s) eqn:E; [exact H|]. unfold resumeVoiceInput.
    destruct (negb (connectedState _)); [destruct s; exact H|].
    apply unused_toggle. destruct s. exact H.
  - apply unused_handleConnect, H.
  - unfold handleDisconnect.
    assert (unused (stopListening
              (setIsConversationMode false (setIsConversationModeRef false s)))) as H'.
    { destruct H as (H1 & H2 & H3 & H4 & H5 & H6). destruct s. unfold unused. cbn in *.
      auto 10. }
    rewrite unused_service by exact H'.
    revert H'. generalize (stopListening
      (setIsConversationMode false (setIsConversationModeRef false s))).
    intros s0 (H1 & H2 & H3 & H4 & H5 & H6). destruct s0. unfold unused. cbn in *. auto 10.
  - unfold handleVoiceInput.
    assert (connectedState s = false) as Hc.
    { unfold connectedState. destruct H as (_ & -> & _). reflexivity. }
    rewrite Hc. cbn [negb].
    pose proof (unused_handleConnect env s H) as H'.
    destruct (handleConnect env s). exact H'.
  - unfold handleInterrupt, call.
    destruct H as (H1 & H2 & H3 & H4 & H5 & H6). destruct s. unfold unused. cbn in *.
    subst. cbn. auto 10.
Qed.

Lemma unused_run events : forall s, unused s -> unused (App.run events s).
Proof.
  induction events as [|[env e] events IH]; intros s H; [exact H|].
  cbn. apply IH, unused_step, H.
Qed.

Lemma text_delta_step env s rt delta :
  s.(realtimeRef) = Some rt -> s.(isInterruptedRef) = false ->
  let s' := App.step env (delivered (response_text_delta delta)) s in
  s'.(realtimeRef) = Some rt /\ s'.(isInterruptedRef) = false /\
  s'.(streamingTextRef) = String.append s.(streamingTextRef) delta /\
  s'.(streamingText) = s'.(streamingTextRef) /\ s'.(isResponding) = true /\
  s'.(messages) = s.(messages) /\ s'.(sent) = s.(sent).
Proof.
  intros Hr Hf. cbv zeta. unfold delivered. cbn [App.step]. unfold service. rewrite Hr.
  cbn. destruct s. cbn in Hr, Hf |- *. subst. cbn. auto 10.
Qed.

End WithPlatform.
End CoordinatorFacts.

(* ===================================================================== *)
(** * The properties of the specification *)
(* ===================================================================== *)

Import AudioProcessor.

(** ** Voice activity detection *)




(** ** Playback *)

(** C6.  The player keeps the scheduling rule, and yet leaves a gap before
    a chunk that had to wait.  On every run of enqueued chunks and [ended]
    events, from any state, each source starts at the later of the output
    clock read when it is scheduled and the end of the source before it,
    the end of the last one is the new [nextPlayTime], no source starts in
    the past and none overlaps the one before it.  But a chunk is
    scheduled on arrival only when the player is idle.  Let a first chunk
    arrive on an idle player with an empty queue when the clock reads
    [clock], and a second one at any time [arrival] before the first has
    ended.  The first is started at once, at the later of [clock] and
    [nextPlayTime], with its own duration.  The second starts nothing on
    arrival: it waits in the queue, and is started by the [ended] event of
    the first, at the later of the clock [ended] read by that handler and
    the end of the first.  An [ended] event comes after the end of its
    source: the second chunk then starts at [ended], after a gap, however
    early it arrived. *)
Theorem queued_chunk_waits_for_ended_event {platform : Base64}
    (first second : string) (chunk1 chunk2 : Float32Array) (clock arrival ended : Q)
    (this : t) :
  this.(isPlaying) = false ->
  this.(playbackQueue) = [] ->
  base64PCM16ToFloat32 first = Some chunk1 -> PlaybackSpec.playable chunk1 = true ->
  base64PCM16ToFloat32 second = Some chunk2 -> PlaybackSpec.playable chunk2 = true ->
  let source1 := {|
    currentTime := clock;
    startTime := Qmax clock this.(nextPlayTime);
    duration := PlaybackSpec.chunkDuration chunk1
  |} in
  let source2 := {|
    currentTime := ended;
    startTime := Qmax ended (PlaybackSpec.endTime source1);
    duration := PlaybackSpec.chunkDuration chunk2
  |} in
  let started := playbackRun [Enqueue first clock] this in
  let queued := playbackRun [Enqueue first clock; Enqueue second arrival] this in
  let resumed :=
    playbackRun [Enqueue first clock; Enqueue second arrival; Ended ended] this in
  (snd started = [source1] /\
   (fst started).(nextPlayTime) = PlaybackSpec.endTime source1 /\
   (fst started).(isPlaying) = true /\
   (fst started).(playbackQueue) = []) /\
  (snd queued = [source1] /\
   (fst queued).(nextPlayTime) = PlaybackSpec.endTime source1 /\
   (fst queued).(isPlaying) = true /\
   (fst queued).(playbackQueue) = [chunk2]) /\
  (snd resumed = [source1; source2] /\
   (fst resumed).(nextPlayTime) = PlaybackSpec.endTime source2 /\
   (fst resumed).(isPlaying) = true /\
   (fst resumed).(playbackQueue) = []) /\
  ((PlaybackSpec.endTime source1 < ended)%Q ->
   (source2.(startTime) == ended)%Q /\
   (PlaybackSpec.endTime source1 < source2.(startTime))%Q) /\
  ((ended <= PlaybackSpec.endTime source1)%Q ->
   (source2.(startTime) == PlaybackSpec.endTime source1)%Q) /\
  (forall events state,
     let sources := snd (playbackRun events state) in
     PlaybackSpec.chained state.(nextPlayTime) sources /\
     (fst (playbackRun events state)).(nextPlayTime)
     = PlaybackSpec.lastEnd state.(nextPlayTime) sources /\
     Forall (fun s => (s.(currentTime) <= s.(startTime))%Q) sources /\
     PlaybackSpec.no_overlap state.(nextPlayTime) sources).
Proof.
  intros Hidle Hqueue Hfirst Hplay1 Hsecond Hplay2. cbv zeta.
  unfold PlaybackSpec.playable in Hplay1, Hplay2.
  apply negb_true_iff in Hplay1, Hplay2.
  set (source1 := {| currentTime := clock;
                     startTime := Qmax clock this.(nextPlayTime);
                     duration := PlaybackSpec.chunkDuration chunk1 |}).
  set (source2 := {| currentTime := ended;
                     startTime := Qmax ended (PlaybackSpec.endTime source1);
                     duration := PlaybackSpec.chunkDuration chunk2 |}).
  pose (playing := setPlayback [] true (PlaybackSpec.endTime source1) (Some source1)
                     (setDevices true this.(mediaStream) this)).
  pose (waiting := setPlayback [chunk2] true (PlaybackSpec.endTime source1) (Some source1)
                     playing).
  pose (final := setPlayback [] true (PlaybackSpec.endTime source2) (Some source2)
                     playing).
  assert (playAudioChunk first clock this = (playing, [source1])) as E1.
  { unfold playAudioChunk. cbv zeta. rewrite Hfirst.
    cbn [isPlaying setPlayback setDevices playbackQueue nextPlayTime currentSource].
    rewrite Hidle, Hqueue. unfold playNextChunk.
    cbn [audioContext playbackQueue setPlayback setDevices app nextPlayTime
         currentSource mediaStream].
    rewrite Hplay1. reflexivity. }
  assert (playAudioChunk second arrival playing = (waiting, [])) as E2.
  { unfold playAudioChunk. cbv zeta. rewrite Hsecond. reflexivity. }
  assert (onended ended waiting = (final, [source2])) as E3.
  { unfold onended, playNextChunk.
    cbn [audioContext playbackQueue setPlayback setDevices app nextPlayTime
         currentSource mediaStream isPlaying waiting playing].
    rewrite Hplay2. reflexivity. }
  cbn [playbackRun playbackStep]. rewrite E1, E2, E3.
  cbn [fst snd app].
  split; [repeat split|]. split; [repeat split|]. split; [repeat split|].
  assert (startTime source2 = Qmax ended (PlaybackSpec.endTime source1)) as Es
    by reflexivity.
  split; [|split].
  - intros Hlate. rewrite Es.
    rewrite (Q.max_l ended (PlaybackSpec.endTime source1)) by (apply Qlt_le_weak, Hlate).
    split; [reflexivity|exact Hlate].
  - intros Hearly. rewrite Es. apply Q.max_r, Hearly.
  - intros events state.
    destruct (PlaybackFacts.playbackRun_rule events state) as [Hc Hn].
    split; [exact Hc|]. split; [exact Hn|].
    split; [exact (PlaybackFacts.chained_not_in_past _ _ Hc)|].
    exact (PlaybackFacts.chained_no_overlap _ _ Hc).
Qed.

(** Two chunks of 2400 samples (0.1 s each).  The first arrives at clock 5
    on a new player and plays from 5 to 5.1.  The second arrives at 5.02,
    well before the first has ended, and the [ended] event of the first
    comes when the clock reads 5.105: the second starts at 5.105, not at
    5.1. *)
Lemma queued_chunk_waits_for_ended_event_witness :
  let chunk := float32ToBase64PCM16 (repeat (Num 0) 2400) in
  let events := [Enqueue chunk 5; Enqueue chunk 5.02; Ended 5.105] in
  Forall2 (fun s start => (s.(startTime) == start)%Q)
    (snd (playbackRun events new)) [5; 5.105]%Q /\
  Forall2 (fun s length => (s.(duration) == length)%Q)
    (snd (playbackRun events new)) [0.1; 0.1]%Q /\
  snd (playbackRun [Enqueue chunk 5; Enqueue chunk 5.02] new)
  = snd (playbackRun [Enqueue chunk 5] new) /\
  ((fst (playbackRun events new)).(nextPlayTime) == 5.205)%Q.
Proof.
  cbv zeta.
  assert (base64PCM16ToFloat32 (float32ToBase64PCM16 (repeat (Num 0) 2400))
          = Some (repeat (Num 0) 2400)) as Hdecoded.
  { rewrite CodecFacts.decode_of_encode, map_repeat. reflexivity. }
  destruct (queued_chunk_waits_for_ended_event
              (float32ToBase64PCM16 (repeat (Num 0) 2400))
              (float32ToBase64PCM16 (repeat (Num 0) 2400))
              (repeat (Num 0) 2400) (repeat (Num 0) 2400) 5 5.02 5.105 new
              eq_refl eq_refl Hdecoded eq_refl Hdecoded eq_refl)
    as ((Hstarted & _) & (Hqueued & _) & (Hresumed & Hnext & _) & _).
  rewrite Hresumed, Hqueued, Hstarted, Hnext.
  split; [|split; [|split]].
  - repeat constructor; vm_compute; reflexivity.
  - repeat constructor; vm_compute; reflexivity.
  - reflexivity.
  - vm_compute. reflexivity.
Defined.

(** ** PCM16 codec *)

(** C10.  For every sample, NaN and the infinities included, the encoder
    clamps to [-1, 1] before it scales (a negative value by 0x8000, another
    by 0x7fff): the clamped value is NaN (for a NaN sample, written as 0)
    or lies in [-1, 1]; the scaled value then lies in [-32768, 32767] and
    the 16-bit integer written is its truncation, with no wrap-around.  The
    encoding of every array is defined and holds two bytes per sample, the
    16-bit integers of the samples. *)
Theorem encoder_total_in_range {platform : Base64} (float32Array : Float32Array) :
  (forall x,
     (-32768 <= sampleToInt16 x <= 32767) /\
     match clamp x with
     | Num s =>
         (-1 <= s <= 1)%Q /\
         exists v,
           scale (Num s) = Num v /\
           v = (if Qlt_le_dec s 0 then s * 0x8000 else s * 0x7fff)%Q /\
           (-32768 <= v <= 32767)%Q /\
           sampleToInt16 x = Number.truncate v
     | NaN => x = NaN /\ sampleToInt16 x = 0
     | PosInfinity | NegInfinity => False
     end) /\
  exists binary,
    atob (float32ToBase64PCM16 float32Array) = Some binary /\
    Int16Array (list_byte_of_string binary) = Some (map sampleToInt16 float32Array).
Proof.
  split.
  - intros x. split; [apply CodecFacts.sampleToInt16_range|].
    destruct (CodecFacts.clamp_spec x) as [[-> E]|[s [E Hs]]].
    + rewrite E. split; reflexivity.
    + rewrite E. split; [exact Hs|].
      eexists. split; [apply CodecFacts.scale_Num|]. split; [reflexivity|].
      destruct (CodecFacts.scaled_truncation s Hs) as (Hv & _ & _ & _).
      split; [exact Hv|]. apply (CodecFacts.sampleToInt16_Num x s E).
  - eexists. unfold float32ToBase64PCM16. cbv zeta.
    rewrite atob_btoa. split; [reflexivity|].
    rewrite CodecFacts.fromCharCodeChunks_all by (cbn; lia).
    rewrite list_byte_of_string_of_list_byte.
    rewrite flat_map_concat_map, <- (map_map (fun x => scale (clamp x)) setInt16).
    rewrite <- flat_map_concat_map, CodecFacts.Int16Array_setInt16.
    rewrite map_map. reflexivity.
Qed.

(** C9, as the specification words it, fails: a float the decoder produces
    is not in general the sample divided by 32767, for the quotient is
    stored in a [Float32Array].  The bytes 00 80 hold the sample -32768,
    which is read as -32769/32768; -32768/32767 is not a single. *)
Lemma decoded_sample_is_rounded :
  (exists binary,
     atob "AIA=" = Some binary /\
     Int16Array (list_byte_of_string binary) = Some [-32768]) /\
  base64PCM16ToFloat32 "AIA=" = Some [Num (-32769 # 32768)] /\
  ~ (-32769 # 32768 == inject_Z (-32768) / 0x7fff)%Q.
Proof.
  split; [eexists; split; vm_compute; reflexivity|].
  split; [vm_compute; reflexivity|]. discriminate.
Qed.

(** C9, amended.  Whenever the decoder returns, the input holds an even
    number of bytes, the little-endian signed 16-bit samples, and the
    decoder produces one float per sample: the sample divided by 32767 as
    the code rounds it (to a double by the division, to a single by the
    store), which is within 2^-22 of the exact quotient.  Every float lies
    in [-32768/32767, 1], and a float is below -1 exactly when its sample is
    -32768. *)
Theorem decoder_output_range {platform : Base64} (base64 : string)
    (float32 : Float32Array) :
  base64PCM16ToFloat32 base64 = Some float32 ->
  exists binary pcm16,
    atob base64 = Some binary /\
    Int16Array (list_byte_of_string binary) = Some pcm16 /\
    Forall2 (fun n y =>
      -32768 <= n <= 32767 /\
      y = Math.fround (Number.div (Num (inject_Z n)) (Num 0x7fff)) /\
      exists q,
        y = Num q /\
        (Qabs (q - inject_Z n / 0x7fff) <= 1 # 4194304)%Q /\
        (-32768 # 32767 <= q <= 1)%Q /\
        ((q < -1)%Q <-> n = -32768)) pcm16 float32.
Proof.
  intros H. unfold base64PCM16ToFloat32 in H.
  destruct (atob base64) as [binary|]; [|discriminate].
  destruct (Int16Array (list_byte_of_string binary)) as [pcm16|] eqn:E; [|discriminate].
  injection H as <-. exists binary, pcm16.
  split; [reflexivity|]. split; [exact E|].
  pose proof (CodecFacts.Int16Array_range _ _ E) as Hr. clear E.
  induction Hr as [|n pcm16 Hn Hr IH]; [constructor|].
  cbn [map]. constructor; [|exact IH].
  split; [exact Hn|]. split; [reflexivity|].
  exists (CodecSpec.decoded n). split; [apply CodecFacts.int16ToSample_Num, Hn|].
  pose proof (CodecFacts.decoded_error n Hn) as He.
  pose proof (CodecFacts.quotient_bound n Hn) as Hb.
  destruct (CodecFacts.decoded_range n Hn) as [[Hlo Hhi] Hmid].
  fold (CodecSpec.quotient n).
  split; [|split; [split|split]].
  - pose proof (Qabs_nonneg (CodecSpec.quotient n)).
    apply Qle_trans with (Qabs (CodecSpec.quotient n) * (1 # 8388608))%Q; [exact He|].
    apply Qle_trans with (2 * (1 # 8388608))%Q; [|discriminate].
    apply Qmult_le_compat_r; [exact Hb|discriminate].
  - apply Qle_trans with (-32769 # 32768)%Q; [discriminate|exact Hlo].
  - exact Hhi.
  - intros Hq. destruct (Z.eq_dec n (-32768)) as [->|Hne]; [reflexivity|].
    exfalso. assert (-1 <= CodecSpec.decoded n)%Q as H by (apply Hmid; lia).
    apply (Qlt_not_le _ _ Hq H).
  - intros ->. vm_compute. reflexivity.
Qed.

Lemma decoder_output_range_witness :
  exists binary pcm16,
    atob "AID/fw==" = Some binary /\
    Int16Array (list_byte_of_string binary) = Some pcm16 /\
    Forall2 (fun n y =>
      -32768 <= n <= 32767 /\
      y = Math.fround (Number.div (Num (inject_Z n)) (Num 0x7fff)) /\
      exists q,
        y = Num q /\
        (Qabs (q - inject_Z n / 0x7fff) <= 1 # 4194304)%Q /\
        (-32768 # 32767 <= q <= 1)%Q /\
        ((q < -1)%Q <-> n = -32768)) pcm16 [Num (-32769 # 32768); Num 1].
Proof.
  apply (decoder_output_range "AID/fw=="). vm_compute. reflexivity.
Defined.

(** C5, as the specification words it, fails: the round trip is not
    idempotent.  The single 3/65536 is written as 1 and read back as the
    single nearest 1/32767, 32769/2^30, which is written as 0 and read back
    as 0.  The single -32767/32768 is written as -32767 and read back as
    -1, which is written as -32768 and read back as -32769/32768. *)
Lemma round_trip_not_idempotent :
  let roundTrip samples := base64PCM16ToFloat32 (float32ToBase64PCM16 samples) in
  CodecSpec.single (Num (3 # 65536)) /\
  roundTrip [Num (3 # 65536)] = Some [Num (32769 # 1073741824)] /\
  roundTrip [Num (32769 # 1073741824)] = Some [Num 0] /\
  ~ (32769 # 1073741824 == 0)%Q /\
  CodecSpec.single (Num (-32767 # 32768)) /\
  roundTrip [Num (-32767 # 32768)] = Some [Num (-1)] /\
  roundTrip [Num (-1)] = Some [Num (-32769 # 32768)] /\
  ~ (-1 == -32769 # 32768)%Q.
Proof.
  cbv zeta. repeat split; try (vm_compute; reflexivity); discriminate.
Qed.

(** C5, amended.  For every array of singles (NaN and the infinities
    included), decoding its encoding gives one float per sample: a value
    within 1/32767 of the clamped sample, and 0 for a NaN sample.  The
    floats read back are singles again, so a second round trip reproduces
    them within 1/32767 in turn; it does not reproduce them exactly. *)
Theorem codec_round_trip {platform : Base64} (float32Array : Float32Array) :
  Forall CodecSpec.single float32Array ->
  exists once,
    base64PCM16ToFloat32 (float32ToBase64PCM16 float32Array) = Some once /\
    Forall2 (fun x y =>
      match clamp x with
      | Num s => exists q, y = Num q /\ (Qabs (q - s) <= 1 # 32767)%Q
      | _ => y = Num 0
      end) float32Array once /\
    Forall CodecSpec.single once.
Proof.
  intros Hs. eexists. split; [apply CodecFacts.decode_of_encode|]. split.
  - induction Hs as [|x xs Hx Hs IH]; [constructor|].
    cbn [map]. constructor; [|exact IH].
    destruct (CodecFacts.clamp_spec x) as [[-> E]|[s [E _]]].
    + rewrite E. reflexivity.
    + rewrite E. exact (CodecFacts.sample_round_trip_error x s Hx E).
  - apply Forall_map, Forall_forall. intros x _.
    apply CodecFacts.int16ToSample_single, CodecFacts.sampleToInt16_range.
Qed.

Lemma codec_round_trip_witness :
  Forall CodecSpec.single [Num (3 # 65536); Num (-32767 # 32768); Num 2; NaN] /\
  exists once,
    base64PCM16ToFloat32
      (float32ToBase64PCM16 [Num (3 # 65536); Num (-32767 # 32768); Num 2; NaN])
    = Some once /\
    Forall2 (fun x y =>
      match clamp x with
      | Num s => exists q, y = Num q /\ (Qabs (q - s) <= 1 # 32767)%Q
      | _ => y = Num 0
      end) [Num (3 # 65536); Num (-32767 # 32768); Num 2; NaN] once /\
    Forall CodecSpec.single once.
Proof.
  assert (Forall CodecSpec.single [Num (3 # 65536); Num (-32767 # 32768); Num 2; NaN]) as H
    by (repeat constructor).
  split; [exact H|]. exact (codec_round_trip _ H).
Defined.

(** ** Transport session *)

(** C3.  Take a session with no reconnect attempt counted and no
    [disconnect()] pending, and a run with neither a [disconnect()] call
    nor a readiness event (so its closes are consecutive failures).  With
    [N] socket closes in the run, exactly [min N 3] reconnect timeouts are
    armed, each with a delay of 2000 ms and each by the handler of a close;
    once three are counted a further close arms none and leaves the
    session disconnected.  And whatever happens after a [disconnect()]
    call, the next close arms no reconnect timeout. *)
Theorem reconnect_bound (events : list RealtimeService.Event) (this : RealtimeService.t) :
  this.(RealtimeService.reconnectAttempts) = 0 ->
  this.(RealtimeService.manualDisconnect) = false ->
  SessionSpec.unexpected this.(RealtimeService.useProxy) events = true ->
  let N := SessionSpec.closes events in
  let attempts := Z.min N RealtimeService.maxReconnectAttempts in
  let final := fst (RealtimeService.run events this) in
  SessionSpec.reconnectDelays (snd (RealtimeService.run events this))
  = repeat RealtimeService.RECONNECT_DELAY (Z.to_nat attempts) /\
  RealtimeService.RECONNECT_DELAY = 2000 /\
  final.(RealtimeService.reconnectAttempts) = attempts /\
  (forall e s delay,
     In (RealtimeService.SetTimeoutConnect delay) (snd (RealtimeService.step e s)) ->
     e = RealtimeService.SocketClose) /\
  (RealtimeService.maxReconnectAttempts <= N ->
   final.(RealtimeService.isConnected) = false /\
   SessionSpec.reconnectDelays (snd (RealtimeService.onclose final)) = [] /\
   (fst (RealtimeService.onclose final)).(RealtimeService.isConnected) = false) /\
  (forall that between,
     forallb (fun e => negb (SessionSpec.isClose e)) between = true ->
     let closing :=
       fst (RealtimeService.run between (fst (RealtimeService.disconnect that))) in
     SessionSpec.reconnectDelays (snd (RealtimeService.onclose closing)) = []).
Proof.
  intros Ha Hm Hu. cbv zeta.
  destruct (RealtimeFacts.run_unexpected events this Hu Hm) as (H1 & H2 & H3 & H4).
  { rewrite Ha. unfold RealtimeService.maxReconnectAttempts. lia. }
  cbv zeta in H1, H2. rewrite Ha, Z.add_0_l, Z.sub_0_r in *.
  split; [exact H2|]. split; [reflexivity|]. split; [exact H1|].
  split; [apply RealtimeFacts.reconnect_armed_by_close|]. split.
  - intros HN.
    assert (0 < SessionSpec.closes events) as Hpos
      by (unfold RealtimeService.maxReconnectAttempts in HN; lia).
    split; [apply H4; right; exact Hpos|].
    destruct (RealtimeFacts.onclose_exhausted (fst (RealtimeService.run events this)) H3)
      as [Hx Hy].
    { rewrite H1. lia. }
    rewrite Hx. auto.
  - intros that between Hb.
    destruct (RealtimeFacts.onclose_manual
                (fst (RealtimeService.run between (fst (RealtimeService.disconnect that)))))
      as (Hx & _).
    { apply RealtimeFacts.run_keeps_manualDisconnect; [exact Hb|].
      apply RealtimeFacts.disconnect_sets_flag. }
    rewrite Hx. reflexivity.
Qed.

(** A session made ready through the relay loses its socket; every
    reconnection fails.  Five closes arm three reconnect timeouts. *)
Lemma reconnect_bound_witness :
  let ready_session :=
    fst (RealtimeService.run
           [RealtimeService.CallConnect; RealtimeService.SocketOpen;
            RealtimeService.SocketMessage (Some RealtimeService.proxy_connected)]
           (RealtimeService.new None)) in
  let events :=
    [RealtimeService.SocketClose;
     RealtimeService.ReconnectTimer; RealtimeService.SocketError;
     RealtimeService.SocketClose;
     RealtimeService.ReconnectTimer; RealtimeService.SocketOpen;
     RealtimeService.SocketClose;
     RealtimeService.ReconnectTimer; RealtimeService.SocketError;
     RealtimeService.SocketClose; RealtimeService.SocketClose] in
  SessionSpec.closes events = 5 /\
  SessionSpec.reconnectDelays (snd (RealtimeService.run events ready_session))
  = [2000; 2000; 2000] /\
  (fst (RealtimeService.run events ready_session)).(RealtimeService.isConnected) = false.
Proof.
  cbv zeta.
  match goal with |- context [RealtimeService.run ?events ?session] =>
    match events with
    | RealtimeService.SocketClose :: _ =>
        pose proof (reconnect_bound events session eq_refl eq_refl eq_refl) as H
    end
  end.
  cbv zeta in H. destruct H as (H1 & _ & _ & _ & H5 & _).
  split; [reflexivity|]. split; [exact H1|].
  apply H5. vm_compute. discriminate.
Defined.

(** C4 holds for a session that goes through the relay, and fails for one
    that connects directly ([useProxy: false]): [onopen] makes the session
    ready as the handler of [proxy.connected] does, but does not start the
    heartbeat.  In a direct session, in which no [proxy.connected] message
    arrives, no keep-alive is ever sent, however long the session stays
    ready. *)
Theorem direct_session_sends_no_keep_alive (events : list RealtimeService.Event) :
  SessionSpec.unacknowledged events = true ->
  SessionSpec.keepAlives
    (snd (RealtimeService.run events (RealtimeService.new (Some false)))) = [] /\
  (fst (RealtimeService.run events (RealtimeService.new (Some false))))
    .(RealtimeService.heartbeatInterval) = None.
Proof.
  intros H. apply RealtimeFacts.run_no_interval; [exact H|reflexivity].
Qed.

(** A direct session that is ready (connected, socket open, session
    configured) and idle for three heartbeat periods. *)
Lemma direct_session_sends_no_keep_alive_witness :
  let events :=
    [RealtimeService.CallConnect; RealtimeService.SocketOpen;
     RealtimeService.HeartbeatTimer; RealtimeService.HeartbeatTimer;
     RealtimeService.HeartbeatTimer] in
  let final := fst (RealtimeService.run events (RealtimeService.new (Some false))) in
  (final.(RealtimeService.isConnected) = true /\
   final.(RealtimeService.ws) = Some RealtimeService.OPEN /\
   snd (RealtimeService.run events (RealtimeService.new (Some false)))
   = [RealtimeService.NewWebSocket;
      RealtimeService.Send RealtimeService.session_update;
      RealtimeService.Invoke RealtimeService.onConnected;
      RealtimeService.Resolve RealtimeService.Owner]) /\
  SessionSpec.keepAlives
    (snd (RealtimeService.run events (RealtimeService.new (Some false)))) = [] /\
  final.(RealtimeService.heartbeatInterval) = None.
Proof.
  cbv zeta. split; [vm_compute; auto|].
  apply direct_session_sends_no_keep_alive. reflexivity.
Defined.

(** ** Relay *)

(** C8.  A connection whose query has no [apiKey] parameter is closed with
    code 4001 and reason "Missing API Key", and that is all the handler
    does: no upstream socket is created. *)
Theorem missing_api_key (query : gmap string Proxy.QueryValue) :
  query !! "apiKey" = None ->
  Proxy.onConnection query = [Proxy.ClientClose 4001 "Missing API Key"] /\
  forall url authorization,
    ~ In (Proxy.NewUpstreamWebSocket url authorization) (Proxy.onConnection query).
Proof.
  intros H. unfold Proxy.onConnection. cbv zeta. rewrite H. cbn [Proxy.truthy negb].
  split; [reflexivity|]. intros url authorization [E|[]]. discriminate.
Qed.

Lemma missing_api_key_witness :
  let query : gmap string Proxy.QueryValue :=
    {[ "model" := Proxy.QString "abab6.5s-chat" ]} in
  Proxy.onConnection query = [Proxy.ClientClose 4001 "Missing API Key"] /\
  forall url authorization,
    ~ In (Proxy.NewUpstreamWebSocket url authorization) (Proxy.onConnection query).
Proof.
  cbv zeta. apply missing_api_key. reflexivity.
Defined.

(** ** Coordinator *)

(** C2, as the specification words it, fails: the flag is cleared not only
    by the next [response.created] but also by the playback check armed by
    [response.audio.done], once the player is idle.  A response is
    interrupted by hand; the stale [response.audio.done] arrives and its
    check runs; the stale text delta that follows is accumulated, with no
    [response.created] in between. *)
Lemma stale_delta_after_playback_check :
  let env := {| App.media := Granted; App.clock := 0 |} in
  let interrupted :=
    App.run
      [(env, App.ClickConnect);
       (env, App.Service RealtimeService.SocketOpen);
       (env, CoordinatorSpec.delivered RealtimeService.proxy_connected);
       (env, CoordinatorSpec.delivered RealtimeService.response_created);
       (env, CoordinatorSpec.delivered (RealtimeService.response_text_delta "Hel"));
       (env, App.ClickInterrupt)]
      (App.mount "key") in
  let final :=
    App.run
      [(env, CoordinatorSpec.delivered RealtimeService.response_audio_done);
       (env, App.PlaybackCheck);
       (env, CoordinatorSpec.delivered (RealtimeService.response_text_delta "lo"))]
      interrupted in
  interrupted.(App.isInterruptedRef) = true /\
  interrupted.(App.streamingTextRef) = "" /\
  final.(App.isInterruptedRef) = false /\
  final.(App.streamingTextRef) = "lo" /\
  final.(App.streamingText) = "lo".
Proof. vm_compute. auto. Qed.

(** C2, amended.  While the interruption flag is set, a delivered text
    delta and a delivered audio delta change nothing: no text is
    accumulated, nothing is queued for playback.  The flag is cleared by
    the next [response.created], and otherwise only by a playback check
    (armed by [response.audio.done]) that finds the player idle.  Barge-in
    and the interrupt button set the flag. *)
Theorem stale_event_suppression {platform : Base64} (env : App.Environment) (s : App.t) :
  s.(App.isInterruptedRef) = true ->
  (forall delta,
     App.step env (CoordinatorSpec.delivered (RealtimeService.response_text_delta delta)) s
     = s) /\
  (forall delta,
     App.step env (CoordinatorSpec.delivered (RealtimeService.response_audio_delta delta)) s
     = s) /\
  (forall e,
     (App.step env e s).(App.isInterruptedRef) = false ->
     e = CoordinatorSpec.delivered RealtimeService.response_created \/
     (e = App.PlaybackCheck /\
      isCurrentlyPlaying s.(App.audioProcessorRef) = false /\
      s.(App.playbackChecks) <> O)) /\
  (s.(App.realtimeRef) <> None ->
   (App.step env (CoordinatorSpec.delivered RealtimeService.response_created) s)
     .(App.isInterruptedRef) = false) /\
  (forall s0, (App.handleInterrupt s0).(App.isInterruptedRef) = true) /\
  (forall s0, s0.(App.isResponding) = true ->
              (App.handleSpeechStart s0).(App.isInterruptedRef) = true).
Proof.
  intros H.
  split; [intros delta; apply AppFacts.stale_delta_dropped; [exact H|eauto]|].
  split; [intros delta; apply AppFacts.stale_delta_dropped; [exact H|eauto]|].
  split; [|split; [apply AppFacts.response_created_clears|split]].
  - intros e Hclear.
    destruct (AppFacts.event_cases e) as [Hc|[[-> Hp]|Hother]].
    + left. exact Hc.
    + right. split; [reflexivity|].
      destruct (isCurrentlyPlaying (App.audioProcessorRef s)) eqn:Eplay.
      * pose proof (AppFacts.flagged_step env App.PlaybackCheck s H ltac:(discriminate)
                      ltac:(intros _; exact Eplay)) as Hk.
        unfold CoordinatorSpec.flagged in Hk. congruence.
      * split; [reflexivity|]. intros Hz. cbn [App.step] in Hclear.
        rewrite Hz in Hclear. congruence.
    + destruct Hother as [Hne Hnp].
      pose proof (AppFacts.flagged_step env e s H Hne
                    ltac:(intros E; contradiction)) as Hk.
      unfold CoordinatorSpec.flagged in Hk. congruence.
  - intros s0. unfold App.handleInterrupt, App.call. destruct s0. cbn.
    destruct realtimeRef; reflexivity.
  - intros s0 Hr. unfold App.handleSpeechStart, App.call. destruct s0. cbn in *.
    rewrite Hr. cbn. destruct realtimeRef; reflexivity.
Qed.

Lemma stale_event_suppression_witness :
  let env := {| App.media := Granted; App.clock := 0 |} in
  let interrupted :=
    App.run
      [(env, App.ClickConnect);
       (env, App.Service RealtimeService.SocketOpen);
       (env, CoordinatorSpec.delivered RealtimeService.proxy_connected);
       (env, CoordinatorSpec.delivered RealtimeService.response_created);
       (env, CoordinatorSpec.delivered (RealtimeService.response_text_delta "Hel"));
       (env, App.ClickInterrupt)]
      (App.mount "key") in
  App.step env (CoordinatorSpec.delivered (RealtimeService.response_text_delta "lo"))
    interrupted = interrupted /\
  App.step env (CoordinatorSpec.delivered (RealtimeService.response_audio_delta "AAA="))
    interrupted = interrupted.
Proof.
  cbv zeta.
  match goal with |- App.step ?env _ ?s = _ /\ _ =>
    destruct (stale_event_suppression env s eq_refl) as (H1 & H2 & _)
  end.
  split; [apply H1|apply H2].
Defined.

(** C7 holds for [startListening] alone and fails for the attempt made
    through the voice button.  On a connected session that is not in
    conversation mode, when the microphone is refused, [startListening]
    stores the message, but [handleVoiceInput] goes on to clear it
    ([setError(null)]) and has set the conversation-mode flag before the
    attempt: the error ends unset and the mode flag set, while the
    session is not listening. *)
Theorem capture_failure_through_voice_input {platform : Base64}
    (env : App.Environment) (s : App.t) (message : string) :
  env.(App.media) = Rejected message ->
  App.connectedState s = true ->
  s.(App.isConversationMode) = false ->
  s.(App.isListening) = false ->
  let attempted := App.startListening env s in
  let s' := App.handleVoiceInput env s in
  (attempted.(App.error) = Some (String.append "无法访问麦克风: " message) /\
   attempted.(App.isConversationMode) = false /\
   attempted.(App.isListening) = false) /\
  (s'.(App.error) = None /\
   s'.(App.isConversationMode) = true /\
   s'.(App.isConversationModeRef) = true /\
   s'.(App.isListening) = false).
Proof.
  intros Hm Hc Hmode Hl. cbv zeta. split.
  - destruct (AppFacts.startListening_rejected env s message Hm Hc) as (H1 & H2 & _ & H4 & _).
    rewrite H1, H2, H4. auto.
  - unfold App.handleVoiceInput. rewrite Hc, Hmode. cbn [negb].
    destruct (AppFacts.toggle_rejected env s message (App.isResponding s) Hm Hc)
      as (H1 & H2 & H3 & H4).
    rewrite H1, H2, H3, H4. auto.
Qed.

Lemma capture_failure_through_voice_input_witness :
  let granted := {| App.media := Granted; App.clock := 0 |} in
  let refused := {| App.media := Rejected "Permission denied"; App.clock := 0 |} in
  let connected_session :=
    App.run
      [(granted, App.ClickConnect);
       (granted, App.Service RealtimeService.SocketOpen);
       (granted, CoordinatorSpec.delivered RealtimeService.proxy_connected)]
      (App.mount "key") in
  let attempted := App.startListening refused connected_session in
  let s' := App.handleVoiceInput refused connected_session in
  (attempted.(App.error) = Some "无法访问麦克风: Permission denied" /\
   attempted.(App.isConversationMode) = false /\
   attempted.(App.isListening) = false) /\
  (s'.(App.error) = None /\
   s'.(App.isConversationMode) = true /\
   s'.(App.isConversationModeRef) = true /\
   s'.(App.isListening) = false).
Proof.
  cbv zeta.
  match goal with |- context [App.startListening ?env ?s] =>
    exact (capture_failure_through_voice_input env s "Permission denied"
             eq_refl eq_refl eq_refl eq_refl)
  end.
Defined.

(* ===================================================================== *)
(** * Further properties of the code *)
(* ===================================================================== *)

(** ** Resampling *)

(** X2.  When the input rate is [k] times the output rate, [k] a positive
    integer, [resample] keeps every [k]-th sample of a finite input: output
    sample [i] is input sample [i * k], with [(2 n + k) / (2 k)] samples
    for [n] input samples (the quotient rounded down).  With equal rates
    the output is the input. *)
Theorem resample_integer_ratio (inputData : Float32Array) (rin rout : Q) (k : Z) :
  0 < k -> (0 < rout)%Q -> (rin == inject_Z k * rout)%Q ->
  Forall SampleSpec.finite inputData ->
  let outputLength := (2 * Z.of_nat (List.length inputData) + k) / (2 * k) in
  Forall2 SampleSpec.same (resample inputData rin rout)
    (map (fun i => get inputData (i * k)) (seqZ 0 outputLength)) /\
  Forall2 SampleSpec.same (resample inputData rout rout) inputData.
Proof.
  intros Hk Hout Hrin Hfin. cbv zeta. split.
  - apply ResampleFacts.resample_decimates; assumption.
  - apply ResampleFacts.resample_identity; assumption.
Qed.

(** Five samples at 48 kHz brought to 24 kHz: the first, third and fifth. *)
Lemma resample_integer_ratio_witness :
  let inputData := [Num 1; Num 2; Num 3; Num 4; Num 5] in
  Forall2 SampleSpec.same (resample inputData 48000 24000) [Num 1; Num 3; Num 5] /\
  Forall2 SampleSpec.same (resample inputData 24000 24000) inputData.
Proof.
  cbv zeta.
  apply (resample_integer_ratio [Num 1; Num 2; Num 3; Num 4; Num 5] 48000 24000 2);
    [reflexivity|reflexivity|reflexivity|].
  repeat constructor; eexists; reflexivity.
Defined.

(** ** Voice activity detection *)

(** X3.  Every frame reports its volume once, before anything else, as
    [min (10 * rms) 1]; the only other signal a frame can emit is a speech
    start.  For a non-negative RMS the volume lies in [0, 1].  A frame
    whose RMS is NaN (a frame of no samples: 0/0) reports the volume NaN
    and leaves the detector as it is. *)
Theorem frame_reports_volume (rms : number) (now : Z) (this : t) :
  let volume := Math.min (Number.mul rms (Num 10)) (Num 1) in
  (snd (processVAD rms now this) = [onVolumeChange volume] \/
   snd (processVAD rms now this) = [onVolumeChange volume; onSpeechStart]) /\
  (forall q, rms = Num q -> (0 <= q)%Q ->
             exists v, volume = Num v /\ (0 <= v <= 1)%Q) /\
  (rms = NaN -> volume = NaN /\ processVAD rms now this = (this, [onVolumeChange NaN])).
Proof.
  cbv zeta. split; [|split].
  - destruct (DetectorFacts.processVAD_signals rms now this) as [H|[H _]]; auto.
  - intros q -> Hq. apply DetectorFacts.volume_range, Hq.
  - intros ->. split; reflexivity.
Qed.

(** X4.  Between two resets of the detector, speech starts and speech
    ends take turns: whatever the frames and the timeouts, the owner is
    never told of two starts in a row, nor of an end that no start
    precedes. *)
Theorem speech_signals_alternate (events : list VADEvent) (this : t) :
  forallb (fun e => negb (VADSpec.isReset e)) events = true ->
  VADSpec.alternating this.(isSpeaking) (VADSpec.signals events this).
Proof. apply DetectorFacts.signals_alternate. Qed.

(** Speech, a pause of 1.5 s, speech again: start, end, start. *)
Lemma speech_signals_alternate_witness :
  let events :=
    [Frame (Num 0.05) 1000; Frame (Num 0.06) 1170; Frame (Num 0.005) 1340;
     SilenceTimer 2840; Frame (Num 0.05) 3000] in
  VADSpec.alternating false (VADSpec.signals events new) /\
  List.filter (fun s => match s with onVolumeChange _ => false | _ => true end)
    (VADSpec.signals events new)
  = [onSpeechStart; onSpeechEnd; onSpeechStart].
Proof.
  cbv zeta. split; [|reflexivity].
  apply (speech_signals_alternate
           [Frame (Num 0.05) 1000; Frame (Num 0.06) 1170; Frame (Num 0.005) 1340;
            SilenceTimer 2840; Frame (Num 0.05) 3000] new).
  reflexivity.
Defined.



(** ** Playback *)

(** X6.  The player plays the chunks in their order of arrival and loses
    none.  After any run, the chunks that were queued before it followed
    by those that arrived during it are the chunks taken off the queue
    followed by those still queued; the sources started are, in order, the
    chunks taken that have at least one sample, each with the duration of
    its chunk (its sample count over 24000). *)
Theorem chunks_play_in_arrival_order {platform : Base64}
    (events : list PlaybackEvent) (this : t) :
  exists taken,
    this.(playbackQueue) ++ PlaybackSpec.arrivals events
    = taken ++ (fst (playbackRun events this)).(playbackQueue) /\
    map duration (snd (playbackRun events this))
    = map PlaybackSpec.chunkDuration (List.filter PlaybackSpec.playable taken).
Proof. apply PlayerFacts.playbackRun_takes. Qed.

(** X7.  A chunk waits in the queue only while the player plays: after any
    run from a new player, from a stopped one or from a destroyed one, a
    player that is not playing has an empty queue. *)
Theorem queue_waits_only_while_playing {platform : Base64}
    (events : list PlaybackEvent) (this : t) :
  let idle_means_empty final :=
    isCurrentlyPlaying final = false -> final.(playbackQueue) = [] in
  idle_means_empty (fst (playbackRun events new)) /\
  idle_means_empty (fst (playbackRun events (stopPlayback this))) /\
  idle_means_empty (fst (playbackRun events (destroy this))).
Proof.
  cbv zeta. repeat split; apply PlayerFacts.settled_idle;
    apply PlayerFacts.playbackRun_settled; intros H; cbn in H; contradiction.
Qed.

(** X8.  [stopPlayback] drops the queue and the schedule: the player is
    idle with nothing queued, and the next chunk to arrive, at clock
    [clock], starts at [clock] (not at the end of the audio that was
    scheduled before), for its own duration. *)
Theorem stopPlayback_restarts_schedule {platform : Base64} (base64 : string)
    (float32Data : Float32Array) (clock : Q) (this : t) :
  base64PCM16ToFloat32 base64 = Some float32Data ->
  float32Data <> [] ->
  (0 <= clock)%Q ->
  let stopped := stopPlayback this in
  stopped.(playbackQueue) = [] /\ isCurrentlyPlaying stopped = false /\
  exists source,
    snd (playAudioChunk base64 clock stopped) = [source] /\
    (source.(startTime) == clock)%Q /\
    source.(duration) = PlaybackSpec.chunkDuration float32Data /\
    (fst (playAudioChunk base64 clock stopped)).(nextPlayTime)
    = (source.(startTime) + source.(duration))%Q.
Proof.
  intros Hd Hne Hc. cbv zeta. split; [reflexivity|]. split; [reflexivity|].
  unfold playAudioChunk. cbv zeta. rewrite Hd. cbn.
  destruct float32Data as [|x float32Data]; [contradiction|]. cbn.
  eexists. split; [reflexivity|]. cbn. split; [|split; reflexivity].
  apply Q.max_l, Hc.
Qed.

Lemma stopPlayback_restarts_schedule_witness :
  let playing :=
    fst (playbackRun [Enqueue "AID/fw==" 2; Enqueue "AID/fw==" 2.00001] new) in
  let stopped := stopPlayback playing in
  playing.(playbackQueue) <> [] /\
  stopped.(playbackQueue) = [] /\ isCurrentlyPlaying stopped = false /\
  exists source,
    snd (playAudioChunk "AID/fw==" 7 stopped) = [source] /\
    (source.(startTime) == 7)%Q /\
    source.(duration) = PlaybackSpec.chunkDuration [Num (-32769 # 32768); Num 1] /\
    (fst (playAudioChunk "AID/fw==" 7 stopped)).(nextPlayTime)
    = (source.(startTime) + source.(duration))%Q.
Proof.
  cbv zeta. split; [vm_compute; discriminate|].
  apply (stopPlayback_restarts_schedule "AID/fw=="
           [Num (-32769 # 32768); Num 1] 7);
    [vm_compute; reflexivity|discriminate|discriminate].
Defined.

(** X9.  A chunk of no samples stalls the player.  [createBuffer] refuses
    a buffer of no frames, so when such a chunk reaches an idle player the
    player is left marked as playing with no source started; no [ended]
    event will come, and every chunk that arrives afterwards is queued and
    none is started.  [stopPlayback] ends the stall. *)
Theorem empty_chunk_stalls_player {platform : Base64} (base64 : string) (clock : Q)
    (this : t) (later : list PlaybackEvent) :
  base64PCM16ToFloat32 base64 = Some [] ->
  this.(isPlaying) = false -> this.(playbackQueue) = [] ->
  forallb PlaybackSpec.isEnqueue later = true ->
  let stalled := fst (playAudioChunk base64 clock this) in
  let final := fst (playbackRun later stalled) in
  snd (playAudioChunk base64 clock this) = [] /\
  isCurrentlyPlaying stalled = true /\
  snd (playbackRun later stalled) = [] /\
  isCurrentlyPlaying final = true /\
  final.(playbackQueue) = PlaybackSpec.arrivals later /\
  isCurrentlyPlaying (stopPlayback final) = false.
Proof.
  intros Hd Hp Hq Hl. cbv zeta.
  assert (playAudioChunk base64 clock this
          = (setPlayback [] true this.(nextPlayTime) this.(currentSource)
               (setDevices true this.(mediaStream) this), [])) as E.
  { unfold playAudioChunk. cbv zeta. rewrite Hd. cbn. rewrite Hp, Hq. reflexivity. }
  rewrite E. cbn [fst snd].
  match goal with |- context [playbackRun later ?s] =>
    destruct (PlayerFacts.enqueue_while_playing later s Hl eq_refl) as (A & B & C)
  end.
  rewrite A, C. unfold isCurrentlyPlaying. rewrite B. cbn. auto 10.
Qed.

(** An empty audio delta, then two chunks of audio: nothing is started. *)
Lemma empty_chunk_stalls_player_witness :
  let stalled := fst (playAudioChunk "" 1 new) in
  let later := [Enqueue "AID/fw==" 2; Enqueue "AID/fw==" 3] in
  let final := fst (playbackRun later stalled) in
  snd (playAudioChunk "" 1 new) = [] /\
  isCurrentlyPlaying stalled = true /\
  snd (playbackRun later stalled) = [] /\
  isCurrentlyPlaying final = true /\
  final.(playbackQueue) = PlaybackSpec.arrivals later /\
  isCurrentlyPlaying (stopPlayback final) = false.
Proof.
  cbv zeta.
  apply (empty_chunk_stalls_player "" 1 new [Enqueue "AID/fw==" 2; Enqueue "AID/fw==" 3]);
    reflexivity.
Defined.

(** ** PCM16 codec *)

(** X10.  The decoder returns exactly when the text is base64 and holds an
    even number of bytes, and then returns half as many samples as bytes;
    on other text it throws ([atob] on text that is not base64,
    [Int16Array] on an odd number of bytes). *)
Theorem decoder_defined_on_even_length {platform : Base64} (base64 : string) :
  match atob base64 with
  | None => base64PCM16ToFloat32 base64 = None
  | Some binary =>
      if Nat.even (String.length binary)
      then exists float32,
             base64PCM16ToFloat32 base64 = Some float32 /\
             List.length float32 = (String.length binary / 2)%nat
      else base64PCM16ToFloat32 base64 = None
  end.
Proof.
  unfold base64PCM16ToFloat32. destruct (atob base64) as [binary|]; [|reflexivity].
  pose proof (DecoderFacts.Int16Array_defined (list_byte_of_string binary)) as H.
  rewrite DecoderFacts.length_list_byte_of_string in H.
  destruct (Nat.even (String.length binary)).
  - destruct H as (pcm16 & -> & Hl). eexists. split; [reflexivity|].
    rewrite length_map. exact Hl.
  - rewrite H. reflexivity.
Qed.

(** ** Relay *)

(** X11.  A connection with a non-empty [apiKey] makes the relay open one
    upstream socket and nothing else: the key goes into the
    [Authorization] header as [Bearer <key>] and not into the URL, which
    is the endpoint with the [model] parameter, ["abab6.5s-chat"] when the
    parameter is missing or empty.  An empty [apiKey] is refused like a
    missing one. *)
Theorem relay_upstream_request (query : gmap string Proxy.QueryValue) (key : string) :
  let model :=
    if Proxy.truthy (query !! "model") then Proxy.toString (query !! "model")
    else "abab6.5s-chat" in
  (key <> "" ->
   Proxy.onConnection (<["apiKey" := Proxy.QString key]> query)
   = [Proxy.NewUpstreamWebSocket
        (String.append Proxy.MINIMAX_WS_URL (String.append "?model=" model))
        (String.append "Bearer " key)]) /\
  Proxy.onConnection (<["apiKey" := Proxy.QString ""]> query)
  = [Proxy.ClientClose 4001 "Missing API Key"].
Proof.
  cbv zeta. unfold Proxy.onConnection. cbv zeta.
  rewrite !lookup_insert_eq, !lookup_insert_ne by discriminate. split.
  - intros Hk. cbn [Proxy.truthy].
    destruct (String.eqb_spec key "") as [E|_]; [contradiction|]. cbn [negb].
    destruct (Proxy.truthy (query !! "model")); reflexivity.
  - reflexivity.
Qed.

(** X12.  The relay forwards without change, without reordering and
    without buffering.  Over any sequence of events of a connection, what
    is written to the endpoint is exactly the client's messages that found
    the upstream socket open, in order (the others are dropped), and the
    endpoint's messages written to the client are exactly those that found
    the client socket open, in order. *)
Theorem relay_forwards_unchanged (events : list Relay.Event) :
  RelaySpec.toUpstream (Relay.run events) = RelaySpec.fromClient events /\
  RelaySpec.relayed (Relay.run events) = RelaySpec.fromUpstream events.
Proof. apply RelayFacts.relay_forwards. Qed.

(** ** Transport session *)

(** X13.  After [disconnect()] nothing goes on the wire until a socket
    opens again: [disconnect()] itself sends nothing, and in any run that
    follows with no [open] event, no method call, no heartbeat tick and no
    incoming message makes the service send. *)
Theorem nothing_sent_after_disconnect (this : RealtimeService.t)
    (events : list RealtimeService.Event) :
  forallb (fun e => negb (SessionSpec.isOpen e)) events = true ->
  SessionSpec.sends (snd (RealtimeService.disconnect this)) = [] /\
  SessionSpec.sends
    (snd (RealtimeService.run events (fst (RealtimeService.disconnect this)))) = [].
Proof.
  intros H. split.
  - unfold RealtimeService.disconnect. cbn. destruct (RealtimeService.ws this); reflexivity.
  - apply SessionFacts.run_closed; [exact H|].
    rewrite SessionFacts.disconnect_closes. discriminate.
Qed.

Lemma nothing_sent_after_disconnect_witness :
  let ready_session :=
    fst (RealtimeService.run
           [RealtimeService.CallConnect; RealtimeService.SocketOpen;
            RealtimeService.SocketMessage (Some RealtimeService.proxy_connected)]
           (RealtimeService.new None)) in
  let events :=
    [RealtimeService.Call (RealtimeService.SendText "hello");
     RealtimeService.HeartbeatTimer; RealtimeService.SocketClose;
     RealtimeService.CallConnect;
     RealtimeService.Call (RealtimeService.AppendAudio "AAA=")] in
  SessionSpec.sends
    (RealtimeService.invoke (RealtimeService.SendText "hello") ready_session) <> [] /\
  SessionSpec.sends (snd (RealtimeService.disconnect ready_session)) = [] /\
  SessionSpec.sends
    (snd (RealtimeService.run events (fst (RealtimeService.disconnect ready_session)))) = [].
Proof.
  cbv zeta. split; [vm_compute; discriminate|].
  apply nothing_sent_after_disconnect. reflexivity.
Defined.

(** X14.  [isConnectedState()] turns true only on a readiness event (the
    relay's [proxy.connected], or the opening of the socket when no relay
    is used) and turns false only on the close of the socket or on
    [disconnect()]. *)
Theorem connected_state_transitions (e : RealtimeService.Event) (this : RealtimeService.t) :
  let this' := fst (RealtimeService.step e this) in
  (RealtimeService.isConnectedState this = false ->
   RealtimeService.isConnectedState this' = true ->
   SessionSpec.ready this.(RealtimeService.useProxy) e = true) /\
  (RealtimeService.isConnectedState this = true ->
   RealtimeService.isConnectedState this' = false ->
   e = RealtimeService.SocketClose \/ e = RealtimeService.CallDisconnect).
Proof. apply SessionFacts.isConnected_changes. Qed.

(** X15.  The promise of [connect()] is resolved only into a connected
    session.  It is rejected in two ways: by the error event of the
    socket, which then forgets the caller; or at once by the call itself,
    when the socket cannot be constructed, with the message of the
    exception and with the session left as it was.  The close of the
    socket settles nothing: a socket that closes with no error event
    leaves the promise of the caller pending. *)
Theorem connect_promise_settlement (e : RealtimeService.Event) (this : RealtimeService.t)
    (caller : RealtimeService.Caller) :
  (In (RealtimeService.Resolve caller) (snd (RealtimeService.step e this)) ->
   RealtimeService.isConnectedState (fst (RealtimeService.step e this)) = true) /\
  (forall message,
     In (RealtimeService.Reject caller message) (snd (RealtimeService.step e this)) ->
     (e = RealtimeService.SocketError /\
      this.(RealtimeService.connectPending) = Some caller /\
      (fst (RealtimeService.step e this)).(RealtimeService.connectPending) = None) \/
     (e = RealtimeService.CallConnectThrown message /\
      caller = RealtimeService.Owner /\
      RealtimeService.isConnectedState this = false /\
      fst (RealtimeService.step e this) = this)) /\
  (forall message,
     RealtimeService.isConnectedState this = false ->
     RealtimeService.step (RealtimeService.CallConnectThrown message) this
     = (this, [RealtimeService.Reject RealtimeService.Owner message])) /\
  (forall message,
     ~ In (RealtimeService.Resolve caller) (snd (RealtimeService.onclose this)) /\
     ~ In (RealtimeService.Reject caller message) (snd (RealtimeService.onclose this))) /\
  (fst (RealtimeService.onclose this)).(RealtimeService.connectPending)
  = this.(RealtimeService.connectPending).
Proof.
  split; [apply SessionFacts.settlement|]. split; [apply SessionFacts.settlement|].
  split; [|split].
  - intros message H. cbn [RealtimeService.step]. unfold RealtimeService.connect.
    unfold RealtimeService.isConnectedState in H. rewrite H. reflexivity.
  - intros message.
    destruct (SessionFacts.settlement RealtimeService.SocketClose this caller) as [_ H].
    split.
    + intros Hin. revert Hin. apply SessionFacts.onclose_no_settlement.
    + intros Hin. destruct (H message Hin) as [[E _]|[E _]]; discriminate.
  - apply SessionFacts.onclose_no_settlement.
Qed.

(** X16.  Through the relay the session is kept alive.  Handling
    [proxy.connected] on an open socket registers the heartbeat with a
    period of 60000 ms; from then on every tick sends one [task_continue]
    and changes nothing.  After the socket has closed the ticks send
    nothing; after [disconnect()] the interval is cleared and the ticks
    send nothing. *)
Theorem relay_session_keep_alive (this : RealtimeService.t) (n : nat) :
  this.(RealtimeService.ws) = Some RealtimeService.OPEN ->
  let ticks := repeat RealtimeService.HeartbeatTimer n in
  let ready :=
    fst (RealtimeService.step
           (RealtimeService.SocketMessage (Some RealtimeService.proxy_connected)) this) in
  let closed := fst (RealtimeService.step RealtimeService.SocketClose ready) in
  let stopped := fst (RealtimeService.disconnect ready) in
  ready.(RealtimeService.heartbeatInterval) = Some 60000 /\
  RealtimeService.run ticks ready
  = (ready, repeat (RealtimeService.Send RealtimeService.task_continue) n) /\
  snd (RealtimeService.run ticks closed) = [] /\
  stopped.(RealtimeService.heartbeatInterval) = None /\
  snd (RealtimeService.run ticks stopped) = [].
Proof.
  intros Hw. cbv zeta.
  destruct (RealtimeFacts.proxy_connected_starts_heartbeat this) as [Hh Hc].
  cbv zeta in Hh, Hc.
  split; [exact Hh|]. split; [|split; [|split]].
  - apply (SessionFacts.heartbeat_ticks n _ _ Hh Hc). cbn. exact Hw.
  - rewrite SessionFacts.heartbeat_ticks_disconnected; [reflexivity|].
    cbn [RealtimeService.step]. unfold RealtimeService.onclose.
    match goal with |- context [RealtimeService.setConnection false _ ?s] => generalize s end.
    intros s. cbn. destruct (RealtimeService.manualDisconnect s); cbn; [reflexivity|].
    destruct (RealtimeService.reconnectAttempts s <? RealtimeService.maxReconnectAttempts);
      reflexivity.
  - apply RealtimeFacts.disconnect_stops_heartbeat.
  - rewrite SessionFacts.heartbeat_ticks_disconnected; [reflexivity|].
    apply RealtimeFacts.disconnect_stops_heartbeat.
Qed.

Lemma relay_session_keep_alive_witness :
  let this :=
    fst (RealtimeService.run [RealtimeService.CallConnect; RealtimeService.SocketOpen]
           (RealtimeService.new None)) in
  let ticks := repeat RealtimeService.HeartbeatTimer 3 in
  let ready :=
    fst (RealtimeService.step
           (RealtimeService.SocketMessage (Some RealtimeService.proxy_connected)) this) in
  let closed := fst (RealtimeService.step RealtimeService.SocketClose ready) in
  let stopped := fst (RealtimeService.disconnect ready) in
  ready.(RealtimeService.heartbeatInterval) = Some 60000 /\
  RealtimeService.run ticks ready
  = (ready, repeat (RealtimeService.Send RealtimeService.task_continue) 3) /\
  snd (RealtimeService.run ticks closed) = [] /\
  stopped.(RealtimeService.heartbeatInterval) = None /\
  snd (RealtimeService.run ticks stopped) = [].
Proof.
  cbv zeta.
  apply (relay_session_keep_alive
           (fst (RealtimeService.run
                   [RealtimeService.CallConnect; RealtimeService.SocketOpen]
                   (RealtimeService.new None))) 3).
  reflexivity.
Defined.

(** ** Coordinator *)

(** X17.  Without an API key the component stays off the network and off
    the microphone: whatever is clicked and whatever timers fire, no
    service is created, nothing is sent, the status stays [disconnected]
    and the microphone is not opened; a click on connect shows the request
    for a key. *)
Theorem no_key_no_connection {platform : Base64}
    (events : list (App.Environment * App.Event)) (env : App.Environment) :
  let final := App.run events (App.mount "") in
  final.(App.realtimeRef) = None /\ final.(App.sent) = [] /\
  final.(App.connectionStatus) = App.disconnected /\
  final.(App.isListening) = false /\
  final.(App.audioProcessorRef).(mediaStream) = false /\
  (App.step env App.ClickConnect final).(App.error) = Some "请输入 API Key".
Proof.
  cbv zeta.
  assert (CoordinatorSpec.unused (App.run events (App.mount ""))) as H.
  { apply CoordinatorFacts.unused_run. repeat split. }
  destruct H as (H1 & H2 & H3 & H4 & H5 & H6).
  repeat (split; [assumption|]).
  cbn [App.step]. unfold App.handleConnect. rewrite H4, H1.
  destruct (App.run events (App.mount "")). reflexivity.
Qed.

(** X18.  In every run of the component the mirror of the
    conversation-mode state ([isConversationModeRef]) agrees with the
    state, and the session is shown as listening only while the microphone
    is open. *)
Theorem mode_and_listening_coherent {platform : Base64}
    (events : list (App.Environment * App.Event)) (key : string) :
  let final := App.run events (App.mount key) in
  final.(App.isConversationModeRef) = final.(App.isConversationMode) /\
  (final.(App.isListening) = true ->
   final.(App.audioProcessorRef).(mediaStream) = true).
Proof.
  cbv zeta. apply (CoordinatorFacts.coherent_run events (App.mount key)).
  split; [reflexivity|discriminate].
Qed.

Section Handlers.
Import RealtimeService App CoordinatorSpec.
Context {platform : Base64}.

(** X19.  The end of an utterance submits the turn once.  In conversation
    mode, when speech was detected and the assistant is not responding, the
    speech end sends [input_audio_buffer.commit] and then
    [response.create] (nothing on a socket that is not open), forgets the
    speech and resets the detector, and keeps listening; in every other
    case it does nothing.  A second speech end with no speech in between
    does nothing. *)
Theorem speech_end_commits_turn (s : App.t) :
  let fires := s.(isConversationModeRef) && s.(hasSpeechRef) && negb s.(isResponding) in
  let s' := handleSpeechEnd s in
  (if fires then
     s'.(sent) = s.(sent) ++ wire s [input_audio_buffer_commit; response_create None] /\
     s'.(hasSpeechRef) = false /\
     s'.(audioProcessorRef) = AudioProcessor.resetVADState s.(audioProcessorRef) /\
     s'.(isListening) = s.(isListening)
   else s' = s) /\
  handleSpeechEnd s' = s'.
Proof.
  cbv zeta. unfold handleSpeechEnd, call, wire, commitAudio, createResponse, send.
  destruct s. cbn.
  destruct isConversationModeRef0, hasSpeechRef0, isResponding0; cbn; auto.
  destruct realtimeRef0 as [rt|]; cbn; [|rewrite app_nil_r; auto].
  destruct (ws rt) as [[]|]; cbn; rewrite ?app_nil_r, <- ?app_assoc; auto.
Qed.

(** X20.  An interruption is local.  The interrupt button sends nothing to
    the endpoint: it sets the interruption flag, stops the player (queue
    emptied, schedule reset) and clears the streamed text.  A speech start
    while the assistant responds does the same and sends one
    [input_audio_buffer.clear]; a speech start at another time only records
    that speech was heard. *)
Theorem interruption_is_local (s : App.t) :
  let s' := handleInterrupt s in
  (s'.(sent) = s.(sent) /\ s'.(isInterruptedRef) = true /\
   silent s'.(audioProcessorRef) /\
   s'.(streamingText) = "" /\ s'.(streamingTextRef) = "" /\ s'.(isResponding) = false) /\
  let b := handleSpeechStart s in
  if s.(isResponding) then
    b.(sent) = s.(sent) ++ wire s [input_audio_buffer_clear] /\
    b.(isInterruptedRef) = true /\ b.(hasSpeechRef) = true /\
    silent b.(audioProcessorRef) /\
    b.(streamingText) = "" /\ b.(streamingTextRef) = "" /\ b.(isResponding) = false
  else b = setHasSpeechRef true s.
Proof.
  cbv zeta. unfold handleInterrupt, handleSpeechStart, call, wire, interrupt,
    clearAudioBuffer, send, silent.
  destruct s. cbn. split.
  - destruct realtimeRef0; cbn; rewrite ?app_nil_r; auto 10.
  - destruct isResponding0; cbn; [|reflexivity].
    destruct realtimeRef0 as [rt|]; cbn; [|rewrite ?app_nil_r; auto 10].
    destruct (ws rt) as [[]|]; cbn; rewrite ?app_nil_r; auto 10.
Qed.


(** X22.  A close of the socket is a matter of display only: it sets the
    status to [disconnected] and turns conversation mode, listening and
    responding off, but it does not touch the audio processor: the
    microphone capture, if open, stays open, and audio that is playing or
    queued goes on. *)
Theorem socket_close_leaves_audio (env : Environment) (s : App.t) (rt : RealtimeService.t) :
  s.(realtimeRef) = Some rt ->
  let s' := App.step env (Service SocketClose) s in
  s'.(connectionStatus) = disconnected /\
  s'.(isConversationMode) = false /\ s'.(isConversationModeRef) = false /\
  s'.(isListening) = false /\ s'.(isResponding) = false /\
  s'.(audioProcessorRef) = s.(audioProcessorRef) /\
  s'.(sent) = s.(sent).
Proof.
  intros H. cbv zeta. cbn [App.step]. unfold service. rewrite H.
  unfold step, onclose. destruct rt as [proxy socket c n p manual h timers]. cbn.
  destruct socket; cbn; destruct manual; cbn;
    try (destruct (n <? maxReconnectAttempts)); destruct s; cbn; auto 10.
Qed.

(** X23.  A connection attempt and its two outcomes.  With a key, and
    unless an attempt is under way, a click on connect shows [connecting]
    with no error and sends nothing yet.  When the socket opens and the
    relay acknowledges, the status is [connected], the session
    configuration is the one event sent, and the service reports itself
    connected.  When the socket fails instead, the status is [error] and
    the message tells to start the relay. *)
Theorem connection_attempt_outcomes (env : Environment) (s : App.t) :
  s.(connectionStatus) <> connecting -> s.(apiKey) <> "" ->
  let attempting := handleConnect env s in
  let acknowledged :=
    App.run [(env, Service SocketOpen); (env, delivered proxy_connected)] attempting in
  let failed := App.step env (Service SocketError) attempting in
  (attempting.(connectionStatus) = connecting /\ attempting.(error) = None /\
   attempting.(sent) = s.(sent) /\ connectedState attempting = false) /\
  (acknowledged.(connectionStatus) = connected /\ acknowledged.(error) = None /\
   acknowledged.(sent) = s.(sent) ++ [session_update] /\
   connectedState acknowledged = true) /\
  (failed.(connectionStatus) = error_status /\
   failed.(error)
   = Some "连接失败: WebSocket 连接失败，请确保代理服务器已启动 (node server/proxy.js)" /\
   failed.(sent) = s.(sent) /\ connectedState failed = false).
Proof.
  intros Hs Hk. cbv zeta. unfold handleConnect.
  destruct (String.eqb_spec (apiKey s) "") as [E|_]; [contradiction|].
  destruct s. cbn in Hs |- *.
  destruct connectionStatus0; try contradiction; vm_compute; auto 10.
Qed.


(** X25.  The voice button on a session that is not connected connects
    first, and goes on 500 ms after the attempt has ended, with the
    [isConversationMode] and [isResponding] of the click.  When the relay
    has acknowledged, conversation mode is entered and, the microphone
    being granted, the session listens.  When the socket fails (its error
    event is followed by its close event before the wait is over), the
    click ends there: the session is shown as disconnected, with the
    message of the failure; it is neither in conversation mode nor
    listening, the microphone and the wire are as they were, and the
    service has armed a reconnect. *)
Theorem voice_button_connects_first (env : Environment) (s : App.t) :
  connectedState s = false ->
  s.(connectionStatus) <> connecting -> s.(apiKey) <> "" ->
  s.(voiceInputWaits) = [] ->
  let clicked := handleVoiceInput env s in
  let acknowledged :=
    App.run [(env, Service SocketOpen); (env, delivered proxy_connected);
             (env, VoiceInputWait)] clicked in
  let failed :=
    App.run [(env, Service SocketError); (env, Service SocketClose);
             (env, VoiceInputWait)] clicked in
  (clicked.(connectionStatus) = connecting /\
   clicked.(isConversationMode) = s.(isConversationMode) /\
   clicked.(isListening) = s.(isListening)) /\
  (s.(isConversationMode) = false -> s.(isResponding) = false ->
   env.(media) = AudioProcessor.Granted ->
   acknowledged.(connectionStatus) = connected /\
   acknowledged.(isConversationMode) = true /\
   acknowledged.(isListening) = true /\
   acknowledged.(audioProcessorRef).(AudioProcessor.mediaStream) = true) /\
  (failed.(connectionStatus) = disconnected /\
   failed.(error)
   = Some "连接失败: WebSocket 连接失败，请确保代理服务器已启动 (node server/proxy.js)" /\
   failed.(isConversationMode) = false /\
   failed.(isConversationModeRef) = false /\
   failed.(isListening) = false /\
   failed.(audioProcessorRef) = s.(audioProcessorRef) /\
   failed.(sent) = s.(sent) /\
   exists rt,
     failed.(realtimeRef) = Some rt /\ isConnectedState rt = false /\
     rt.(reconnectAttempts) = 1 /\ rt.(reconnectTimers) = 1%nat).
Proof.
  intros Hc Hs Hk Hw. cbv zeta. unfold handleVoiceInput. rewrite Hc, Hw. cbn [negb app].
  unfold handleConnect.
  destruct (String.eqb_spec (apiKey s) "") as [E|_]; [contradiction|].
  destruct s. cbn in Hs, Hc, Hw |- *. subst.
  destruct connectionStatus0; try contradiction;
    (split; [vm_compute; auto|]);
    (split; [intros -> -> Hm; destruct env as [m c]; cbn in Hm; subst m; vm_compute; auto
            |vm_compute; repeat (split; [reflexivity|]); eexists; auto]).
Qed.


(** X27.  The check armed by [response.audio.done] polls the player.
    While the player plays, a check re-arms itself and changes nothing.
    The check that finds the player idle is the last: it clears the
    interruption flag, turns responding off unless the response was
    interrupted, and, in conversation mode with the session not listening,
    starts listening again. *)
Theorem playback_check_polls (env : Environment) (s : App.t) (checks : nat) :
  s.(playbackChecks) = S checks ->
  let s' := App.step env PlaybackCheck s in
  if AudioProcessor.isCurrentlyPlaying s.(audioProcessorRef)
  then s' = s
  else
    s'.(playbackChecks) = checks /\ s'.(isInterruptedRef) = false /\
    s'.(isResponding) = (if s.(isInterruptedRef) then s.(isResponding) else false) /\
    (s.(isConversationModeRef) = false -> s'.(isListening) = s.(isListening)) /\
    (s.(isConversationModeRef) = true -> s.(isListening) = false ->
     connectedState s = true -> env.(media) = AudioProcessor.Granted ->
     s'.(isListening) = true /\ s'.(hasSpeechRef) = false).
Proof.
  intros Hp. cbv zeta. cbn [App.step]. rewrite Hp. unfold checkPlaybackDone.
  destruct s. cbn in Hp |- *. subst.
  destruct (AudioProcessor.isCurrentlyPlaying audioProcessorRef0); cbn; [reflexivity|].
  destruct isInterruptedRef0, isConversationModeRef0, isListening0; cbn;
    unfold startListening, connectedState; cbn;
    try (destruct realtimeRef0 as [rt|]; cbn;
         [destruct (isConnectedState rt) eqn:Ec; cbn;
          [destruct (media env) eqn:Em; cbn|]|]);
    repeat split; try reflexivity; try discriminate; intros; cbn in *; congruence.
Qed.

(** X28.  The text shown while a response streams is the text deltas
    appended in their order of arrival: unless the response was
    interrupted, each delta is appended to the accumulated text, which is
    what is displayed, and no message is added; [response.text.done] then
    adds the final text as one assistant message and clears the streamed
    text. *)
Theorem streamed_text_accumulates (env : Environment) (s : App.t) (rt : RealtimeService.t)
    (deltas : list string) (text : string) :
  s.(realtimeRef) = Some rt -> s.(isInterruptedRef) = false ->
  let streamed :=
    App.run (map (fun delta => (env, delivered (response_text_delta delta))) deltas) s in
  let finished := App.step env (delivered (response_text_done text)) streamed in
  (streamed.(streamingTextRef) = fold_left String.append deltas s.(streamingTextRef) /\
   (deltas <> [] ->
    streamed.(streamingText) = streamed.(streamingTextRef) /\
    streamed.(isResponding) = true) /\
   streamed.(messages) = s.(messages) /\ streamed.(sent) = s.(sent)) /\
  (finished.(messages)
   = s.(messages) ++ [{| role := assistant; content := text; isAudio := false |}] /\
   finished.(streamingText) = "" /\ finished.(streamingTextRef) = "").
Proof.
  intros Hr Hf. cbv zeta.
  assert (forall deltas s,
    s.(realtimeRef) = Some rt -> s.(isInterruptedRef) = false ->
    let streamed :=
      App.run (map (fun delta => (env, delivered (response_text_delta delta))) deltas) s in
    streamed.(realtimeRef) = Some rt /\ streamed.(isInterruptedRef) = false /\
    streamed.(streamingTextRef) = fold_left String.append deltas s.(streamingTextRef) /\
    (deltas <> [] ->
     streamed.(streamingText) = streamed.(streamingTextRef) /\
     streamed.(isResponding) = true) /\
    streamed.(messages) = s.(messages) /\ streamed.(sent) = s.(sent)) as Hrun.
  { clear. induction deltas as [|delta deltas IH]; intros s Hr Hf.
    - cbn. intuition.
    - cbv zeta. cbn [map App.run fold_left].
      destruct (CoordinatorFacts.text_delta_step env s rt delta Hr Hf)
        as (A & B & C & D & E & F & G).
      cbv zeta in *.
      change (fold_left _ ?l (App.step env ?e s)) with (App.run l (App.step env e s)).
      destruct (IH _ A B) as (A' & B' & C' & D' & F' & G'). cbv zeta in *.
      split; [exact A'|]. split; [exact B'|].
      split; [rewrite C', C; reflexivity|].
      split; [|split; [rewrite F'; exact F|rewrite G'; exact G]].
      intros _. destruct deltas as [|d deltas]; [cbn; auto|].
      apply D'. discriminate. }
  destruct (Hrun deltas s Hr Hf) as (A & B & C & D & F & G). cbv zeta in *.
  split; [auto|].
  revert A B F. generalize (App.run
    (map (fun delta => (env, delivered (response_text_delta delta))) deltas) s).
  intros s0 A B F. unfold delivered. cbn [App.step]. unfold service. rewrite A. cbn.
  destruct s0. cbn in *. subst. cbn. auto.
Qed.

End Handlers.

Section Reconnection.
Import RealtimeService.

(** X29.  An automatic reconnection restores the session.  When the
    socket of a relay session closes with reconnect attempts left and no
    [disconnect()] pending, the owner is told, a reconnection is armed for
    2000 ms later and, once the new socket is open and the relay has
    acknowledged, the session configuration is sent again, the owner is
    told of the connection, the attempts are counted from zero again and
    the heartbeat runs. *)
Theorem automatic_reconnection_restores_session (this : RealtimeService.t) :
  this.(useProxy) = true -> this.(manualDisconnect) = false ->
  this.(reconnectAttempts) < maxReconnectAttempts ->
  let events :=
    [SocketClose; ReconnectTimer; SocketOpen; SocketMessage (Some proxy_connected)] in
  let final := fst (RealtimeService.run events this) in
  snd (RealtimeService.run events this)
  = [Invoke onDisconnected; SetTimeoutConnect 2000; NewWebSocket;
     Send session_update; Invoke onConnected; Resolve Timeout] /\
  isConnectedState final = true /\ final.(ws) = Some OPEN /\
  final.(reconnectAttempts) = 0 /\ final.(heartbeatInterval) = Some 60000 /\
  final.(reconnectTimers) = this.(reconnectTimers).
Proof.
  intros Hp Hm Ha. cbv zeta.
  destruct this as [proxy socket c n p manual h timers]. cbn in Hp, Hm, Ha. subst.
  unfold RealtimeService.run, step, onclose. cbn.
  destruct socket; cbn;
    (destruct (Z.ltb_spec n maxReconnectAttempts) as [_|]; [|lia]); cbn; auto 10.
Qed.

End Reconnection.

(** ** Instances of the properties that have a precondition *)

Section Instances.
Import RealtimeService App CoordinatorSpec.

Lemma socket_close_leaves_audio_witness :
  let env := {| media := AudioProcessor.Granted; clock := 0 |} in
  let listening :=
    App.run
      [(env, ClickConnect); (env, Service SocketOpen); (env, delivered proxy_connected);
       (env, ClickVoiceInput)]
      (mount "key") in
  let s' := App.step env (Service SocketClose) listening in
  (listening.(isListening) = true /\
   listening.(audioProcessorRef).(AudioProcessor.mediaStream) = true) /\
  s'.(audioProcessorRef).(AudioProcessor.mediaStream) = true /\
  s'.(connectionStatus) = disconnected /\
  s'.(isConversationMode) = false /\ s'.(isConversationModeRef) = false /\
  s'.(isListening) = false /\ s'.(isResponding) = false /\
  s'.(audioProcessorRef) = listening.(audioProcessorRef) /\
  s'.(sent) = listening.(sent).
Proof.
  cbv zeta. split; [vm_compute; auto|]. split; [vm_compute; reflexivity|].
  match goal with |- context [App.step ?env (Service SocketClose) ?s] =>
    match eval vm_compute in (realtimeRef s) with
    | Some ?rt => apply (socket_close_leaves_audio env s rt)
    end
  end.
  vm_compute. reflexivity.
Defined.

Lemma connection_attempt_outcomes_witness :
  let env := {| media := AudioProcessor.Granted; clock := 0 |} in
  let attempting := handleConnect env (mount "key") in
  let acknowledged :=
    App.run [(env, Service SocketOpen); (env, delivered proxy_connected)] attempting in
  let failed := App.step env (Service SocketError) attempting in
  (attempting.(connectionStatus) = connecting /\ attempting.(error) = None /\
   attempting.(sent) = [] /\ connectedState attempting = false) /\
  (acknowledged.(connectionStatus) = connected /\ acknowledged.(error) = None /\
   acknowledged.(sent) = [] ++ [session_update] /\
   connectedState acknowledged = true) /\
  (failed.(connectionStatus) = error_status /\
   failed.(error)
   = Some "连接失败: WebSocket 连接失败，请确保代理服务器已启动 (node server/proxy.js)" /\
   failed.(sent) = [] /\ connectedState failed = false).
Proof.
  cbv zeta.
  apply (connection_attempt_outcomes {| media := AudioProcessor.Granted; clock := 0 |}
           (mount "key")); discriminate.
Defined.


Lemma voice_button_connects_first_witness :
  let env := {| media := AudioProcessor.Granted; clock := 0 |} in
  let clicked := handleVoiceInput env (mount "key") in
  let acknowledged :=
    App.run [(env, Service SocketOpen); (env, delivered proxy_connected);
             (env, VoiceInputWait)] clicked in
  let failed :=
    App.run [(env, Service SocketError); (env, Service SocketClose);
             (env, VoiceInputWait)] clicked in
  clicked.(connectionStatus) = connecting /\
  (acknowledged.(connectionStatus) = connected /\
   acknowledged.(isConversationMode) = true /\
   acknowledged.(isListening) = true) /\
  (failed.(connectionStatus) = disconnected /\
   failed.(isConversationMode) = false /\ failed.(isListening) = false).
Proof.
  cbv zeta.
  destruct (voice_button_connects_first {| media := AudioProcessor.Granted; clock := 0 |}
              (mount "key") eq_refl ltac:(discriminate) ltac:(discriminate) eq_refl)
    as ((H1 & _) & H2 & (H3 & _ & H4 & _ & H5 & _)).
  cbv zeta in *.
  destruct (H2 eq_refl eq_refl eq_refl) as (A & B & C & _).
  auto 10.
Defined.


Lemma playback_check_polls_witness :
  let env := {| media := AudioProcessor.Granted; clock := 0 |} in
  let playing :=
    App.run
      [(env, ClickConnect); (env, Service SocketOpen); (env, delivered proxy_connected);
       (env, delivered response_created);
       (env, delivered (response_audio_delta "AID/fw=="));
       (env, delivered response_audio_done)]
      (mount "key") in
  AudioProcessor.isCurrentlyPlaying playing.(audioProcessorRef) = true /\
  App.step env PlaybackCheck playing = playing.
Proof.
  cbv zeta. split; [vm_compute; reflexivity|].
  match goal with |- App.step ?env PlaybackCheck ?s = _ =>
    pose proof (playback_check_polls env s O ltac:(vm_compute; reflexivity)) as H
  end.
  cbv zeta in H.
  match type of H with (if ?b then _ else _) =>
    replace b with true in H by (vm_compute; reflexivity)
  end.
  exact H.
Defined.

Lemma streamed_text_accumulates_witness :
  let env := {| media := AudioProcessor.Granted; clock := 0 |} in
  let started :=
    App.run
      [(env, ClickConnect); (env, Service SocketOpen); (env, delivered proxy_connected);
       (env, delivered response_created)]
      (mount "key") in
  let streamed :=
    App.run (map (fun delta => (env, delivered (response_text_delta delta))) ["Hel"; "lo"])
      started in
  let finished := App.step env (delivered (response_text_done "Hello")) streamed in
  streamed.(streamingText) = "Hello" /\
  finished.(messages) = [{| role := assistant; content := "Hello"; isAudio := false |}] /\
  finished.(streamingText) = "".
Proof.
  cbv zeta.
  match goal with |- context [App.run (map _ _) ?s] =>
    match eval vm_compute in (realtimeRef s) with
    | Some ?rt =>
        destruct (streamed_text_accumulates {| media := AudioProcessor.Granted; clock := 0 |}
                    s rt ["Hel"; "lo"] "Hello")
          as ((H1 & H2 & _) & (H3 & H4 & _))
    end
  end.
  - vm_compute. reflexivity.
  - reflexivity.
  - cbv zeta in *. destruct (H2 ltac:(discriminate)) as [H5 _].
    split; [rewrite H5, H1; reflexivity|]. split; [exact H3|exact H4].
Defined.

End Instances.

Lemma automatic_reconnection_restores_session_witness :
  let ready_session :=
    fst (RealtimeService.run
           [RealtimeService.CallConnect; RealtimeService.SocketOpen;
            RealtimeService.SocketMessage (Some RealtimeService.proxy_connected)]
           (RealtimeService.new None)) in
  let events :=
    [RealtimeService.SocketClose; RealtimeService.ReconnectTimer;
     RealtimeService.SocketOpen;
     RealtimeService.SocketMessage (Some RealtimeService.proxy_connected)] in
  let final := fst (RealtimeService.run events ready_session) in
  snd (RealtimeService.run events ready_session)
  = [RealtimeService.Invoke RealtimeService.onDisconnected;
     RealtimeService.SetTimeoutConnect 2000; RealtimeService.NewWebSocket;
     RealtimeService.Send RealtimeService.session_update;
     RealtimeService.Invoke RealtimeService.onConnected;
     RealtimeService.Resolve RealtimeService.Timeout] /\
  RealtimeService.isConnectedState final = true /\
  final.(RealtimeService.ws) = Some RealtimeService.OPEN /\
  final.(RealtimeService.reconnectAttempts) = 0 /\
  final.(RealtimeService.heartbeatInterval) = Some 60000 /\
  final.(RealtimeService.reconnectTimers) = ready_session.(RealtimeService.reconnectTimers).
Proof.
  cbv zeta. apply automatic_reconnection_restores_session; reflexivity.
Defined.
